(** * Equal-Error-Rate computation and evaluation loop of the
      signature-verification notebooks

    The notebooks [3.ipynb], [4.ipynb] and [5.ipynb] define the same
    four-line function [compute_eer] on top of scikit-learn's [roc_curve]
    and numpy's [nanargmin]; notebook 3 also holds the loop that fits and
    scores every entry of the [models] dictionary.

    The two library functions are embedded from the versions that the
    output of the first cell of notebook 3 records (scikit-learn 1.6.1,
    numpy 2.0.2), statement by statement; the Python text is quoted above
    each definition.

    Numbers.  Counts are integers ([Z]); scores are finite rationals ([Q],
    scikit-learn rejects non-finite scores); an array of float64 values is
    a list of [npfloat], which adds the three special values that the code
    can produce or test for.  Arithmetic on finite values is exact.  The
    code rounds the rates [count / total], [1 - tpr] and [fpr - fnr] to
    float64; two points of the curve whose [|fpr - fnr|] are the same
    number can then differ in the last bit, so which of such points
    [nanargmin] selects is stated only where the float64 values are exact
    (see [exact_rates]). *)

From Stdlib Require Import String.
From Stdlib Require Import List ZArith QArith Qabs Lia Lqa Bool.
From Stdlib Require Import Sorting.Sorted Sorting.Permutation Morphisms.
Import ListNotations.

Local Open Scope string_scope.
Local Open Scope Q_scope.
Local Open Scope list_scope.

(** ** Exceptions and results *)

Inductive exn : Type :=
| ValueError (msg : string)
| AttributeError (msg : string)
| IndexError (msg : string).

Inductive result (A : Type) : Type :=
| Ok (a : A)
| Raise (e : exn).

Arguments Ok {A} a.
Arguments Raise {A} e.

Definition bind {A B : Type} (r : result A) (k : A -> result B) : result B :=
  match r with
  | Ok a => k a
  | Raise e => Raise e
  end.

Notation "x <- r ;; k" := (bind r (fun x => k))
  (at level 61, r at next level, right associativity).
Notation "' p <- r ;; k" := (bind r (fun p => k))
  (at level 61, p pattern, r at next level, right associativity).

(** ** numpy *)

Module Numpy.

(** A float64 value. *)
Inductive npfloat : Type :=
| NaN
| NegInf
| PosInf
| Real (q : Q).

Definition isnan (x : npfloat) : bool :=
  match x with NaN => true | _ => false end.

(** [a - b] *)
Definition fsub (a b : npfloat) : npfloat :=
  match a, b with
  | NaN, _ | _, NaN => NaN
  | Real x, Real y => Real (x - y)
  | PosInf, PosInf | NegInf, NegInf => NaN
  | PosInf, _ => PosInf
  | NegInf, _ => NegInf
  | Real _, PosInf => NegInf
  | Real _, NegInf => PosInf
  end.

(** [a + b] *)
Definition fadd (a b : npfloat) : npfloat :=
  match a, b with
  | NaN, _ | _, NaN => NaN
  | Real x, Real y => Real (x + y)
  | PosInf, NegInf | NegInf, PosInf => NaN
  | PosInf, _ | _, PosInf => PosInf
  | NegInf, _ | _, NegInf => NegInf
  end.

(** [np.abs] *)
Definition fabs (a : npfloat) : npfloat :=
  match a with
  | NaN => NaN
  | NegInf | PosInf => PosInf
  | Real x => Real (Qabs x)
  end.

(** [a / 2] *)
Definition fhalf (a : npfloat) : npfloat :=
  match a with
  | Real x => Real (x / 2)
  | other => other
  end.

(** [a < b]; false as soon as one side is NaN. *)
Definition flt (a b : npfloat) : bool :=
  match a, b with
  | NaN, _ | _, NaN => false
  | Real x, Real y => negb (Qle_bool y x)
  | NegInf, NegInf => false
  | NegInf, _ => true
  | _, NegInf => false
  | PosInf, _ => false
  | Real _, PosInf => true
  end.

(** Elementwise binary operation on two arrays of the same length. *)
Fixpoint map2 {A B C : Type} (f : A -> B -> C) (l : list A) (m : list B)
  : list C :=
  match l, m with
  | a :: l', b :: m' => f a b :: map2 f l' m'
  | _, _ => []
  end.

(** [np.diff] on an integer-valued array. *)
Fixpoint diff (l : list Z) : list Z :=
  match l with
  | a :: (b :: _) as t => (b - a)%Z :: diff t
  | _ => []
  end.

(** [np.where(np.diff(s))[0]], the positions [k] with [s[k+1] - s[k]]
    non-zero; [i] is the position of the head of [s]. *)
Fixpoint where_diff (i : nat) (s : list Q) : list nat :=
  match s with
  | a :: (b :: _) as t =>
      if Qeq_bool a b then where_diff (S i) t else i :: where_diff (S i) t
  | _ => []
  end.

(** [np.cumsum] of a boolean array, [acc] being the sum so far. *)
Fixpoint cumsum (acc : Z) (l : list bool) : list Z :=
  match l with
  | [] => []
  | b :: t => let acc' := (acc + if b then 1 else 0)%Z in acc' :: cumsum acc' t
  end.

(** [a[mask]] for a boolean mask, and hence [a[np.where(mask)[0]]]. *)
Fixpoint compress {A : Type} (mask : list bool) (a : list A) : list A :=
  match mask, a with
  | m :: mask', x :: a' =>
      if m then x :: compress mask' a' else compress mask' a'
  | _, _ => []
  end.

(** [a[i]] for [0 <= i]. *)
Definition getitem {A : Type} (a : list A) (i : nat) : result A :=
  match nth_error a i with
  | Some x => Ok x
  | None => Raise (IndexError "index out of bounds")
  end.

(** [np.argmin] on an array without NaN: the first position of the
    minimum.  [best] is the least value seen so far, at position [bi];
    [i] is the position of the head of [l]. *)
Fixpoint argmin_from (best : npfloat) (bi i : nat) (l : list npfloat) : nat :=
  match l with
  | [] => bi
  | x :: t =>
      if flt x best then argmin_from x i (S i) t
      else argmin_from best bi (S i) t
  end.

Definition argmin (l : list npfloat) : nat :=
  match l with
  | [] => 0%nat
  | x :: t => argmin_from x 0 1 t
  end.

(** [np.nanargmin]: NaN entries are replaced by [+inf]; an array made of
    NaN only raises.
<<
    a, mask = _replace_nan(a, np.inf)
    if mask is not None and mask.size:
        mask = np.all(mask, axis=axis)
        if np.any(mask):
            raise ValueError("All-NaN slice encountered")
    res = np.argmin(a, axis=axis, out=out, keepdims=keepdims)
>> *)
Definition replace_nan (x : npfloat) : npfloat :=
  match x with NaN => PosInf | _ => x end.

Definition nanargmin (a : list npfloat) : result nat :=
  match a with
  | [] => Raise (ValueError "attempt to get argmin of an empty sequence")
  | _ =>
      if forallb isnan a then Raise (ValueError "All-NaN slice encountered")
      else Ok (argmin (map replace_nan a))
  end.

End Numpy.

(** ** scikit-learn (1.6.1, the version the notebooks install) *)

Module Sklearn.
Import Numpy.

(** One test example after [y_score] and [y_true] are permuted together:
    the score and the label ([true] is the positive label 1, Genuine). *)
Abbreviation sample := (Q * bool)%type (only parsing).

(** [np.argsort(y_score, kind="mergesort")], with the permutation applied
    to both arrays at once: a stable sort of the samples by ascending
    score.  A stable sort has one result, reached here by insertion. *)
Fixpoint insert_by_score (x : sample) (l : list sample) : list sample :=
  match l with
  | [] => [x]
  | y :: l' =>
      if Qle_bool (fst x) (fst y) then x :: l else y :: insert_by_score x l'
  end.

Definition argsort_mergesort (l : list sample) : list sample :=
  fold_right insert_by_score [] l.

(** [_binary_clf_curve(y_true, y_score)] without sample weights: the
    false-positive and true-positive counts at every distinct score, by
    decreasing score.
<<
    check_consistent_length(y_true, y_score, sample_weight)
    pos_label = _check_pos_label_consistency(pos_label, y_true)
    y_true = y_true == pos_label
    desc_score_indices = np.argsort(y_score, kind="mergesort")[::-1]
    y_score = y_score[desc_score_indices]
    y_true = y_true[desc_score_indices]
    distinct_value_indices = np.where(np.diff(y_score))[0]
    threshold_idxs = np.r_[distinct_value_indices, y_true.size - 1]
    tps = stable_cumsum(y_true * weight)[threshold_idxs]
    fps = 1 + threshold_idxs - tps
    return fps, tps, y_score[threshold_idxs]
>>
    Labels are booleans here, so [pos_label] is 1; the empty input is the
    one that the label check rejects. *)
Definition binary_clf_curve (y_true : list bool) (y_score : list Q)
  : result (list Z * list Z * list Q) :=
  if negb (length y_true =? length y_score)%nat then
    Raise (ValueError "Found input variables with inconsistent numbers of samples")
  else
    match y_true with
    | [] => Raise (ValueError "y_true takes value in {} and pos_label is not specified")
    | _ =>
        let sorted := rev (argsort_mergesort (combine y_score y_true)) in
        let y_score := map fst sorted in
        let y_true := map snd sorted in
        let distinct_value_indices := where_diff 0 y_score in
        let threshold_idxs :=
          distinct_value_indices ++ [(length y_true - 1)%nat] in
        let cs := cumsum 0 y_true in
        let tps := map (fun i => nth i cs 0%Z) threshold_idxs in
        let fps :=
          map2 (fun i t => (1 + Z.of_nat i - t)%Z) threshold_idxs tps in
        Ok (fps, tps, map (fun i => nth i y_score 0) threshold_idxs)
    end.

Definition nonzero (z : Z) : bool := negb (z =? 0)%Z.

(** [np.r_[True, np.logical_or(np.diff(fps, 2), np.diff(tps, 2)), True]] *)
Definition optimal_mask (fps tps : list Z) : list bool :=
  true :: map2 orb (map nonzero (diff (diff fps)))
                   (map nonzero (diff (diff tps))) ++ [true].

(** The normalisation of a count array.
<<
    if fps[-1] <= 0:
        warnings.warn("No negative samples in y_true, ...")
        fpr = np.repeat(np.nan, fps.shape)
    else:
        fpr = fps / fps[-1]
>>
    and the same for [tps]. *)
Definition rates (counts : list Z) : list npfloat :=
  let total := last counts 0%Z in
  if (total <=? 0)%Z then repeat NaN (length counts)
  else map (fun c => Real (inject_Z c / inject_Z total)) counts.

(** [roc_curve(y_true, y_score)] with its defaults.
<<
    fps, tps, thresholds = _binary_clf_curve(y_true, y_score, ...)
    if drop_intermediate and len(fps) > 2:
        optimal_idxs = np.where(
            np.r_[True, np.logical_or(np.diff(fps, 2), np.diff(tps, 2)), True]
        )[0]
        fps = fps[optimal_idxs]
        tps = tps[optimal_idxs]
        thresholds = thresholds[optimal_idxs]
    tps = np.r_[0, tps]
    fps = np.r_[0, fps]
    thresholds = np.r_[np.inf, thresholds]
    ... fpr, tpr as above ...
    return fpr, tpr, thresholds
>> *)
Definition roc_curve (y_true : list bool) (y_score : list Q)
  : result (list npfloat * list npfloat * list npfloat) :=
  '(fps, tps, thresholds) <- binary_clf_curve y_true y_score ;;
  let '(fps, tps, thresholds) :=
    if (2 <? length fps)%nat then
      let optimal := optimal_mask fps tps in
      (compress optimal fps, compress optimal tps, compress optimal thresholds)
    else (fps, tps, thresholds) in
  let tps := 0%Z :: tps in
  let fps := 0%Z :: fps in
  let thresholds := PosInf :: map Real thresholds in
  Ok (rates fps, rates tps, thresholds).

End Sklearn.

(** ** The notebooks' [compute_eer]
<<
    def compute_eer(y_true, y_score):
        fpr, tpr, thresholds = roc_curve(y_true, y_score)
        fnr = 1 - tpr
        idx = np.nanargmin(np.abs(fpr - fnr))
        eer = (fpr[idx] + fnr[idx]) / 2
        return eer, thresholds[idx]
>> *)

Import Numpy Sklearn.

Definition compute_eer (y_true : list bool) (y_score : list Q)
  : result (npfloat * npfloat) :=
  '(fpr, tpr, thresholds) <- roc_curve y_true y_score ;;
  let fnr := map (fsub (Real 1)) tpr in
  idx <- nanargmin (map fabs (map2 fsub fpr fnr)) ;;
  fpr_idx <- getitem fpr idx ;;
  fnr_idx <- getitem fnr idx ;;
  let eer := fhalf (fadd fpr_idx fnr_idx) in
  thr <- getitem thresholds idx ;;
  Ok (eer, thr).

(** ** The ROC sweep as one pass

    The array program of [binary_clf_curve] and [roc_curve] is proved below
    to compute the same lists as a single pass over the samples sorted by
    decreasing score; the properties of the curve are proved on that
    pass. *)

(** The samples by decreasing score, as [binary_clf_curve] permutes them. *)
Definition sorted_desc (y_true : list bool) (y_score : list Q) : list sample :=
  rev (argsort_mergesort (combine y_score y_true)).

(** A point of the curve before normalisation: false positives, true
    positives, threshold. *)
Abbreviation point := (Z * Z * Q)%type (only parsing).

Definition fps_of (p : point) : Z := fst (fst p).
Definition tps_of (p : point) : Z := snd (fst p).
Definition thr_of (p : point) : Q := snd p.

(** One pass over the sorted samples: [fp] and [tp] count the negatives
    and positives passed so far; a point is emitted at the last sample of
    every run of equal scores. *)
Fixpoint sweep (fp tp : Z) (l : list sample) : list point :=
  match l with
  | [] => []
  | (s, y) :: t =>
      let fp' := (fp + if y then 0 else 1)%Z in
      let tp' := (tp + if y then 1 else 0)%Z in
      match t with
      | [] => [(fp', tp', s)]
      | (s', _) :: _ =>
          if Qeq_bool s s' then sweep fp' tp' t
          else (fp', tp', s) :: sweep fp' tp' t
      end
  end.

(** The three arrays of [binary_clf_curve] read at the positions [idxs],
    as points. *)
Definition gather (idxs : list nat) (cs : list Z) (ss : list Q) : list point :=
  map (fun i => ((1 + Z.of_nat i - nth i cs 0)%Z, nth i cs 0%Z, nth i ss 0)) idxs.

(** [drop_intermediate]: a point between two others is kept when the
    second difference of either count is non-zero there; the first and the
    last point are always kept. *)
Definition keep (a b c : point) : bool :=
  nonzero (fps_of c - fps_of b - (fps_of b - fps_of a))
  || nonzero (tps_of c - tps_of b - (tps_of b - tps_of a)).

Fixpoint drop_mid (prev : point) (l : list point) : list point :=
  match l with
  | cur :: (next :: _) as t =>
      if keep prev cur next then cur :: drop_mid cur t else drop_mid cur t
  | _ => l
  end.

Definition drop_intermediate (l : list point) : list point :=
  match l with
  | [] => []
  | p :: t => p :: drop_mid p t
  end.

(** The points that [roc_curve] keeps, without the initial [(0, 0, inf)]. *)
Definition roc_points (y_true : list bool) (y_score : list Q) : list point :=
  drop_intermediate (sweep 0 0 (sorted_desc y_true y_score)).

(** The curve that [roc_curve] returns, before the counts are divided: the
    initial point, then the points kept. *)
Definition curve (y_true : list bool) (y_score : list Q)
  : list (Z * Z * npfloat) :=
  (0%Z, 0%Z, PosInf)
  :: map (fun p : point => (fps_of p, tps_of p, Real (thr_of p)))
         (roc_points y_true y_score).

(** Number of labels equal to [b]. *)
Definition count_label (b : bool) (y_true : list bool) : Z :=
  Z.of_nat (List.length (filter (Bool.eqb b) y_true)).

(** Both classes occur in [y_true]. *)
Definition both_classes (y_true : list bool) : Prop :=
  In true y_true /\ In false y_true.

(** The rates of a point of the curve. *)
Definition fpr_of (y_true : list bool) (c : Z * Z * npfloat) : Q :=
  inject_Z (fst (fst c)) / inject_Z (count_label false y_true).

Definition tpr_of (y_true : list bool) (c : Z * Z * npfloat) : Q :=
  inject_Z (snd (fst c)) / inject_Z (count_label true y_true).

(** The absolute difference that [compute_eer] minimises, and the value it
    reports, at a point with false-positive rate [fpr] and true-positive
    rate [tpr]. *)
Definition gap (fpr tpr : Q) : Q := Qabs (fpr - (1 - tpr)).
Definition avg_err (fpr tpr : Q) : Q := (fpr + (1 - tpr)) / 2.

(** The index that [compute_eer] selects when both classes are present. *)
Definition eer_index (y_true : list bool) (y_score : list Q) : nat :=
  argmin (map Real (map (fun c => gap (fpr_of y_true c) (tpr_of y_true c))
                        (curve y_true y_score))).

(** ** scikit-learn's classification metrics, for the positive label 1 *)

Module Metrics.
Import Numpy.

Definition count_where (f : bool -> bool -> bool) (y_true y_pred : list bool) : Z :=
  Z.of_nat (List.length (filter (fun p => f (fst p) (snd p)) (combine y_true y_pred))).

Definition tp_sum := count_where (fun t p => t && p).
Definition fp_sum := count_where (fun t p => negb t && p).
Definition fn_sum := count_where (fun t p => t && negb p).

Definition check_consistent_length (y_true y_pred : list bool) : result unit :=
  if (List.length y_true =? List.length y_pred)%nat then Ok tt
  else Raise (ValueError "Found input variables with inconsistent numbers of samples").

(** [numerator / denominator], 0 where the denominator is 0
    ([zero_division="warn"]). *)
Definition prf_divide (numerator denominator : Z) : npfloat :=
  if (denominator =? 0)%Z then Real 0
  else Real (inject_Z numerator / inject_Z denominator).

Definition accuracy_score (y_true y_pred : list bool) : result npfloat :=
  _ <- check_consistent_length y_true y_pred ;;
  match y_true with
  | [] => Ok NaN
  | _ =>
      Ok (Real (inject_Z (count_where Bool.eqb y_true y_pred)
                / inject_Z (Z.of_nat (List.length y_true))))
  end.

Definition precision_score (y_true y_pred : list bool) : result npfloat :=
  _ <- check_consistent_length y_true y_pred ;;
  Ok (prf_divide (tp_sum y_true y_pred)
                 (tp_sum y_true y_pred + fp_sum y_true y_pred)).

Definition recall_score (y_true y_pred : list bool) : result npfloat :=
  _ <- check_consistent_length y_true y_pred ;;
  Ok (prf_divide (tp_sum y_true y_pred)
                 (tp_sum y_true y_pred + fn_sum y_true y_pred)).

Definition f1_score (y_true y_pred : list bool) : result npfloat :=
  _ <- check_consistent_length y_true y_pred ;;
  Ok (prf_divide (2 * tp_sum y_true y_pred)
                 (2 * tp_sum y_true y_pred + fp_sum y_true y_pred
                  + fn_sum y_true y_pred)).

End Metrics.

(** ** Notebook 3: the [models] dictionary and the evaluation loop *)

(** A Python [dict] with string keys: entries in insertion order, one per
    key. *)
Definition dict (V : Type) : Type := list (string * V).

Fixpoint dict_set {V : Type} (k : string) (v : V) (d : dict V) : dict V :=
  match d with
  | [] => [(k, v)]
  | (k', v') :: d' =>
      if String.eqb k k' then (k, v) :: d' else (k', v') :: dict_set k v d'
  end.

Fixpoint dict_get {V : Type} (k : string) (d : dict V) : option V :=
  match d with
  | [] => None
  | (k', v) :: d' => if String.eqb k k' then Some v else dict_get k d'
  end.

(** A dictionary display [{k1: v1, k2: v2, ...}]. *)
Definition dict_literal {V : Type} (entries : list (string * V)) : dict V :=
  fold_left (fun d kv => dict_set (fst kv) (snd kv) d) entries [].

Definition keys {V : Type} (d : dict V) : list string := map fst d.

(** A value stored in a row of [results]. *)
Inductive value : Type :=
| Str (s : string)
| Num (x : Numpy.npfloat).

Module Notebook.
Import Numpy Metrics.

Section Loop.

(** The scaled feature matrices. *)
Variable Features : Type.

(** A scikit-learn classifier: [fit] gives the fitted state, [predict]
    the hard labels and [predict_proba], where the class has it, one
    (class 0, class 1) probability pair per row. *)
Record classifier : Type := Classifier {
  fitted : Type;
  fit : Features -> list bool -> fitted;
  predict : fitted -> Features -> list bool;
  predict_proba : option (fitted -> Features -> list (Q * Q))
}.

Variables (X_train_scaled : Features) (y_train : list bool).
Variables (X_test_scaled : Features) (y_test : list bool).

(** The body of the loop for one entry: the row appended to [results], or
    the exception that ends the run.
<<
    model.fit(X_train_scaled, y_train)
    y_pred = model.predict(X_test_scaled)
    y_prob = model.predict_proba(X_test_scaled)[:, 1]
    acc = accuracy_score(y_test, y_pred)
    pre = precision_score(y_test, y_pred)
    rec = recall_score(y_test, y_pred)
    f1 = f1_score(y_test, y_pred)
    results.append({'Model': name, 'Accuracy': acc, 'Precision': pre,
                    'Recall': rec, 'F1': f1})
>> *)
Definition evaluate_model (name : string) (model : classifier)
  : result (dict value) :=
  let m := fit model X_train_scaled y_train in
  let y_pred := predict model m X_test_scaled in
  match predict_proba model with
  | None => Raise (AttributeError "object has no attribute 'predict_proba'")
  | Some proba =>
      let y_prob := map snd (proba m X_test_scaled) in
      acc <- accuracy_score y_test y_pred ;;
      pre <- precision_score y_test y_pred ;;
      rec <- recall_score y_test y_pred ;;
      f1 <- f1_score y_test y_pred ;;
      Ok (dict_literal [("Model", Str name); ("Accuracy", Num acc);
                        ("Precision", Num pre); ("Recall", Num rec);
                        ("F1", Num f1)])
  end.

(** [for name, model in models.items(): ...] started with the list
    [results]: the list when the loop ends, and how it ended. *)
Fixpoint evaluate_all (items : list (string * classifier))
  (results : list (dict value)) : list (dict value) * result unit :=
  match items with
  | [] => (results, Ok tt)
  | (name, model) :: rest =>
      match evaluate_model name model with
      | Raise e => (results, Raise e)
      | Ok row => evaluate_all rest (results ++ [row])
      end
  end.

(** The cell as a whole: [models] is a dictionary display and [results]
    starts empty. *)
Definition run_models (entries : list (string * classifier))
  : list (dict value) * result unit :=
  evaluate_all (dict_literal entries) [].

(** The EER of one fitted model on the test split, as the next cell
    computes it for [models['RandomForest']].
<<
    rf_probs = models['RandomForest'].predict_proba(X_test_scaled)[:,1]
    eer, threshold = compute_eer(y_test, rf_probs)
>> *)
Definition model_eer (model : classifier) : result (npfloat * npfloat) :=
  match predict_proba model with
  | None => Raise (AttributeError "object has no attribute 'predict_proba'")
  | Some proba =>
      compute_eer y_test
        (map snd (proba (fit model X_train_scaled y_train) X_test_scaled))
  end.

End Loop.

End Notebook.

(** ** Two classifiers over one numeric feature, for the examples

    The first thresholds its feature at 1/2 and reports it as the
    probability of class 1; the second predicts the same labels but has no
    [predict_proba] (as scikit-learn's margin classifiers). *)

Definition threshold_classifier : Notebook.classifier (list Q) :=
  Notebook.Classifier (list Q) unit
    (fun _ _ => tt)
    (fun _ X => map (fun x => Qle_bool (1 # 2) x) X)
    (Some (fun _ X => map (fun x => (1 - x, x)) X)).

Definition margin_classifier : Notebook.classifier (list Q) :=
  Notebook.Classifier (list Q) unit
    (fun _ _ => tt)
    (fun _ X => map (fun x => Qle_bool (1 # 2) x) X)
    None.

(** ** Predicates and measures used in the statements *)

(** Order of the samples by score. *)
Definition ascending : list sample -> Prop :=
  StronglySorted (fun a b : sample => fst a <= fst b).

Definition descending : list sample -> Prop :=
  StronglySorted (fun a b : sample => fst b <= fst a).

(** Numbers of negative and of positive samples. *)
Definition negs (l : list sample) : Z :=
  Z.of_nat (List.length (filter (fun p : sample => negb (snd p)) l)).

Definition poss (l : list sample) : Z :=
  Z.of_nat (List.length (filter (fun p : sample => snd p) l)).

(** Neither count decreases from [p] to [q]; the threshold does. *)
Definition counts_le (p q : point) : Prop :=
  (fps_of p <= fps_of q)%Z /\ (tps_of p <= tps_of q)%Z.

Definition thr_gt (p q : point) : Prop := thr_of q < thr_of p.

(** All labels are the same. *)
Definition one_class (y_true : list bool) : Prop :=
  forall a b, In a y_true -> In b y_true -> a = b.

(** All scores are the same number. *)
Definition identical_scores (y_score : list Q) : Prop :=
  forall a b, In a y_score -> In b y_score -> a == b.

(** Every genuine score is greater than every forged score. *)
Definition separable (l : list sample) : Prop :=
  forall g b, In (g, true) l -> In (b, false) l -> b < g.

Definition strictly_increasing (f : Q -> Q) : Prop :=
  forall x y, x < y -> f x < f y.

(** A transform of the scores, applied to the score of every sample, to
    the threshold of every point, and to a threshold as [roc_curve]
    returns it. *)
Definition map_score (f : Q -> Q) (l : list sample) : list sample :=
  map (fun p => (f (fst p), snd p)) l.

Definition map_thr (f : Q -> Q) (l : list point) : list point :=
  map (fun p => (fst p, f (snd p))) l.

Definition on_threshold (f : Q -> Q) (x : npfloat) : npfloat :=
  match x with
  | Real q => Real (f q)
  | other => other
  end.

(** ** Error rates of the decision [score >= t] *)

(** Number of samples of [l] with label [b] and a score of at least [t]. *)
Definition count_at_least (b : bool) (t : Q) (l : list sample) : Z :=
  Z.of_nat (List.length
              (filter (fun p : sample => Bool.eqb b (snd p) && Qle_bool t (fst p))
                      l)).

(** Share of the forged examples that the threshold [t] accepts, and share
    of the genuine examples that it rejects. *)
Definition false_positive_rate (y_true : list bool) (y_score : list Q) (t : Q)
  : Q :=
  inject_Z (count_at_least false t (combine y_score y_true))
  / inject_Z (count_label false y_true).

Definition false_negative_rate (y_true : list bool) (y_score : list Q) (t : Q)
  : Q :=
  1 - inject_Z (count_at_least true t (combine y_score y_true))
      / inject_Z (count_label true y_true).

(** Two points with the same counts and thresholds that are the same
    number; two float64 values that are the same number. *)
Definition same_point (p q : point) : Prop :=
  fps_of p = fps_of q /\ tps_of p = tps_of q /\ thr_of p == thr_of q.

Definition same_float (a b : npfloat) : Prop :=
  match a, b with
  | Real x, Real y => x == y
  | NaN, NaN | NegInf, NegInf | PosInf, PosInf => True
  | _, _ => False
  end.

(** A row of [results] has the name of one of the models [names] and four
    scores between 0 and 1. *)
Definition well_formed_row (names : list string) (row : dict value) : Prop :=
  (exists name, dict_get "Model" row = Some (Str name) /\ In name names)
  /\ forall k, In k ["Accuracy"; "Precision"; "Recall"; "F1"] ->
       exists x, dict_get k row = Some (Num (Real x)) /\ 0 <= x <= 1.

(** ** The points that [roc_curve] keeps, said on the scores

    [roc_curve] is called with its default [drop_intermediate=True]: of
    the points of the sweep, one per distinct score, it keeps the first,
    the last and those at which a second difference of the counts is not
    zero.  The counts grow from one point to the next by the numbers of
    forged and of genuine examples that have the next score, so a point
    between two others is kept when those numbers differ between its
    score and the next lower one. *)

(** Number of samples of [l] with label [b] and the score [t]. *)
Definition count_equal (b : bool) (t : Q) (l : list sample) : Z :=
  Z.of_nat (List.length
              (filter (fun p : sample => Bool.eqb b (snd p) && Qeq_bool t (fst p))
                      l)).

Definition largest (y_score : list Q) (t : Q) : Prop :=
  forall x, In x y_score -> x <= t.

Definition smallest (y_score : list Q) (t : Q) : Prop :=
  forall x, In x y_score -> t <= x.

(** [s] is the next score below [t]. *)
Definition next_below (y_score : list Q) (t s : Q) : Prop :=
  In s y_score /\ s < t /\ forall x, In x y_score -> x < t -> x <= s.

(** The score [t] keeps its point. *)
Definition kept (y_true : list bool) (y_score : list Q) (t : Q) : Prop :=
  In t y_score
  /\ (largest y_score t \/ smallest y_score t
      \/ exists s, next_below y_score t s
           /\ (count_equal false s (combine y_score y_true)
               <> count_equal false t (combine y_score y_true)
               \/ count_equal true s (combine y_score y_true)
                  <> count_equal true t (combine y_score y_true))).








(** ** Notebooks 4 and 5: the scores of the soft-voting ensemble

    [VotingClassifier(estimators=[...], voting='soft', weights=w)] answers
    [predict_proba(X)] with
<<
    avg = np.average(self._collect_probas(X), axis=0,
                     weights=self._weights_not_none)
>>
    where [_collect_probas] stacks the [predict_proba(X)] of the fitted
    estimators; the notebooks keep column 1 of the result as
    [y_prob_vote].  Averaging along axis 0 treats every column on its own,
    so the model takes the column 1 of every estimator. *)

Module Ensemble.
Import Numpy.

(** [a.sum(axis=0)] for the stacked rows [p :: ps]. *)
Definition sum_axis0 (p : list Q) (ps : list (list Q)) : list Q :=
  fold_left (map2 Qplus) ps p.

(** [np.average(probas, axis=0, weights=weights)]: the mean without
    weights, and [np.multiply(a, wgt).sum(axis) / wgt.sum()] with them.
    [None] stands for the exceptions: no estimator, a list of weights of
    another length, weights that sum to zero. *)
Definition soft_vote (weights : option (list Q)) (probas : list (list Q))
  : option (list Q) :=
  match weights with
  | None =>
      match probas with
      | [] => None
      | p :: ps =>
          Some (map (fun s => s / inject_Z (Z.of_nat (List.length probas)))
                    (sum_axis0 p ps))
      end
  | Some ws =>
      if negb (List.length ws =? List.length probas)%nat then None
      else
        let scl := fold_left Qplus ws 0 in
        if Qeq_bool scl 0 then None
        else
          match map2 (fun w a => map (fun x => x * w) a) ws probas with
          | [] => None
          | q :: qs => Some (map (fun s => s / scl) (sum_axis0 q qs))
          end
  end.

End Ensemble.

(** * Proofs *)

(** ** The array program and the one-pass sweep agree *)

Section Bridge.

Lemma gather_fps idxs cs ss :
  map2 (fun i t => (1 + Z.of_nat i - t)%Z) idxs (map (fun i => nth i cs 0%Z) idxs)
  = map fps_of (gather idxs cs ss).
Proof.
  induction idxs as [|i idxs IH]; [reflexivity|].
  cbn [map map2 gather]. f_equal. exact IH.
Qed.

Lemma gather_tps idxs cs ss :
  map (fun i => nth i cs 0%Z) idxs = map tps_of (gather idxs cs ss).
Proof.
  unfold gather. rewrite map_map. reflexivity.
Qed.

Lemma gather_thr idxs cs ss :
  map (fun i => nth i ss 0) idxs = map thr_of (gather idxs cs ss).
Proof.
  unfold gather. rewrite map_map. reflexivity.
Qed.

Lemma nth_middle_len (A B : Type) (pc : list A) (ps : list B) (x : B)
  (l : list B) (d : B) :
  List.length pc = List.length ps -> nth (List.length pc) (ps ++ x :: l) d = x.
Proof.
  intros ->. apply nth_middle.
Qed.

Lemma sweep_cons2 fp tp s y s' y' t :
  sweep fp tp ((s, y) :: (s', y') :: t)
  = if Qeq_bool s s'
    then sweep (fp + if y then 0 else 1) (tp + if y then 1 else 0) ((s', y') :: t)
    else ((fp + if y then 0 else 1)%Z, (tp + if y then 1 else 0)%Z, s)
         :: sweep (fp + if y then 0 else 1) (tp + if y then 1 else 0) ((s', y') :: t).
Proof. reflexivity. Qed.

Lemma where_diff_cons2 i (l : list sample) s y s' y' :
  where_diff i (map fst ((s, y) :: (s', y') :: l))
  = if Qeq_bool s s' then where_diff (S i) (map fst ((s', y') :: l))
    else i :: where_diff (S i) (map fst ((s', y') :: l)).
Proof. reflexivity. Qed.

Lemma gather_sweep (l : list sample) :
  l <> [] ->
  forall (pc : list Z) (ps : list Q) (fp tp : Z),
    List.length pc = List.length ps ->
    Z.of_nat (List.length pc) = (fp + tp)%Z ->
    gather (where_diff (List.length pc) (map fst l)
              ++ [(List.length pc + List.length l - 1)%nat])
           (pc ++ cumsum tp (map snd l)) (ps ++ map fst l)
    = sweep fp tp l.
Proof.
  induction l as [|[s y] t IH]; [congruence|].
  intros _ pc ps fp tp Hlen Hn.
  destruct t as [|[s' y'] t'].
  - unfold gather.
    cbn [map where_diff cumsum sweep app List.length fst snd].
    replace (List.length pc + 1 - 1)%nat with (List.length pc) by lia.
    rewrite !nth_middle. rewrite nth_middle_len by exact Hlen.
    do 3 f_equal. destruct y; lia.
  - assert (Hne : (s', y') :: t' <> []) by discriminate.
    set (fp' := (fp + if y then 0 else 1)%Z).
    set (tp' := (tp + if y then 1 else 0)%Z).
    assert (Hlen' : List.length (pc ++ [tp']) = List.length (ps ++ [s]))
      by (rewrite !length_app; simpl; lia).
    assert (Hn' : Z.of_nat (List.length (pc ++ [tp'])) = (fp' + tp')%Z)
      by (rewrite length_app; subst fp' tp'; simpl List.length; destruct y; lia).
    specialize (IH Hne _ _ fp' tp' Hlen' Hn').
    rewrite <- !app_assoc in IH. cbn [app] in IH.
    replace (List.length (pc ++ [tp'])) with (S (List.length pc)) in IH
      by (rewrite length_app; simpl; lia).
    rewrite sweep_cons2, where_diff_cons2. fold fp' tp'.
    rewrite <- IH. clear IH.
    cbn [map fst snd cumsum]. fold tp'.
    replace (List.length pc + List.length ((s, y) :: (s', y') :: t') - 1)%nat
      with (S (List.length pc) + List.length ((s', y') :: t') - 1)%nat
      by (simpl List.length; lia).
    destruct (Qeq_bool s s'); [reflexivity|].
    cbn [app]. unfold gather at 1. cbn [map]. fold (gather).
    f_equal.
    rewrite nth_middle. rewrite nth_middle_len by exact Hlen.
    do 2 f_equal. subst fp' tp'. destruct y; lia.
Qed.

Lemma argsort_length (l : list sample) :
  List.length (argsort_mergesort l) = List.length l.
Proof.
  assert (Hins : forall x m, List.length (insert_by_score x m) = S (List.length m)).
  { intros x m. induction m as [|y m IH]; simpl; [reflexivity|].
    destruct (Qle_bool (fst x) (fst y)); simpl; [reflexivity|now rewrite IH]. }
  induction l as [|x l IH]; simpl; [reflexivity|].
  now rewrite Hins, IH.
Qed.

Lemma sorted_desc_length y_true y_score :
  List.length y_true = List.length y_score ->
  List.length (sorted_desc y_true y_score) = List.length y_true.
Proof.
  intros H. unfold sorted_desc.
  rewrite length_rev, argsort_length, length_combine. lia.
Qed.

Lemma binary_clf_curve_sweep y_true y_score :
  List.length y_true = List.length y_score -> y_true <> [] ->
  let pts := sweep 0 0 (sorted_desc y_true y_score) in
  binary_clf_curve y_true y_score
  = Ok (map fps_of pts, map tps_of pts, map thr_of pts).
Proof.
  intros Hlen Hne pts. unfold binary_clf_curve.
  rewrite (proj2 (Nat.eqb_eq _ _) Hlen). cbn [negb].
  destruct y_true as [|y0 y_true]; [congruence|].
  fold (sorted_desc (y0 :: y_true) y_score).
  set (l := sorted_desc (y0 :: y_true) y_score) in *.
  assert (Hl : l <> []).
  { intros E. apply (f_equal (@List.length _)) in E.
    unfold l in E. rewrite sorted_desc_length in E by exact Hlen. discriminate. }
  pose proof (gather_sweep l Hl [] [] 0%Z 0%Z eq_refl eq_refl) as G.
  cbn [List.length app Nat.add] in G. rewrite length_map.
  rewrite (gather_fps _ _ (map fst l)), (gather_tps _ _ (map fst l)),
    (gather_thr _ (cumsum 0 (map snd l)) (map fst l)).
  rewrite G. reflexivity.
Qed.

Lemma diff2_cons3 a b c t :
  diff (diff (a :: b :: c :: t))
  = (c - b - (b - a))%Z :: diff (diff (b :: c :: t)).
Proof. reflexivity. Qed.

Lemma compress_drop_mid (A : Type) (f : point -> A) (l : list point) :
  l <> [] ->
  forall a : point,
    compress (map2 orb (map nonzero (diff (diff (map fps_of (a :: l)))))
                       (map nonzero (diff (diff (map tps_of (a :: l))))) ++ [true])
             (map f l)
    = map f (drop_mid a l).
Proof.
  induction l as [|b l IH]; [congruence|]. intros _ a.
  destruct l as [|c l].
  - reflexivity.
  - cbn [map]. rewrite !diff2_cons3. cbn [map map2 app compress].
    specialize (IH ltac:(discriminate) b). cbn [map] in IH. rewrite IH.
    cbn [drop_mid]. unfold keep.
    destruct (nonzero _ || nonzero _); reflexivity.
Qed.

Lemma compress_optimal (A : Type) (f : point -> A) (l : list point) :
  compress (optimal_mask (map fps_of l) (map tps_of l)) (map f l)
  = map f (drop_intermediate l).
Proof.
  destruct l as [|a l]; [reflexivity|].
  unfold optimal_mask. cbn [map compress drop_intermediate]. f_equal.
  destruct l as [|b l]; [reflexivity|].
  apply (compress_drop_mid A f (b :: l)). discriminate.
Qed.

(** [roc_curve] through the one-pass sweep. *)
Lemma roc_curve_points y_true y_score :
  List.length y_true = List.length y_score -> y_true <> [] ->
  let pts := roc_points y_true y_score in
  roc_curve y_true y_score
  = Ok (rates (0%Z :: map fps_of pts), rates (0%Z :: map tps_of pts),
        PosInf :: map Real (map thr_of pts)).
Proof.
  intros Hlen Hne pts. unfold roc_curve.
  rewrite binary_clf_curve_sweep by assumption. cbn [bind].
  set (l := sweep 0 0 (sorted_desc y_true y_score)).
  assert (E : (if (2 <? List.length (map fps_of l))%nat
               then (compress (optimal_mask (map fps_of l) (map tps_of l)) (map fps_of l),
                     compress (optimal_mask (map fps_of l) (map tps_of l)) (map tps_of l),
                     compress (optimal_mask (map fps_of l) (map tps_of l)) (map thr_of l))
               else (map fps_of l, map tps_of l, map thr_of l))
              = (map fps_of pts, map tps_of pts, map thr_of pts)).
  { rewrite !compress_optimal. fold (roc_points y_true y_score). fold pts.
    destruct (2 <? List.length (map fps_of l))%nat eqn:G; [reflexivity|].
    assert (D : drop_intermediate l = l).
    { rewrite length_map in G. apply Nat.ltb_ge in G.
      destruct l as [|a [|b [|c l']]]; try reflexivity. simpl in G. lia. }
    unfold pts, roc_points. fold l. now rewrite D. }
  rewrite E. reflexivity.
Qed.

End Bridge.

(** ** The samples are sorted by decreasing score *)

Section Sorting.

Lemma insert_by_score_perm x l : Permutation (insert_by_score x l) (x :: l).
Proof.
  induction l as [|y l IH]; simpl; [reflexivity|].
  destruct (Qle_bool (fst x) (fst y)); [reflexivity|].
  rewrite IH. apply perm_swap.
Qed.

Lemma argsort_perm l : Permutation (argsort_mergesort l) l.
Proof.
  induction l as [|x l IH]; simpl; [reflexivity|].
  rewrite insert_by_score_perm. now constructor.
Qed.

Lemma sorted_desc_perm y_true y_score :
  Permutation (sorted_desc y_true y_score) (combine y_score y_true).
Proof.
  unfold sorted_desc. rewrite <- Permutation_rev. apply argsort_perm.
Qed.

Lemma insert_by_score_ascending x l :
  ascending l -> ascending (insert_by_score x l).
Proof.
  unfold ascending. induction l as [|y l IH]; intros Hs; simpl.
  - repeat constructor.
  - apply StronglySorted_inv in Hs. destruct Hs as [Hl Hy].
    destruct (Qle_bool (fst x) (fst y)) eqn:E.
    + apply Qle_bool_iff in E. constructor.
      * constructor; assumption.
      * constructor; [exact E|].
        eapply Forall_impl; [|exact Hy]. intros z Hz. simpl in Hz.
        eapply Qle_trans; eassumption.
    + assert (Hyx : fst y <= fst x).
      { destruct (Qlt_le_dec (fst y) (fst x)) as [H|H];
          [now apply Qlt_le_weak|].
        apply Qle_bool_iff in H. congruence. }
      constructor; [now apply IH|].
      eapply Permutation_Forall;
        [apply Permutation_sym, insert_by_score_perm|].
      constructor; assumption.
Qed.

Lemma argsort_ascending l : ascending (argsort_mergesort l).
Proof.
  induction l as [|x l IH]; simpl.
  - constructor.
  - now apply insert_by_score_ascending.
Qed.

Lemma descending_snoc l x :
  descending l -> Forall (fun a : sample => fst x <= fst a) l ->
  descending (l ++ [x]).
Proof.
  unfold descending. induction l as [|y l IH]; intros Hs Hx; simpl.
  - repeat constructor.
  - apply StronglySorted_inv in Hs. destruct Hs as [Hl Hy].
    inversion Hx; subst. constructor; [now apply IH|].
    apply Forall_app. split; [exact Hy|]. now repeat constructor.
Qed.

Lemma ascending_rev l : ascending l -> descending (rev l).
Proof.
  induction l as [|x l IH]; intros Hs; simpl.
  - constructor.
  - apply StronglySorted_inv in Hs. destruct Hs as [Hl Hx].
    apply descending_snoc; [now apply IH|].
    apply Forall_rev. exact Hx.
Qed.

Lemma sorted_desc_descending y_true y_score :
  descending (sorted_desc y_true y_score).
Proof.
  apply ascending_rev, argsort_ascending.
Qed.

End Sorting.

(** ** Invariants of the sweep *)

Section Sweep.

Lemma negs_cons s y l : negs ((s, y) :: l) = ((if y then 0 else 1) + negs l)%Z.
Proof.
  unfold negs. destruct y; cbn [filter snd negb List.length]; lia.
Qed.

Lemma poss_cons s y l : poss ((s, y) :: l) = ((if y then 1 else 0) + poss l)%Z.
Proof.
  unfold poss. destruct y; cbn [filter snd negb List.length]; lia.
Qed.

Lemma negs_nonneg l : (0 <= negs l)%Z.
Proof. unfold negs. lia. Qed.

Lemma poss_nonneg l : (0 <= poss l)%Z.
Proof. unfold poss. lia. Qed.

Lemma sweep_nonempty l fp tp : l <> [] -> sweep fp tp l <> [].
Proof.
  revert fp tp. induction l as [|[s y] t IH]; [congruence|].
  intros fp tp _. destruct t as [|[s' y'] t']; [discriminate|].
  rewrite sweep_cons2. destruct (Qeq_bool s s'); [|discriminate].
  apply IH. discriminate.
Qed.

Lemma sweep_last l : forall fp tp d d',
  l <> [] ->
  last (sweep fp tp l) d
  = ((fp + negs l)%Z, (tp + poss l)%Z, fst (last l d')).
Proof.
  induction l as [|[s y] t IH]; [congruence|].
  intros fp tp d d' _. destruct t as [|[s' y'] t'].
  - cbn [sweep last fst]. rewrite negs_cons, poss_cons.
    change (negs []) with 0%Z. change (poss []) with 0%Z.
    f_equal. f_equal; lia.
  - rewrite sweep_cons2, negs_cons, poss_cons.
    assert (Hne : (s', y') :: t' <> []) by discriminate.
    pose proof (sweep_nonempty _ (fp + (if y then 0 else 1))
                  (tp + (if y then 1 else 0)) Hne) as Hs.
    change (last ((s, y) :: (s', y') :: t') d') with (last ((s', y') :: t') d').
    destruct (Qeq_bool s s').
    + rewrite (IH _ _ d d' Hne). f_equal. f_equal; lia.
    + destruct (sweep _ _ ((s', y') :: t')) as [|p ps] eqn:E; [congruence|].
      change (last (?a :: p :: ps) d) with (last (p :: ps) d).
      rewrite <- E, (IH _ _ d d' Hne). f_equal. f_equal; lia.
Qed.

Lemma sweep_bounds l : forall fp tp p,
  In p (sweep fp tp l) -> (fp <= fps_of p)%Z /\ (tp <= tps_of p)%Z.
Proof.
  induction l as [|[s y] t IH]; [intros ? ? ? []|].
  intros fp tp p Hp. destruct t as [|[s' y'] t'].
  - simpl in Hp. destruct Hp as [<-|[]]. unfold fps_of, tps_of; simpl.
    destruct y; lia.
  - rewrite sweep_cons2 in Hp.
    assert (Hrec : forall q, In q (sweep (fp + (if y then 0 else 1))
                     (tp + (if y then 1 else 0)) ((s', y') :: t')) ->
                   (fp <= fps_of q)%Z /\ (tp <= tps_of q)%Z).
    { intros q Hq. apply IH in Hq. destruct y; lia. }
    destruct (Qeq_bool s s'); [now apply Hrec|].
    destruct Hp as [<-|Hp]; [|now apply Hrec].
    unfold fps_of, tps_of; simpl. destruct y; lia.
Qed.

Lemma sweep_mono l : forall fp tp,
  StronglySorted counts_le (sweep fp tp l).
Proof.
  induction l as [|[s y] t IH]; [constructor|].
  intros fp tp. destruct t as [|[s' y'] t'].
  - repeat constructor.
  - rewrite sweep_cons2. destruct (Qeq_bool s s'); [apply IH|].
    constructor; [apply IH|].
    apply Forall_forall. intros q Hq. apply sweep_bounds in Hq.
    exact Hq.
Qed.

Lemma sweep_thr_in l : forall fp tp p,
  In p (sweep fp tp l) -> In (thr_of p) (map fst l).
Proof.
  induction l as [|[s y] t IH]; [intros ? ? ? []|].
  intros fp tp p Hp. destruct t as [|[s' y'] t'].
  - simpl in Hp. destruct Hp as [<-|[]]. now left.
  - rewrite sweep_cons2 in Hp.
    destruct (Qeq_bool s s').
    + right. eapply IH; eassumption.
    + destruct Hp as [<-|Hp]; [now left|].
      right. eapply IH; eassumption.
Qed.

Lemma descending_head_max s y l :
  descending ((s, y) :: l) -> Forall (fun q => q <= s) (map fst ((s, y) :: l)).
Proof.
  intros Hs. apply StronglySorted_inv in Hs. destruct Hs as [_ Hf].
  constructor; [apply Qle_refl|].
  apply Forall_map. exact Hf.
Qed.

Lemma sweep_thr_desc l : forall fp tp,
  descending l -> StronglySorted thr_gt (sweep fp tp l).
Proof.
  induction l as [|[s y] t IH]; [constructor|].
  intros fp tp Hs. pose proof Hs as Hs0.
  apply StronglySorted_inv in Hs. destruct Hs as [Ht Hf].
  destruct t as [|[s' y'] t'].
  - repeat constructor.
  - rewrite sweep_cons2. destruct (Qeq_bool s s') eqn:E; [now apply IH|].
    constructor; [now apply IH|].
    apply Forall_forall. intros q Hq. apply sweep_thr_in in Hq.
    pose proof (descending_head_max _ _ _ Ht) as Hmax.
    rewrite Forall_forall in Hmax. apply Hmax in Hq.
    inversion Hf as [|? ? Hs's _]; subst. simpl in Hs's.
    unfold thr_gt, thr_of at 2. simpl.
    apply Qle_lt_trans with s'; [exact Hq|].
    apply Qle_lteq in Hs's. destruct Hs's as [H|H]; [exact H|].
    apply Qeq_sym in H. apply Qeq_bool_iff in H. congruence.
Qed.

(** The first threshold is the largest score. *)
Lemma sweep_head_max l : forall fp tp p ps,
  descending l -> sweep fp tp l = p :: ps ->
  Forall (fun q => q <= thr_of p) (map fst l).
Proof.
  induction l as [|[s y] t IH]; [discriminate|].
  intros fp tp p ps Hs Hp. pose proof (descending_head_max _ _ _ Hs) as Hmax.
  apply StronglySorted_inv in Hs. destruct Hs as [Ht Hf].
  destruct t as [|[s' y'] t'].
  - simpl in Hp. inversion Hp; subst. exact Hmax.
  - rewrite sweep_cons2 in Hp. destruct (Qeq_bool s s') eqn:E.
    + specialize (IH _ _ _ _ Ht Hp). apply Qeq_bool_iff in E.
      constructor; [|exact IH].
      inversion IH as [|? ? Hs' _]; subst. simpl in Hs'.
      apply Qle_trans with s'; [apply Qle_lteq; right; exact E|exact Hs'].
    + inversion Hp; subst. exact Hmax.
Qed.

End Sweep.

(** ** [drop_intermediate] keeps a sub-sequence with both ends *)

Section Drop.

Lemma drop_mid_cons2 a b c l :
  drop_mid a (b :: c :: l)
  = if keep a b c then b :: drop_mid b (c :: l) else drop_mid b (c :: l).
Proof. reflexivity. Qed.

Lemma drop_mid_In l : forall a p, In p (drop_mid a l) -> In p l.
Proof.
  induction l as [|b l IH]; [intros ? ? []|].
  intros a p Hp. destruct l as [|c l]; [exact Hp|].
  rewrite drop_mid_cons2 in Hp. destruct (keep a b c).
  - destruct Hp as [<-|Hp]; [now left|]. right. eapply IH; eassumption.
  - right. eapply IH; eassumption.
Qed.

Lemma drop_intermediate_In l p : In p (drop_intermediate l) -> In p l.
Proof.
  destruct l as [|a l]; [intros []|].
  intros [<-|Hp]; [now left|]. right. eapply drop_mid_In; eassumption.
Qed.

Lemma drop_mid_sorted (R : point -> point -> Prop) l : forall a,
  StronglySorted R l -> StronglySorted R (drop_mid a l).
Proof.
  induction l as [|b l IH]; [constructor|].
  intros a Hs. destruct l as [|c l]; [exact Hs|].
  apply StronglySorted_inv in Hs. destruct Hs as [Hl Hb].
  rewrite drop_mid_cons2. destruct (keep a b c); [|now apply IH].
  constructor; [now apply IH|].
  apply Forall_forall. intros q Hq. apply drop_mid_In in Hq.
  rewrite Forall_forall in Hb. now apply Hb.
Qed.

Lemma drop_intermediate_sorted (R : point -> point -> Prop) l :
  StronglySorted R l -> StronglySorted R (drop_intermediate l).
Proof.
  destruct l as [|a l]; [constructor|]. intros Hs.
  apply StronglySorted_inv in Hs. destruct Hs as [Hl Ha].
  constructor; [now apply drop_mid_sorted|].
  apply Forall_forall. intros q Hq. apply drop_mid_In in Hq.
  rewrite Forall_forall in Ha. now apply Ha.
Qed.

Lemma drop_mid_nonempty l a : l <> [] -> drop_mid a l <> [].
Proof.
  revert a. induction l as [|b l IH]; [congruence|].
  intros a _. destruct l as [|c l]; [discriminate|].
  rewrite drop_mid_cons2. destruct (keep a b c); [discriminate|].
  apply IH. discriminate.
Qed.

Lemma drop_mid_last l : forall a d, last (drop_mid a l) d = last l d.
Proof.
  induction l as [|b l IH]; [reflexivity|].
  intros a d. destruct l as [|c l]; [reflexivity|].
  rewrite drop_mid_cons2.
  change (last (b :: c :: l) d) with (last (c :: l) d).
  destruct (keep a b c); [|apply IH].
  pose proof (drop_mid_nonempty (c :: l) b ltac:(discriminate)) as Hne.
  destruct (drop_mid b (c :: l)) as [|x xs] eqn:E; [congruence|].
  change (last (b :: x :: xs) d) with (last (x :: xs) d).
  rewrite <- E. apply IH.
Qed.

Lemma drop_intermediate_last l d :
  last (drop_intermediate l) d = last l d.
Proof.
  destruct l as [|a l]; [reflexivity|].
  destruct l as [|b l]; [reflexivity|].
  cbn [drop_intermediate].
  pose proof (drop_mid_nonempty (b :: l) a ltac:(discriminate)) as Hne.
  destruct (drop_mid a (b :: l)) as [|x xs] eqn:E; [congruence|].
  change (last (a :: x :: xs) d) with (last (x :: xs) d).
  change (last (a :: b :: l) d) with (last (b :: l) d).
  rewrite <- E. apply drop_mid_last.
Qed.

Lemma drop_intermediate_hd l a t :
  l = a :: t -> exists t', drop_intermediate l = a :: t'.
Proof.
  intros ->. eexists. reflexivity.
Qed.

End Drop.

(** ** Counting labels *)

Section Counting.

Lemma negs_perm l l' : Permutation l l' -> negs l = negs l'.
Proof.
  induction 1 as [|[s y] l l' _ IH|[s y] [s' y'] l|l l' l'' _ IH1 _ IH2].
  - reflexivity.
  - rewrite !negs_cons. now rewrite IH.
  - rewrite !negs_cons. lia.
  - congruence.
Qed.

Lemma poss_perm l l' : Permutation l l' -> poss l = poss l'.
Proof.
  induction 1 as [|[s y] l l' _ IH|[s y] [s' y'] l|l l' l'' _ IH1 _ IH2].
  - reflexivity.
  - rewrite !poss_cons. now rewrite IH.
  - rewrite !poss_cons. lia.
  - congruence.
Qed.

Lemma count_label_cons b y l :
  count_label b (y :: l)
  = ((if Bool.eqb b y then 1 else 0) + count_label b l)%Z.
Proof.
  unfold count_label. cbn [filter].
  destruct (Bool.eqb b y); cbn [List.length]; lia.
Qed.

Lemma negs_combine (y_score : list Q) : forall y_true,
  List.length y_true = List.length y_score ->
  negs (combine y_score y_true) = count_label false y_true.
Proof.
  induction y_score as [|s ss IH]; intros [|y ys] H; try discriminate.
  - reflexivity.
  - cbn [combine]. rewrite negs_cons, count_label_cons, IH
      by (simpl in H; lia).
    destruct y; reflexivity.
Qed.

Lemma poss_combine (y_score : list Q) : forall y_true,
  List.length y_true = List.length y_score ->
  poss (combine y_score y_true) = count_label true y_true.
Proof.
  induction y_score as [|s ss IH]; intros [|y ys] H; try discriminate.
  - reflexivity.
  - cbn [combine]. rewrite poss_cons, count_label_cons, IH
      by (simpl in H; lia).
    destruct y; reflexivity.
Qed.

Lemma count_label_pos b l : In b l <-> (0 < count_label b l)%Z.
Proof.
  induction l as [|y l IH].
  - split; [intros []|]. unfold count_label. simpl. lia.
  - rewrite count_label_cons. split.
    + intros [->|H].
      * rewrite Bool.eqb_reflx. unfold count_label. lia.
      * apply IH in H. destruct (Bool.eqb b y); lia.
    + intros H. destruct (Bool.eqb b y) eqn:E.
      * left. symmetry. now apply Bool.eqb_prop.
      * right. apply IH. lia.
Qed.

Lemma count_label_nonneg b l : (0 <= count_label b l)%Z.
Proof. unfold count_label. lia. Qed.

Lemma map_fst_combine (y_score : list Q) : forall y_true : list bool,
  List.length y_true = List.length y_score ->
  map fst (combine y_score y_true) = y_score.
Proof.
  induction y_score as [|s ss IH]; intros [|y ys] H; try discriminate.
  - reflexivity.
  - cbn [combine map fst]. f_equal. apply IH. simpl in H. lia.
Qed.

End Counting.

(** ** The curve of a valid input *)

Section Curve.

Variables (y_true : list bool) (y_score : list Q).
Hypothesis Hlen : List.length y_true = List.length y_score.
Hypothesis Hne : y_true <> [].

Let l := sorted_desc y_true y_score.
Let pts := roc_points y_true y_score.

Lemma sorted_nonempty : l <> [].
Proof.
  intros E. apply (f_equal (@List.length _)) in E.
  unfold l in E. rewrite sorted_desc_length in E by exact Hlen.
  destruct y_true; [congruence|discriminate].
Qed.

Lemma sorted_scores s : In s (map fst l) <-> In s y_score.
Proof.
  pose proof (Permutation_map fst (sorted_desc_perm y_true y_score)) as P.
  rewrite (map_fst_combine y_score y_true Hlen) in P. fold l in P.
  split; apply Permutation_in; [exact P|apply Permutation_sym, P].
Qed.

Lemma roc_points_nonempty : pts <> [].
Proof.
  unfold pts, roc_points. fold l.
  pose proof (sweep_nonempty l 0%Z 0%Z sorted_nonempty) as H.
  destruct (sweep 0 0 l); [congruence|discriminate].
Qed.

Lemma descending_last_min (m : list sample) d :
  descending m -> m <> [] ->
  Forall (fun q => fst (last m d) <= q) (map fst m).
Proof.
  induction m as [|a m IH]; [congruence|]. intros Hs _.
  apply StronglySorted_inv in Hs. destruct Hs as [Hm Ha].
  destruct m as [|b m].
  - repeat constructor. apply Qle_refl.
  - change (last (a :: b :: m) d) with (last (b :: m) d).
    specialize (IH Hm ltac:(discriminate)).
    constructor; [|exact IH].
    rewrite Forall_forall in Ha. apply Ha.
    destruct (@exists_last _ (b :: m) ltac:(discriminate)) as [m' [x E]].
    rewrite E, last_last. apply in_or_app. right. now left.
Qed.

Lemma roc_points_last d :
  last pts d
  = (count_label false y_true, count_label true y_true, fst (last l (0, true))).
Proof.
  unfold pts, roc_points. fold l.
  rewrite drop_intermediate_last.
  rewrite (sweep_last l 0%Z 0%Z d (0, true) sorted_nonempty).
  unfold l at 1 2.
  rewrite (negs_perm _ _ (sorted_desc_perm y_true y_score)),
    (poss_perm _ _ (sorted_desc_perm y_true y_score)).
  rewrite negs_combine, poss_combine by exact Hlen.
  reflexivity.
Qed.

Lemma roc_points_last_min d :
  Forall (fun s => thr_of (last pts d) <= s) y_score.
Proof.
  rewrite roc_points_last. unfold thr_of. cbn [snd].
  apply Forall_forall. intros s Hs. apply sorted_scores in Hs.
  pose proof (descending_last_min l (0, true)
                (sorted_desc_descending y_true y_score) sorted_nonempty) as H.
  rewrite Forall_forall in H. now apply H.
Qed.

Lemma roc_points_head_max p ps :
  pts = p :: ps -> Forall (fun s => s <= thr_of p) y_score.
Proof.
  unfold pts, roc_points. fold l. intros E.
  destruct (sweep 0 0 l) as [|a t] eqn:Es; [discriminate|].
  cbn [drop_intermediate] in E. injection E as <- _.
  pose proof (sweep_head_max _ 0%Z 0%Z _ _ (sorted_desc_descending y_true y_score) Es) as H.
  apply Forall_forall. intros s Hs. apply sorted_scores in Hs.
  rewrite Forall_forall in H. now apply H.
Qed.

Lemma roc_points_thr_in p : In p pts -> In (thr_of p) y_score.
Proof.
  intros Hp. apply drop_intermediate_In, sweep_thr_in in Hp.
  now apply sorted_scores.
Qed.

Lemma roc_points_thr_desc : StronglySorted thr_gt pts.
Proof.
  apply drop_intermediate_sorted, sweep_thr_desc, sorted_desc_descending.
Qed.

Lemma roc_points_mono : StronglySorted counts_le pts.
Proof.
  apply drop_intermediate_sorted, sweep_mono.
Qed.

Lemma roc_points_nonneg p :
  In p pts -> (0 <= fps_of p)%Z /\ (0 <= tps_of p)%Z.
Proof.
  intros Hp. apply drop_intermediate_In in Hp. now apply sweep_bounds in Hp.
Qed.

Lemma roc_points_le_last p d :
  In p pts -> counts_le p (last pts d).
Proof.
  intros Hp. pose proof roc_points_mono as Hs.
  destruct (exists_last roc_points_nonempty) as [m [x E]].
  rewrite E in *. rewrite last_last.
  apply in_app_or in Hp. destruct Hp as [Hp|[<-|[]]].
  - clear E. induction m as [|a m IH]; [destruct Hp|].
    simpl in Hs. apply StronglySorted_inv in Hs. destruct Hs as [Hm Ha].
    destruct Hp as [<-|Hp]; [|now apply IH].
    rewrite Forall_forall in Ha. apply Ha, in_or_app. right. now left.
  - split; lia.
Qed.

End Curve.

(** ** [argmin] returns the first position of the least value *)

Section Argmin.

Lemma flt_Real x y : flt (Real x) (Real y) = true <-> x < y.
Proof.
  unfold flt. rewrite negb_true_iff. split.
  - intros H. apply Qnot_le_lt. intros C. apply Qle_bool_iff in C. congruence.
  - intros H. destruct (Qle_bool y x) eqn:E; [|reflexivity].
    apply Qle_bool_iff in E. exfalso. eapply Qlt_not_le; eassumption.
Qed.

Lemma flt_Real_false x y : flt (Real x) (Real y) = false <-> y <= x.
Proof.
  unfold flt. rewrite negb_false_iff. apply Qle_bool_iff.
Qed.

Lemma argmin_from_spec qs : forall best bi i,
  (bi < i)%nat ->
  let k := argmin_from (Real best) bi i (map Real qs) in
  (k = bi /\ Forall (fun x => best <= x) qs)
  \/ ((i <= k < i + List.length qs)%nat
      /\ nth (k - i) qs 0 < best
      /\ Forall (fun x => nth (k - i) qs 0 <= x) qs
      /\ forall j, (j < k - i)%nat -> nth (k - i) qs 0 < nth j qs 0).
Proof.
  induction qs as [|x t IH]; intros best bi i Hbi; cbn [map argmin_from].
  - left. split; [reflexivity|constructor].
  - destruct (flt (Real x) (Real best)) eqn:E.
    + apply flt_Real in E. right.
      destruct (IH x i (S i) (Nat.lt_succ_diag_r i)) as [[Hk Hall]|(Hk & Hv & Hall & Hfirst)].
      * rewrite Hk, Nat.sub_diag. cbn [nth List.length].
        repeat split; try lia; try exact E.
        constructor; [apply Qle_refl|exact Hall].
      * set (k := argmin_from (Real x) i (S i) (map Real t)) in *.
        replace (k - i)%nat with (S (k - S i)) by lia. cbn [nth List.length].
        repeat split; try lia.
        -- eapply Qlt_trans; eassumption.
        -- constructor; [now apply Qlt_le_weak|exact Hall].
        -- intros [|j] Hj; cbn [nth]; [exact Hv|]. apply Hfirst. lia.
    + apply flt_Real_false in E.
      destruct (IH best bi (S i) ltac:(lia)) as [[Hk Hall]|(Hk & Hv & Hall & Hfirst)].
      * left. split; [exact Hk|]. constructor; assumption.
      * right. set (k := argmin_from (Real best) bi (S i) (map Real t)) in *.
        replace (k - i)%nat with (S (k - S i)) by lia. cbn [nth List.length].
        repeat split; try lia; try exact Hv.
        -- constructor; [|exact Hall].
           apply Qlt_le_weak. eapply Qlt_le_trans; eassumption.
        -- intros [|j] Hj; cbn [nth]; [|apply Hfirst; lia].
           eapply Qlt_le_trans; eassumption.
Qed.

Lemma argmin_spec qs :
  qs <> [] ->
  let k := argmin (map Real qs) in
  (k < List.length qs)%nat
  /\ (forall j, (j < List.length qs)%nat -> nth k qs 0 <= nth j qs 0)
  /\ (forall j, (j < k)%nat -> nth k qs 0 < nth j qs 0).
Proof.
  destruct qs as [|x t]; [congruence|]. intros _. cbn [map argmin].
  destruct (argmin_from_spec t x 0%nat 1%nat Nat.lt_0_1)
    as [[Hk Hall]|(Hk & Hv & Hall & Hfirst)].
  - rewrite Hk. cbn [nth List.length]. repeat split; try lia.
    intros [|j] Hj; cbn [nth]; [apply Qle_refl|].
    rewrite Forall_forall in Hall. apply Hall, nth_In. simpl in Hj. lia.
  - set (k := argmin_from (Real x) 0 1 (map Real t)) in *.
    replace k with (S (k - 1)) by lia. cbn [nth List.length].
    repeat split; try lia.
    + intros [|j] Hj; cbn [nth]; [now apply Qlt_le_weak|].
      rewrite Forall_forall in Hall. apply Hall, nth_In. simpl in Hj. lia.
    + intros [|j] Hj; cbn [nth]; [exact Hv|]. apply Hfirst. lia.
Qed.

End Argmin.

(** ** [compute_eer] on a valid input *)

Section Valid.

Lemma map2_map_same (A B C D : Type) (f : B -> C -> D) (g : A -> B)
  (h : A -> C) (l : list A) :
  map2 f (map g l) (map h l) = map (fun x => f (g x) (h x)) l.
Proof.
  induction l as [|a l IH]; cbn [map map2]; [reflexivity|now rewrite IH].
Qed.

Lemma nanargmin_Real qs :
  qs <> [] -> nanargmin (map Real qs) = Ok (argmin (map Real qs)).
Proof.
  intros Hne. unfold nanargmin.
  destruct qs as [|x t]; [congruence|].
  cbn [map forallb isnan andb].
  f_equal. f_equal. cbn [replace_nan]. f_equal.
  rewrite map_map. reflexivity.
Qed.

Lemma getitem_map (A B : Type) (f : A -> B) (l : list A) (k : nat) (d : A) :
  (k < List.length l)%nat -> getitem (map f l) k = Ok (f (nth k l d)).
Proof.
  intros Hk. unfold getitem.
  rewrite nth_error_map, (nth_error_nth' l d Hk). reflexivity.
Qed.

Lemma rates_real counts total :
  last counts 0%Z = total -> (0 < total)%Z ->
  rates counts = map (fun c => Real (inject_Z c / inject_Z total)) counts.
Proof.
  intros <- H. unfold rates.
  destruct (Z.leb_spec (last counts 0%Z) 0); [lia|reflexivity].
Qed.

Lemma rates_nan counts :
  (last counts 0 <= 0)%Z -> rates counts = repeat NaN (List.length counts).
Proof.
  intros H. unfold rates.
  destruct (Z.leb_spec (last counts 0%Z) 0); [reflexivity|lia].
Qed.

Lemma last_cons_map (A B : Type) (f : A -> B) (x : B) (l : list A) (d : A) :
  l <> [] -> last (x :: map f l) (f d) = f (last l d).
Proof.
  intros Hne. destruct l as [|a l]; [congruence|].
  change (last (x :: map f (a :: l)) (f d)) with (last (map f (a :: l)) (f d)).
  clear Hne. revert a. induction l as [|b l IH]; intros a; [reflexivity|].
  change (last (map f (a :: b :: l)) (f d)) with (last (map f (b :: l)) (f d)).
  change (last (a :: b :: l) d) with (last (b :: l) d). apply IH.
Qed.

Variables (y_true : list bool) (y_score : list Q).
Hypothesis Hlen : List.length y_true = List.length y_score.

Lemma both_classes_nonempty : both_classes y_true -> y_true <> [].
Proof.
  intros [H _] E. rewrite E in H. destruct H.
Qed.

Lemma curve_last_counts :
  y_true <> [] ->
  last (0%Z :: map fps_of (roc_points y_true y_score)) 0%Z
  = count_label false y_true
  /\ last (0%Z :: map tps_of (roc_points y_true y_score)) 0%Z
     = count_label true y_true.
Proof.
  intros Hne.
  pose proof (roc_points_nonempty y_true y_score Hlen Hne) as Hp.
  pose proof (roc_points_last y_true y_score Hlen Hne (0%Z, 0%Z, 0)) as Hl.
  split.
  - change 0%Z with (fps_of (0%Z, 0%Z, 0)) at 2.
    rewrite last_cons_map by exact Hp. now rewrite Hl.
  - change 0%Z with (tps_of (0%Z, 0%Z, 0)) at 2.
    rewrite last_cons_map by exact Hp. now rewrite Hl.
Qed.

Lemma roc_curve_valid :
  both_classes y_true ->
  roc_curve y_true y_score
  = Ok (map (fun c => Real (fpr_of y_true c)) (curve y_true y_score),
        map (fun c => Real (tpr_of y_true c)) (curve y_true y_score),
        map snd (curve y_true y_score)).
Proof.
  intros Hb. pose proof (both_classes_nonempty Hb) as Hne.
  rewrite roc_curve_points by assumption.
  destruct (curve_last_counts Hne) as [Hf Ht].
  destruct Hb as [Hpos Hneg].
  apply count_label_pos in Hpos, Hneg.
  rewrite (rates_real _ _ Hf Hneg), (rates_real _ _ Ht Hpos).
  unfold curve. cbn [map fst snd]. rewrite !map_map. reflexivity.
Qed.

Lemma curve_length :
  List.length (curve y_true y_score)
  = S (List.length (roc_points y_true y_score)).
Proof.
  unfold curve. cbn [List.length]. now rewrite length_map.
Qed.

Lemma eer_index_spec :
  let g c := gap (fpr_of y_true c) (tpr_of y_true c) in
  let cv := curve y_true y_score in
  let d := (0%Z, 0%Z, PosInf) in
  ((eer_index y_true y_score) < List.length cv)%nat
  /\ (forall j, (j < List.length cv)%nat -> g (nth (eer_index y_true y_score) cv d) <= g (nth j cv d))
  /\ (forall j, (j < (eer_index y_true y_score))%nat -> g (nth (eer_index y_true y_score) cv d) < g (nth j cv d)).
Proof.
  intros g cv d.
  assert (Hne : map g cv <> []) by (unfold cv, curve; discriminate).
  destruct (argmin_spec _ Hne) as (Hk & Hmin & Hfirst).
  fold (eer_index y_true y_score) in Hk, Hmin, Hfirst. rewrite length_map in Hk, Hmin.
  assert (E : forall j, (j < List.length cv)%nat ->
                        nth j (map g cv) 0 = g (nth j cv d)).
  { intros j Hj. rewrite (nth_indep _ 0 (g d)) by now rewrite length_map.
    apply map_nth. }
  split; [exact Hk|]. split.
  - intros j Hj. rewrite <- (E (eer_index y_true y_score) Hk), <- (E j Hj). now apply Hmin.
  - intros j Hj.
    rewrite <- (E (eer_index y_true y_score) Hk), <- (E j (Nat.lt_trans _ _ _ Hj Hk)).
    now apply Hfirst.
Qed.

Lemma compute_eer_valid :
  both_classes y_true ->
  let c := nth (eer_index y_true y_score) (curve y_true y_score) (0%Z, 0%Z, PosInf) in
  compute_eer y_true y_score
  = Ok (Real (avg_err (fpr_of y_true c) (tpr_of y_true c)), snd c).
Proof.
  intros Hb c. unfold compute_eer.
  rewrite roc_curve_valid by assumption. cbn [bind].
  rewrite map_map, map2_map_same, map_map. cbn [fsub fabs].
  change (map (fun x => Real (Qabs (fpr_of y_true x - (1 - tpr_of y_true x))))
              (curve y_true y_score))
    with (map (fun x => Real (gap (fpr_of y_true x) (tpr_of y_true x)))
              (curve y_true y_score)).
  rewrite <- (map_map (fun x => gap (fpr_of y_true x) (tpr_of y_true x)) Real).
  rewrite nanargmin_Real by (unfold curve; discriminate).
  cbn [bind]. fold (eer_index y_true y_score).
  destruct eer_index_spec as (Hk & _).
  rewrite !(getitem_map _ _ _ _ _ (0%Z, 0%Z, PosInf) Hk). cbn [bind].
  reflexivity.
Qed.

End Valid.

(** ** Rates lie between 0 and 1 *)

Section Rates.

Lemma rate_bounds (a n : Z) :
  (0 <= a <= n)%Z -> (0 < n)%Z -> 0 <= inject_Z a / inject_Z n <= 1.
Proof.
  intros [Ha Han] Hn.
  assert (Hq : 0 < inject_Z n) by (change 0 with (inject_Z 0); now rewrite <- Zlt_Qlt).
  split.
  - apply Qle_shift_div_l; [exact Hq|]. rewrite Qmult_0_l.
    change 0 with (inject_Z 0). now rewrite <- Zle_Qle.
  - apply Qle_shift_div_r; [exact Hq|]. rewrite Qmult_1_l.
    now rewrite <- Zle_Qle.
Qed.

Lemma rate_mono (a b n : Z) :
  (a <= b)%Z -> (0 < n)%Z -> inject_Z a / inject_Z n <= inject_Z b / inject_Z n.
Proof.
  intros Hab Hn.
  assert (Hq : 0 < inject_Z n) by (change 0 with (inject_Z 0); now rewrite <- Zlt_Qlt).
  apply Qle_shift_div_r; [exact Hq|].
  unfold Qdiv. rewrite <- Qmult_assoc, (Qmult_comm (/ inject_Z n)),
    Qmult_inv_r, Qmult_1_r.
  - now rewrite <- Zle_Qle.
  - intros E. rewrite E in Hq. discriminate.
Qed.

Lemma rate_full (n : Z) : (0 < n)%Z -> inject_Z n / inject_Z n == 1.
Proof.
  intros Hn. unfold Qdiv. apply Qmult_inv_r.
  intros E.
  assert (Hq : 0 < inject_Z n) by (change 0 with (inject_Z 0); now rewrite <- Zlt_Qlt).
  rewrite E in Hq. discriminate.
Qed.

Lemma rate_zero (n : Z) : inject_Z 0 / inject_Z n == 0.
Proof.
  unfold Qdiv. apply Qmult_0_l.
Qed.

Variables (y_true : list bool) (y_score : list Q).
Hypothesis Hlen : List.length y_true = List.length y_score.
Hypothesis Hboth : both_classes y_true.

Lemma curve_counts c :
  In c (curve y_true y_score) ->
  (0 <= fst (fst c) <= count_label false y_true)%Z
  /\ (0 <= snd (fst c) <= count_label true y_true)%Z.
Proof.
  pose proof (both_classes_nonempty _ Hboth) as Hne.
  unfold curve. intros [<-|Hc].
  - cbn [fst snd]. pose proof (count_label_nonneg false y_true).
    pose proof (count_label_nonneg true y_true). lia.
  - apply in_map_iff in Hc. destruct Hc as (p & <- & Hp). cbn [fst snd].
    pose proof (roc_points_nonneg y_true y_score p Hp) as [H1 H2].
    pose proof (roc_points_le_last y_true y_score Hlen Hne p (0%Z, 0%Z, 0) Hp)
      as [H3 H4].
    rewrite (roc_points_last y_true y_score Hlen Hne) in H3, H4.
    unfold fps_of, tps_of in *. cbn [fst snd] in *. lia.
Qed.

Lemma curve_rates c :
  In c (curve y_true y_score) ->
  0 <= fpr_of y_true c <= 1 /\ 0 <= tpr_of y_true c <= 1.
Proof.
  intros Hc. apply curve_counts in Hc. destruct Hc as [Hf Ht].
  destruct Hboth as [Hpos Hneg]. apply count_label_pos in Hpos, Hneg.
  split; apply rate_bounds; assumption.
Qed.

End Rates.

(** ** [compute_eer] when one class is missing *)

Section OneClass.

Lemma one_class_not_both y_true : one_class y_true <-> ~ both_classes y_true.
Proof.
  split.
  - intros H [Ht Hf]. specialize (H _ _ Ht Hf). discriminate.
  - intros H a b Ha Hb. destruct a, b; try reflexivity;
      exfalso; apply H; split; assumption.
Qed.

Lemma rates_length counts : List.length (rates counts) = List.length counts.
Proof.
  unfold rates. destruct (last counts 0 <=? 0)%Z.
  - apply repeat_length.
  - apply length_map.
Qed.

Lemma map2_fsub_nan_l n : forall b,
  List.length b = n -> map2 fsub (repeat NaN n) b = repeat NaN n.
Proof.
  induction n as [|n IH]; intros [|x b] H; try discriminate; [reflexivity|].
  cbn [repeat map2 fsub]. f_equal. apply IH. simpl in H. lia.
Qed.

Lemma map2_fsub_nan_r n : forall a,
  List.length a = n -> map2 fsub a (repeat NaN n) = repeat NaN n.
Proof.
  induction n as [|n IH]; intros [|x a] H; try discriminate; [reflexivity|].
  cbn [repeat map2]. f_equal; [now destruct x|]. apply IH. simpl in H. lia.
Qed.

Lemma map_nan (f : npfloat -> npfloat) n :
  f NaN = NaN -> map f (repeat NaN n) = repeat NaN n.
Proof.
  intros H. induction n as [|n IH]; [reflexivity|].
  cbn [repeat map]. now rewrite H, IH.
Qed.

Lemma nanargmin_nan n :
  nanargmin (repeat NaN (S n)) = Raise (ValueError "All-NaN slice encountered").
Proof.
  unfold nanargmin. cbn [repeat].
  replace (forallb isnan (NaN :: repeat NaN n)) with true; [reflexivity|].
  symmetry. apply forallb_forall. intros x [<-|Hx]; [reflexivity|].
  apply repeat_spec in Hx. now subst.
Qed.

Lemma compute_eer_one_class y_true y_score :
  List.length y_true = List.length y_score -> y_true <> [] ->
  ~ both_classes y_true ->
  compute_eer y_true y_score = Raise (ValueError "All-NaN slice encountered").
Proof.
  intros Hlen Hne Hnb. unfold compute_eer.
  rewrite roc_curve_points by assumption. cbn [bind].
  destruct (curve_last_counts y_true y_score Hlen Hne) as [Hf Ht].
  set (cf := 0%Z :: map fps_of (roc_points y_true y_score)) in *.
  set (ct := 0%Z :: map tps_of (roc_points y_true y_score)) in *.
  assert (Hcf : List.length cf = S (List.length (roc_points y_true y_score)))
    by (unfold cf; cbn [List.length]; now rewrite length_map).
  assert (Hct : List.length ct = S (List.length (roc_points y_true y_score)))
    by (unfold ct; cbn [List.length]; now rewrite length_map).
  assert (Hall : map fabs (map2 fsub (rates cf) (map (fsub (Real 1)) (rates ct)))
                 = repeat NaN (S (List.length (roc_points y_true y_score)))).
  { destruct (Z.leb_spec (count_label false y_true) 0) as [Hn|Hn].
    - rewrite (rates_nan cf) by now rewrite Hf.
      rewrite Hcf, map2_fsub_nan_l; [now apply map_nan|].
      now rewrite length_map, rates_length.
    - destruct (Z.leb_spec (count_label true y_true) 0) as [Hp|Hp].
      + rewrite (rates_nan ct) by now rewrite Ht.
        rewrite Hct, (map_nan (fsub (Real 1))) by reflexivity.
        rewrite map2_fsub_nan_r; [now apply map_nan|].
        now rewrite rates_length.
      + exfalso. apply Hnb. split; now apply count_label_pos. }
  rewrite Hall, nanargmin_nan. reflexivity.
Qed.

End OneClass.

(** ** Identical scores *)

Section Identical.

Lemma sweep_identical l : forall fp tp d,
  l <> [] -> identical_scores (map fst l) ->
  sweep fp tp l = [((fp + negs l)%Z, (tp + poss l)%Z, fst (last l d))].
Proof.
  induction l as [|[s y] t IH]; [congruence|].
  intros fp tp d _ Hid. destruct t as [|[s' y'] t'].
  - cbn [sweep last fst]. rewrite negs_cons, poss_cons.
    change (negs []) with 0%Z. change (poss []) with 0%Z.
    do 3 f_equal; lia.
  - rewrite sweep_cons2.
    assert (E : Qeq_bool s s' = true).
    { apply Qeq_bool_iff. apply Hid; cbn [map fst]; auto using in_eq, in_cons. }
    rewrite E, (IH _ _ d) by
      (try discriminate; intros a b Ha Hb; apply Hid; now right).
    rewrite (negs_cons s y), (poss_cons s y).
    change (last ((s, y) :: (s', y') :: t') d) with (last ((s', y') :: t') d).
    do 3 f_equal; lia.
Qed.

Variables (y_true : list bool) (y_score : list Q).
Hypothesis Hlen : List.length y_true = List.length y_score.
Hypothesis Hboth : both_classes y_true.
Hypothesis Hid : identical_scores y_score.

Lemma identical_curve :
  exists s, In s y_score
    /\ curve y_true y_score
       = [(0%Z, 0%Z, PosInf);
          (count_label false y_true, count_label true y_true, Real s)].
Proof.
  pose proof (both_classes_nonempty _ Hboth) as Hne.
  pose proof (sorted_nonempty y_true y_score Hlen Hne) as Hl.
  set (l := sorted_desc y_true y_score) in *.
  assert (Hidl : identical_scores (map fst l)).
  { intros a b Ha Hb. apply Hid; now apply (sorted_scores y_true y_score Hlen). }
  exists (fst (last l (0, true))). split.
  - apply (sorted_scores y_true y_score Hlen). fold l.
    apply in_map. destruct (exists_last Hl) as [m [x E]].
    rewrite E, last_last. apply in_or_app. right. now left.
  - unfold curve, roc_points. fold l.
    rewrite (sweep_identical l 0%Z 0%Z (0, true) Hl Hidl).
    unfold l at 1 2.
    rewrite (negs_perm _ _ (sorted_desc_perm y_true y_score)),
      (poss_perm _ _ (sorted_desc_perm y_true y_score)).
    rewrite negs_combine, poss_combine by exact Hlen.
    reflexivity.
Qed.

Lemma identical_rates :
  let N := count_label false y_true in
  let P := count_label true y_true in
  inject_Z 0 / inject_Z N == 0 /\ inject_Z 0 / inject_Z P == 0
  /\ inject_Z N / inject_Z N == 1 /\ inject_Z P / inject_Z P == 1.
Proof.
  destruct Hboth as [Hpos Hneg]. apply count_label_pos in Hpos, Hneg.
  repeat split; try apply rate_zero; now apply rate_full.
Qed.

Lemma identical_eer_index : eer_index y_true y_score = 0%nat.
Proof.
  unfold eer_index. destruct identical_curve as (s & _ & ->).
  cbn [map argmin argmin_from].
  replace (flt _ _) with false; [reflexivity|].
  symmetry. apply flt_Real_false.
  unfold gap, fpr_of, tpr_of. cbn [fst snd].
  destruct identical_rates as (E1 & E2 & E3 & E4).
  rewrite E1, E2, E3, E4. vm_compute. discriminate.
Qed.

Lemma identical_compute_eer :
  compute_eer y_true y_score
  = Ok (Real (avg_err (inject_Z 0 / inject_Z (count_label false y_true))
                      (inject_Z 0 / inject_Z (count_label true y_true))),
        PosInf).
Proof.
  rewrite compute_eer_valid by assumption.
  rewrite identical_eer_index. reflexivity.
Qed.

End Identical.

(** ** Strictly increasing transforms of the scores *)

Section Monotone.

Variable f : Q -> Q.
Hypothesis f_proper : Proper (Qeq ==> Qeq) f.
Hypothesis f_incr : strictly_increasing f.

Lemma f_le x y : x <= y -> f x <= f y.
Proof.
  intros H. apply Qle_lteq in H. destruct H as [H|H].
  - apply Qlt_le_weak. now apply f_incr.
  - rewrite H. apply Qle_refl.
Qed.

Lemma Qle_bool_f x y : Qle_bool (f x) (f y) = Qle_bool x y.
Proof.
  destruct (Qle_bool x y) eqn:E.
  - apply Qle_bool_iff. apply f_le. now apply Qle_bool_iff.
  - destruct (Qle_bool (f x) (f y)) eqn:E'; [|reflexivity].
    apply Qle_bool_iff in E'.
    assert (H : y < x).
    { apply Qnot_le_lt. intros C. apply Qle_bool_iff in C. congruence. }
    apply f_incr in H. exfalso. eapply Qlt_not_le; eassumption.
Qed.

Lemma Qeq_bool_f x y : Qeq_bool (f x) (f y) = Qeq_bool x y.
Proof.
  destruct (Qeq_bool x y) eqn:E.
  - apply Qeq_bool_iff. apply Qeq_bool_iff in E. now rewrite E.
  - destruct (Qeq_bool (f x) (f y)) eqn:E'; [|reflexivity].
    apply Qeq_bool_iff in E'.
    assert (Hxy : x <= y).
    { rewrite <- Qle_bool_iff, <- Qle_bool_f, Qle_bool_iff, E'. apply Qle_refl. }
    assert (Hyx : y <= x).
    { rewrite <- Qle_bool_iff, <- Qle_bool_f, Qle_bool_iff, E'. apply Qle_refl. }
    pose proof (Qle_antisym _ _ Hxy Hyx) as H.
    apply Qeq_bool_iff in H. congruence.
Qed.

Lemma insert_by_score_map x l :
  insert_by_score (f (fst x), snd x) (map_score f l)
  = map_score f (insert_by_score x l).
Proof.
  induction l as [|y l IH]; [reflexivity|].
  cbn [map_score map insert_by_score fst]. rewrite Qle_bool_f.
  destruct (Qle_bool (fst x) (fst y)); [reflexivity|].
  cbn [map]. f_equal. exact IH.
Qed.

Lemma argsort_map l :
  argsort_mergesort (map_score f l) = map_score f (argsort_mergesort l).
Proof.
  induction l as [|x l IH]; [reflexivity|].
  cbn [map_score map argsort_mergesort fold_right].
  fold (map_score f l). fold (argsort_mergesort (map_score f l)).
  fold (argsort_mergesort l). rewrite IH. apply insert_by_score_map.
Qed.

Lemma combine_map (y_score : list Q) : forall y_true : list bool,
  combine (map f y_score) y_true = map_score f (combine y_score y_true).
Proof.
  induction y_score as [|s ss IH]; intros [|y ys]; try reflexivity.
  cbn [map combine map_score fst snd]. f_equal. apply IH.
Qed.

Lemma sorted_desc_map y_true y_score :
  sorted_desc y_true (map f y_score)
  = map_score f (sorted_desc y_true y_score).
Proof.
  unfold sorted_desc. rewrite combine_map, argsort_map.
  unfold map_score. now rewrite map_rev.
Qed.

Lemma sweep_map l : forall fp tp,
  sweep fp tp (map_score f l) = map_thr f (sweep fp tp l).
Proof.
  induction l as [|[s y] t IH]; [reflexivity|]. intros fp tp.
  destruct t as [|[s' y'] t'].
  - reflexivity.
  - cbn [map_score map fst snd]. rewrite !sweep_cons2, Qeq_bool_f.
    specialize (IH (fp + (if y then 0 else 1))%Z (tp + (if y then 1 else 0))%Z).
    cbn [map_score map fst snd] in IH. rewrite IH.
    destruct (Qeq_bool s s'); reflexivity.
Qed.

Lemma drop_mid_map l : forall a,
  drop_mid (fst a, f (snd a)) (map_thr f l) = map_thr f (drop_mid a l).
Proof.
  induction l as [|b l IH]; [reflexivity|]. intros a.
  destruct l as [|c l]; [reflexivity|].
  cbn [map_thr map]. rewrite !drop_mid_cons2.
  specialize (IH b). cbn [map_thr map] in IH. rewrite IH.
  change (keep (fst a, f (snd a)) (fst b, f (snd b)) (fst c, f (snd c)))
    with (keep a b c).
  destruct (keep a b c); reflexivity.
Qed.

Lemma drop_intermediate_map l :
  drop_intermediate (map_thr f l) = map_thr f (drop_intermediate l).
Proof.
  destruct l as [|a l]; [reflexivity|].
  cbn [map_thr map drop_intermediate]. f_equal. apply drop_mid_map.
Qed.

Lemma roc_points_map y_true y_score :
  roc_points y_true (map f y_score) = map_thr f (roc_points y_true y_score).
Proof.
  unfold roc_points. now rewrite sorted_desc_map, sweep_map, drop_intermediate_map.
Qed.

Lemma curve_map y_true y_score :
  curve y_true (map f y_score)
  = map (fun c => (fst c, on_threshold f (snd c))) (curve y_true y_score).
Proof.
  unfold curve. rewrite roc_points_map. unfold map_thr.
  cbn [map fst snd on_threshold]. f_equal. rewrite !map_map. reflexivity.
Qed.

Lemma eer_index_map y_true y_score :
  eer_index y_true (map f y_score) = eer_index y_true y_score.
Proof.
  unfold eer_index. rewrite curve_map, !map_map. reflexivity.
Qed.

End Monotone.

(** ** Perfectly separated scores *)

Section Separable.

Lemma descending_app_l l1 l2 : descending (l1 ++ l2) -> descending l1.
Proof.
  unfold descending. induction l1 as [|a l1 IH]; intros H; [constructor|].
  cbn [app] in H. apply StronglySorted_inv in H. destruct H as [Hl Ha].
  constructor; [now apply IH|].
  apply Forall_app in Ha. tauto.
Qed.

Lemma separable_split l :
  descending l -> separable l ->
  exists G F, l = G ++ F
    /\ Forall (fun p : Q * bool => snd p = true) G
    /\ Forall (fun p : Q * bool => snd p = false) F.
Proof.
  induction l as [|[s y] t IH]; intros Hs Hsep.
  - exists [], []. repeat split; constructor.
  - pose proof Hs as Hs0.
    apply StronglySorted_inv in Hs. destruct Hs as [Ht Hf].
    destruct y.
    + destruct (IH Ht) as (G & F & -> & HG & HF).
      { intros g b Hg Hb. apply Hsep; now right. }
      exists ((s, true) :: G), F. repeat split; [|exact HF].
      constructor; [reflexivity|exact HG].
    + exists [], ((s, false) :: t). repeat split; [constructor|].
      constructor; [reflexivity|].
      apply Forall_forall. intros [g y] Hg. destruct y; [|reflexivity].
      exfalso. rewrite Forall_forall in Hf. specialize (Hf _ Hg).
      cbn [fst] in Hf.
      assert (H : s < g) by (apply Hsep; [now right|now left]).
      eapply Qlt_not_le; eassumption.
Qed.

Lemma poss_all_false F :
  Forall (fun p : Q * bool => snd p = false) F -> poss F = 0%Z.
Proof.
  induction 1 as [|[s y] F Hy _ IH]; [reflexivity|].
  cbn [snd] in Hy. subst y. now rewrite poss_cons, IH.
Qed.

Lemma negs_all_true G :
  Forall (fun p : Q * bool => snd p = true) G -> negs G = 0%Z.
Proof.
  induction 1 as [|[s y] G Hy _ IH]; [reflexivity|].
  cbn [snd] in Hy. subst y. now rewrite negs_cons, IH.
Qed.

Lemma negs_app l1 l2 : negs (l1 ++ l2) = (negs l1 + negs l2)%Z.
Proof.
  induction l1 as [|[s y] l1 IH]; [reflexivity|].
  cbn [app]. rewrite !negs_cons, IH. lia.
Qed.

Lemma poss_app l1 l2 : poss (l1 ++ l2) = (poss l1 + poss l2)%Z.
Proof.
  induction l1 as [|[s y] l1 IH]; [reflexivity|].
  cbn [app]. rewrite !poss_cons, IH. lia.
Qed.

Lemma sweep_app l1 : forall l2 fp tp d,
  l1 <> [] -> l2 <> [] ->
  Qeq_bool (fst (last l1 d)) (fst (hd d l2)) = false ->
  sweep fp tp (l1 ++ l2)
  = sweep fp tp l1 ++ sweep (fp + negs l1) (tp + poss l1) l2.
Proof.
  induction l1 as [|[s y] t IH]; [congruence|].
  intros l2 fp tp d _ Hl2 Hq. destruct t as [|[s' y'] t'].
  - destruct l2 as [|[s2 y2] l2]; [congruence|].
    cbn [app last hd fst] in *. rewrite sweep_cons2, Hq.
    cbn [sweep app]. rewrite negs_cons, poss_cons.
    change (negs []) with 0%Z. change (poss []) with 0%Z.
    rewrite !Z.add_0_r. reflexivity.
  - change (last ((s, y) :: (s', y') :: t') d) with (last ((s', y') :: t') d) in Hq.
    cbn [app]. rewrite !sweep_cons2.
    specialize (IH l2 (fp + (if y then 0 else 1))%Z
                  (tp + (if y then 1 else 0))%Z d ltac:(discriminate) Hl2 Hq).
    cbn [app] in IH. rewrite IH.
    rewrite (negs_cons s y), (poss_cons s y), !Z.add_assoc.
    destruct (Qeq_bool s s'); reflexivity.
Qed.

Lemma sweep_true G : forall fp tp,
  Forall (fun p : Q * bool => snd p = true) G ->
  StronglySorted (fun p q : Z * Z * Q => (tps_of p < tps_of q)%Z) (sweep fp tp G)
  /\ Forall (fun q : Z * Z * Q => (tp < tps_of q)%Z /\ fps_of q = fp)
            (sweep fp tp G).
Proof.
  induction G as [|[s y] t IH]; intros fp tp HG.
  - split; constructor.
  - inversion HG as [|? ? Hy Ht]; subst. cbn [snd] in Hy. subst y.
    destruct (IH fp (tp + 1)%Z Ht) as [IH1 IH2].
    assert (IH2' : Forall (fun q : Z * Z * Q => (tp < tps_of q)%Z /\ fps_of q = fp)
                          (sweep fp (tp + 1) t)).
    { eapply Forall_impl; [|exact IH2]. cbn beta. intros q [H1 H2].
      split; [lia|exact H2]. }
    destruct t as [|[s' y'] t'].
    + cbn [sweep]. split; repeat constructor; unfold tps_of, fps_of; cbn [fst snd]; lia.
    + rewrite sweep_cons2. rewrite !Z.add_0_r.
      destruct (Qeq_bool s s'); [split; assumption|].
      split.
      * constructor; [exact IH1|].
        eapply Forall_impl; [|exact IH2]. cbn beta. intros q [H1 _].
        unfold tps_of at 1. cbn [fst snd]. exact H1.
      * constructor; [|exact IH2'].
        unfold tps_of, fps_of; cbn [fst snd]. split; lia.
Qed.

Lemma sweep_false F : forall fp tp,
  Forall (fun p : Q * bool => snd p = false) F ->
  Forall (fun q : Z * Z * Q => tps_of q = tp /\ (fp < fps_of q)%Z)
         (sweep fp tp F).
Proof.
  induction F as [|[s y] t IH]; intros fp tp HF; [constructor|].
  inversion HF as [|? ? Hy Ht]; subst. cbn [snd] in Hy. subst y.
  specialize (IH (fp + 1)%Z tp Ht).
  assert (IH' : Forall (fun q : Z * Z * Q => tps_of q = tp /\ (fp < fps_of q)%Z)
                       (sweep (fp + 1) tp t)).
  { eapply Forall_impl; [|exact IH]. cbn beta. intros q [H1 H2].
    split; [exact H1|lia]. }
  destruct t as [|[s' y'] t'].
  - cbn [sweep]. repeat constructor; unfold tps_of, fps_of; cbn [fst snd]; lia.
  - rewrite sweep_cons2, !Z.add_0_r.
    destruct (Qeq_bool s s'); [exact IH'|].
    constructor; [|exact IH'].
    unfold tps_of, fps_of; cbn [fst snd]. split; lia.
Qed.

Lemma drop_mid_step prev a Y :
  Y <> [] ->
  drop_mid prev (a :: Y) = a :: drop_mid a Y
  \/ drop_mid prev (a :: Y) = drop_mid a Y.
Proof.
  destruct Y as [|c Y]; [congruence|]. intros _.
  rewrite drop_mid_cons2. destruct (keep prev a c); [now left|now right].
Qed.

(** A point at which the false-positive count starts to grow is kept. *)
Lemma drop_mid_corner A : forall prev p b B,
  Forall (fun a => fps_of a = fps_of p) (prev :: A) ->
  (fps_of p < fps_of b)%Z ->
  exists A', drop_mid prev (A ++ p :: b :: B) = A' ++ p :: drop_mid p (b :: B)
             /\ incl A' A.
Proof.
  induction A as [|a A IH]; intros prev p b B Hall Hlt.
  - exists []. split; [|apply incl_refl].
    cbn [app]. rewrite drop_mid_cons2.
    inversion Hall as [|? ? Hprev _]; subst.
    unfold keep, nonzero. rewrite Hprev.
    destruct (Z.eqb_spec (fps_of b - fps_of p - (fps_of p - fps_of p)) 0); [lia|].
    reflexivity.
  - inversion Hall as [|? ? Hprev Hall']; subst.
    destruct (IH a p b B Hall' Hlt) as (A' & E & Hincl).
    cbn [app].
    destruct (drop_mid_step prev a (A ++ p :: b :: B)) as [H|H].
    + destruct A; discriminate.
    + exists (a :: A'). rewrite H, E. split; [reflexivity|].
      intros x [<-|Hx]; [now left|right; now apply Hincl].
    + exists A'. rewrite H, E. split; [reflexivity|].
      intros x Hx. right. now apply Hincl.
Qed.

Lemma drop_intermediate_corner A p b B :
  Forall (fun a => fps_of a = fps_of p) A ->
  (fps_of p < fps_of b)%Z ->
  exists A' B',
    drop_intermediate (A ++ p :: b :: B) = A' ++ p :: B'
    /\ incl A' A /\ B' <> [].
Proof.
  intros Hall Hlt. destruct A as [|a A].
  - exists [], (drop_mid p (b :: B)). cbn [app drop_intermediate].
    repeat split; [apply incl_refl|]. apply drop_mid_nonempty. discriminate.
  - destruct (drop_mid_corner A a p b B Hall Hlt) as (A' & E & Hincl).
    exists (a :: A'), (drop_mid p (b :: B)).
    cbn [app drop_intermediate]. rewrite E. repeat split.
    + intros x [<-|Hx]; [now left|right; now apply Hincl].
    + apply drop_mid_nonempty. discriminate.
Qed.

Lemma gap_nonneg f t : 0 <= gap f t.
Proof. apply Qabs_nonneg. Qed.

(** The first point at which the two error rates meet is the one
    selected. *)
Lemma eer_index_first_zero y_true y_score pre z post :
  curve y_true y_score = pre ++ z :: post ->
  gap (fpr_of y_true z) (tpr_of y_true z) == 0 ->
  Forall (fun c => 0 < gap (fpr_of y_true c) (tpr_of y_true c)) pre ->
  eer_index y_true y_score = List.length pre.
Proof.
  intros Hc Hz Hpre.
  destruct (eer_index_spec y_true y_score) as (Hk & Hmin & Hfirst).
  cbv zeta in Hk, Hmin, Hfirst. rewrite Hc in Hk, Hmin, Hfirst.
  set (k := eer_index y_true y_score) in *.
  set (g := fun c => gap (fpr_of y_true c) (tpr_of y_true c)) in *.
  set (d := (0%Z, 0%Z, PosInf)) in *.
  assert (Hj0 : (List.length pre < List.length (pre ++ z :: post))%nat)
    by (rewrite length_app; simpl; lia).
  assert (Ez : nth (List.length pre) (pre ++ z :: post) d = z)
    by apply nth_middle.
  destruct (Nat.lt_trichotomy k (List.length pre)) as [Hlt|[Heq|Hgt]].
  - exfalso. specialize (Hmin _ Hj0). rewrite Ez in Hmin.
    rewrite app_nth1 in Hmin by exact Hlt.
    rewrite Forall_forall in Hpre.
    specialize (Hpre (nth k pre d) (nth_In _ _ Hlt)). fold g in Hpre, Hz.
    cbn beta in Hpre. rewrite Hz in Hmin.
    eapply Qlt_not_le; eassumption.
  - exact Heq.
  - exfalso. specialize (Hfirst _ Hgt). rewrite Ez in Hfirst.
    fold g in Hz. rewrite Hz in Hfirst.
    eapply Qlt_not_le; [exact Hfirst|]. apply gap_nonneg.
Qed.

Lemma StronglySorted_snoc_inv (A : Type) (R : A -> A -> Prop) (l : list A)
  (x : A) :
  StronglySorted R (l ++ [x]) -> Forall (fun a => R a x) l.
Proof.
  induction l as [|a l IH]; intros H; [constructor|].
  cbn [app] in H. apply StronglySorted_inv in H. destruct H as [Hl Ha].
  constructor; [|now apply IH].
  rewrite Forall_forall in Ha. apply Ha, in_or_app. right. now left.
Qed.

Lemma rate_lt_one (t n : Z) :
  (t < n)%Z -> (0 < n)%Z -> inject_Z t / inject_Z n < 1.
Proof.
  intros Ht Hn.
  assert (Hq : 0 < inject_Z n) by (change 0 with (inject_Z 0); now rewrite <- Zlt_Qlt).
  apply Qlt_shift_div_r; [exact Hq|]. rewrite Qmult_1_l.
  now rewrite <- Zlt_Qlt.
Qed.

Variables (y_true : list bool) (y_score : list Q).
Hypothesis Hlen : List.length y_true = List.length y_score.
Hypothesis Hboth : both_classes y_true.
Hypothesis Hsep : separable (combine y_score y_true).

Lemma separable_curve :
  exists A B g,
    curve y_true y_score
    = ((0%Z, 0%Z, PosInf)
       :: map (fun p : Z * Z * Q => (fps_of p, tps_of p, Real (thr_of p))) A)
      ++ (0%Z, count_label true y_true, Real g)
      :: map (fun p : Z * Z * Q => (fps_of p, tps_of p, Real (thr_of p))) B
    /\ Forall (fun a : Z * Z * Q =>
                 fps_of a = 0%Z /\ (tps_of a < count_label true y_true)%Z) A
    /\ In (g, true) (combine y_score y_true)
    /\ (forall g', In (g', true) (combine y_score y_true) -> g <= g').
Proof.
  pose proof (both_classes_nonempty _ Hboth) as Hne.
  pose proof (sorted_desc_descending y_true y_score) as Hdesc.
  pose proof (sorted_desc_perm y_true y_score) as Hperm.
  pose proof (negs_perm _ _ Hperm) as HN. pose proof (poss_perm _ _ Hperm) as HP.
  rewrite negs_combine in HN by exact Hlen.
  rewrite poss_combine in HP by exact Hlen.
  destruct Hboth as [Hpos Hneg]. apply count_label_pos in Hpos, Hneg.
  unfold curve, roc_points.
  set (l := sorted_desc y_true y_score) in *.
  assert (Hsepl : separable l).
  { intros g b Hg Hb. apply Hsep; eapply Permutation_in; eassumption. }
  destruct (separable_split l Hdesc Hsepl) as (G & F & El & HG & HF).
  rewrite El in *. rewrite negs_app, (negs_all_true G HG) in HN.
  rewrite poss_app, (poss_all_false F HF) in HP.
  assert (HGne : G <> []) by (intros ->; change (poss []) with 0%Z in HP; lia).
  assert (HFne : F <> []) by (intros ->; change (negs []) with 0%Z in HN; lia).
  set (d := (0, true) : Q * bool).
  assert (HlastG : In (last G d) G).
  { destruct (exists_last HGne) as [m [x E]]. rewrite E, last_last.
    apply in_or_app. right. now left. }
  assert (HlastT : snd (last G d) = true).
  { rewrite Forall_forall in HG. now apply HG. }
  assert (Hq : Qeq_bool (fst (last G d)) (fst (hd d F)) = false).
  { destruct F as [|[b yb] F']; [congruence|]. cbn [hd fst].
    inversion HF as [|? ? Hyb _]; subst. cbn [snd] in Hyb. subst yb.
    assert (H : b < fst (last G d)).
    { apply Hsepl.
      - apply in_or_app. left. rewrite <- HlastT, <- surjective_pairing.
        exact HlastG.
      - apply in_or_app. right. now left. }
    destruct (Qeq_bool (fst (last G d)) b) eqn:E; [|reflexivity].
    apply Qeq_bool_iff in E. rewrite E in H. exfalso.
    eapply Qlt_irrefl; eassumption. }
  rewrite (sweep_app G F 0%Z 0%Z d HGne HFne Hq).
  rewrite (negs_all_true G HG). cbn [Z.add].
  replace (poss G) with (count_label true y_true) by lia.
  destruct (sweep_true G 0%Z 0%Z HG) as [HsG HfG].
  destruct (exists_last (sweep_nonempty G 0%Z 0%Z HGne)) as [A [p EA]].
  pose proof (sweep_last G 0%Z 0%Z (0%Z, 0%Z, 0) d HGne) as Hp.
  rewrite EA, last_last, (negs_all_true G HG) in Hp. cbn [Z.add] in Hp.
  replace (poss G) with (count_label true y_true) in Hp by lia.
  rewrite EA in HsG, HfG |- *.
  pose proof (sweep_false F 0%Z (count_label true y_true) HF) as HfF.
  destruct (sweep 0 (count_label true y_true) F) as [|b B] eqn:EF.
  { exfalso. revert EF. now apply sweep_nonempty. }
  rewrite <- app_assoc. cbn [app].
  assert (HA : Forall (fun a : Z * Z * Q => fps_of a = fps_of p) A).
  { apply Forall_app in HfG. destruct HfG as [HfA _].
    eapply Forall_impl; [|exact HfA]. cbn beta. intros a [_ Ha].
    rewrite Ha, Hp. reflexivity. }
  assert (Hb : (fps_of p < fps_of b)%Z).
  { destruct (Forall_inv HfF) as [_ Hb]. rewrite Hp. exact Hb. }
  destruct (drop_intermediate_corner A p b B HA Hb) as (A' & B' & E & Hincl & _).
  rewrite E, map_app. cbn [map].
  exists A', B', (fst (last G d)). repeat apply conj.
  - rewrite Hp. reflexivity.
  - apply Forall_forall. intros a Ha. apply Hincl in Ha.
    pose proof (StronglySorted_snoc_inv _ _ _ _ HsG) as Hlt.
    rewrite Forall_forall in HA, Hlt.
    specialize (HA _ Ha). specialize (Hlt _ Ha). cbn beta in Hlt.
    rewrite Hp in HA, Hlt. split; [exact HA|exact Hlt].
  - eapply Permutation_in; [exact Hperm|]. apply in_or_app. left.
    rewrite <- HlastT, <- surjective_pairing. exact HlastG.
  - intros g' Hg'.
    apply (Permutation_in _ (Permutation_sym Hperm)) in Hg'.
    apply in_app_or in Hg'. destruct Hg' as [Hg'|Hg'].
    + pose proof (descending_last_min G d (descending_app_l _ _ Hdesc) HGne) as Hmin.
      rewrite Forall_forall in Hmin. apply Hmin.
      change g' with (fst (g', true)). now apply in_map.
    + rewrite Forall_forall in HF. specialize (HF _ Hg'). discriminate.
Qed.

End Separable.

(** ** The evaluation loop *)

Section LoopFacts.

Import Notebook Metrics.

Lemma keys_dict_set (V : Type) (k : string) (v : V) (d : dict V) :
  keys (dict_set k v d) = if in_dec string_dec k (keys d) then keys d
                          else keys d ++ [k].
Proof.
  unfold keys. induction d as [|[k' v'] d IH]; [reflexivity|].
  cbn [dict_set map fst].
  destruct (String.eqb_spec k k') as [->|Hne].
  - cbn [map fst]. destruct (in_dec string_dec k' (k' :: map fst d)) as [_|H];
      [reflexivity|]. exfalso. apply H. now left.
  - cbn [map fst]. rewrite IH.
    destruct (in_dec string_dec k (map fst d)) as [Hin|Hnin];
      destruct (in_dec string_dec k (k' :: map fst d)) as [Hin'|Hnin'];
      try reflexivity.
    + exfalso. apply Hnin'. now right.
    + exfalso. destruct Hin' as [E|Hin']; [now apply Hne|now apply Hnin].
Qed.

Lemma dict_set_NoDup (V : Type) (k : string) (v : V) (d : dict V) :
  NoDup (keys d) -> NoDup (keys (dict_set k v d)).
Proof.
  intros H. rewrite keys_dict_set.
  destruct (in_dec string_dec k (keys d)) as [Hin|Hnin]; [exact H|].
  apply NoDup_app; [exact H|repeat constructor; intros []|].
  intros x Hx [<-|[]]. now apply Hnin.
Qed.

Lemma dict_literal_NoDup (V : Type) (entries : list (string * V)) :
  NoDup (keys (dict_literal entries)).
Proof.
  unfold dict_literal.
  assert (H : forall d : dict V, NoDup (keys d) ->
            NoDup (keys (fold_left (fun d kv => dict_set (fst kv) (snd kv) d)
                                   entries d))).
  { induction entries as [|[k v] entries IH]; intros d Hd; [exact Hd|].
    cbn [fold_left fst snd]. apply IH. now apply dict_set_NoDup. }
  apply H. constructor.
Qed.

Variable Features : Type.
Variables (X_train_scaled : Features) (y_train : list bool).
Variables (X_test_scaled : Features) (y_test : list bool).

Let eval := evaluate_model Features X_train_scaled y_train X_test_scaled y_test.
Let loop := evaluate_all Features X_train_scaled y_train X_test_scaled y_test.

Lemma evaluate_all_ok items : forall results rows,
  Forall2 (fun item row => eval (fst item) (snd item) = Ok row) items rows ->
  loop items results = (results ++ rows, Ok tt).
Proof.
  induction items as [|[name model] items IH]; intros results rows H.
  - inversion H; subst. now rewrite app_nil_r.
  - inversion H as [|? row ? rows' Hrow Hrest]; subst.
    cbn [fst snd] in Hrow. unfold loop, eval in *. cbn [evaluate_all].
    rewrite Hrow, (IH _ _ Hrest), <- app_assoc. reflexivity.
Qed.

Lemma evaluate_all_raise before : forall name model after results rows e,
  Forall2 (fun item row => eval (fst item) (snd item) = Ok row) before rows ->
  eval name model = Raise e ->
  loop (before ++ (name, model) :: after) results = (results ++ rows, Raise e).
Proof.
  induction before as [|[n m] before IH]; intros name model after results rows e H He.
  - inversion H; subst. unfold loop, eval in *. cbn [app evaluate_all].
    now rewrite He, app_nil_r.
  - inversion H as [|? row ? rows' Hrow Hrest]; subst.
    cbn [fst snd] in Hrow. unfold loop, eval in *. cbn [app evaluate_all].
    rewrite Hrow, (IH _ _ _ _ _ _ Hrest He), <- app_assoc. reflexivity.
Qed.

Lemma evaluate_model_unsupported name model :
  predict_proba Features model = None ->
  eval name model
  = Raise (AttributeError "object has no attribute 'predict_proba'").
Proof.
  intros H. unfold eval, evaluate_model. now rewrite H.
Qed.

(** The row of a model whose predictions have the length of the test
    labels. *)
Lemma evaluate_model_row name model :
  predict_proba Features model <> None ->
  let y_pred :=
    predict Features model (fit Features model X_train_scaled y_train)
            X_test_scaled in
  List.length y_test = List.length y_pred ->
  exists acc pre rec f1,
    accuracy_score y_test y_pred = Ok acc
    /\ precision_score y_test y_pred = Ok pre
    /\ recall_score y_test y_pred = Ok rec
    /\ f1_score y_test y_pred = Ok f1
    /\ eval name model
       = Ok [("Model", Str name); ("Accuracy", Num acc);
             ("Precision", Num pre); ("Recall", Num rec); ("F1", Num f1)].
Proof.
  intros Hp y_pred Hl. unfold eval, evaluate_model. fold y_pred.
  destruct (predict_proba Features model) as [proba|]; [|congruence].
  unfold accuracy_score, precision_score, recall_score, f1_score,
    check_consistent_length.
  rewrite (proj2 (Nat.eqb_eq _ _) Hl). cbn [bind].
  destruct y_test as [|y0 yt]; do 4 eexists; repeat split.
Qed.

End LoopFacts.

(** * Properties stated by the specification *)

Lemma StronglySorted_map (A B : Type) (R : B -> B -> Prop) (f : A -> B)
  (l : list A) :
  StronglySorted (fun a b => R (f a) (f b)) l -> StronglySorted R (map f l).
Proof.
  induction 1 as [|a l Hs IH Ha]; cbn [map]; constructor.
  - exact IH.
  - apply Forall_map. exact Ha.
Qed.

Lemma nth_map_lt (A B : Type) (f : A -> B) (l : list A) (k : nat) (d : B)
  (d' : A) :
  (k < List.length l)%nat -> nth k (map f l) d = f (nth k l d').
Proof.
  intros Hk. rewrite (nth_indep _ d (f d')) by now rewrite length_map.
  apply map_nth.
Qed.

(** C3, as the specification words it, fails: scores that rank every
    forgery above every genuine signature give an EER of 1. *)
Lemma eer_not_at_most_half :
  ~ (forall y_true y_score eer thr,
        List.length y_true = List.length y_score ->
        both_classes y_true ->
        compute_eer y_true y_score = Ok (Real eer, thr) ->
        0 <= eer <= 1 # 2).
Proof.
  intros H.
  destruct (H [true; false] [1 # 10; 9 # 10] (2 # 2) (Real (9 # 10)))
    as [_ C].
  - reflexivity.
  - split; [now left|right; now left].
  - vm_compute. reflexivity.
  - vm_compute in C. now apply C.
Qed.

(** C3, amended.  For equal-length inputs with both classes present the
    EER that [compute_eer] returns is a number between 0 and 1. *)
Theorem compute_eer_in_unit_interval (y_true : list bool) (y_score : list Q) :
  List.length y_true = List.length y_score ->
  both_classes y_true ->
  exists eer thr,
    compute_eer y_true y_score = Ok (Real eer, thr) /\ 0 <= eer <= 1.
Proof.
  intros Hlen Hb.
  destruct (eer_index_spec y_true y_score) as (Hk & _).
  set (c := nth (eer_index y_true y_score) (curve y_true y_score)
                (0%Z, 0%Z, PosInf)).
  exists (avg_err (fpr_of y_true c) (tpr_of y_true c)), (snd c).
  split; [now apply compute_eer_valid|].
  assert (Hc : In c (curve y_true y_score)) by now apply nth_In.
  destruct (curve_rates y_true y_score Hlen Hb c Hc) as [Hf Ht].
  unfold avg_err. split.
  - apply Qle_shift_div_l; [reflexivity|]. lra.
  - apply Qle_shift_div_r; [reflexivity|]. lra.
Qed.

Lemma compute_eer_in_unit_interval_witness :
  exists eer thr,
    compute_eer [true; false] [1 # 10; 9 # 10] = Ok (Real eer, thr)
    /\ 0 <= eer <= 1.
Proof.
  apply compute_eer_in_unit_interval.
  - reflexivity.
  - split; [now left|right; now left].
Defined.

(** C6.  On non-empty inputs of equal length [compute_eer] raises exactly
    when every label is the same (numpy's [nanargmin] then finds only NaN
    and raises [ValueError]); with both classes present it returns an EER
    and a threshold. *)
Theorem compute_eer_raises_iff_one_class (y_true : list bool)
  (y_score : list Q) :
  List.length y_true = List.length y_score ->
  y_true <> [] ->
  ((exists e, compute_eer y_true y_score = Raise e) <-> one_class y_true)
  /\ (one_class y_true ->
      compute_eer y_true y_score
      = Raise (ValueError "All-NaN slice encountered"))
  /\ (both_classes y_true ->
      exists eer thr, compute_eer y_true y_score = Ok (Real eer, thr)).
Proof.
  intros Hlen Hne.
  assert (Hok : both_classes y_true ->
                exists eer thr, compute_eer y_true y_score = Ok (Real eer, thr)).
  { intros Hb. eexists. eexists. now apply compute_eer_valid. }
  assert (Hraise : one_class y_true ->
                   compute_eer y_true y_score
                   = Raise (ValueError "All-NaN slice encountered")).
  { intros H1. apply compute_eer_one_class; try assumption.
    now apply one_class_not_both. }
  split; [|split; assumption].
  split.
  - intros [e He]. apply one_class_not_both. intros Hb.
    destruct (Hok Hb) as (eer & thr & E). congruence.
  - intros H1. eexists. now apply Hraise.
Qed.

Lemma compute_eer_raises_iff_one_class_witness :
  ((exists e, compute_eer [true; true] [1 # 2; 3 # 4] = Raise e)
   <-> one_class [true; true])
  /\ (one_class [true; true] ->
      compute_eer [true; true] [1 # 2; 3 # 4]
      = Raise (ValueError "All-NaN slice encountered"))
  /\ (both_classes [true; true] ->
      exists eer thr, compute_eer [true; true] [1 # 2; 3 # 4] = Ok (Real eer, thr)).
Proof.
  apply compute_eer_raises_iff_one_class.
  - reflexivity.
  - discriminate.
Defined.

(** C7, as the specification words it, fails.  Reading "about 0.5" as
    "within 1/4 of 0.5": with the labels [1, 0] and the scores [1/2, 1/2]
    the point that [compute_eer] selects has a false-positive rate of 0
    and a false-negative rate of 1. *)
Lemma identical_scores_rates_not_half :
  ~ (forall y_true y_score fpr tpr thresholds eer thr idx,
        List.length y_true = List.length y_score ->
        both_classes y_true ->
        identical_scores y_score ->
        roc_curve y_true y_score = Ok (fpr, tpr, thresholds) ->
        compute_eer y_true y_score = Ok (eer, thr) ->
        nth_error thresholds idx = Some thr ->
        exists f t,
          nth_error fpr idx = Some (Real f)
          /\ nth_error tpr idx = Some (Real t)
          /\ Qabs (f - (1 # 2)) <= 1 # 4
          /\ Qabs (1 - t - (1 # 2)) <= 1 # 4).
Proof.
  intros H.
  assert (Hb : both_classes [true; false])
    by (split; [now left|right; now left]).
  assert (Hid : identical_scores [1 # 2; 1 # 2]).
  { intros a b [<-|[<-|[]]] [<-|[<-|[]]]; reflexivity. }
  destruct (H [true; false] [1 # 2; 1 # 2]
              [Real (0 # 1); Real (1 # 1)] [Real (0 # 1); Real (1 # 1)]
              [PosInf; Real (1 # 2)] (Real (1 # 2)) PosInf 0%nat
              eq_refl Hb Hid eq_refl eq_refl eq_refl)
    as (f & t & Hf & Ht & Cf & _).
  cbn [nth_error] in Hf. injection Hf as <-.
  vm_compute in Cf. now apply Cf.
Qed.

(** C7, amended.  When all scores are the same and both classes are
    present the curve has two points, [(0, 0)] at threshold [+inf] and
    [(1, 1)] at the common score; [compute_eer] selects the first one,
    where the false-positive rate is 0 and the false-negative rate is 1,
    and returns their mean, 1/2. *)
Theorem identical_scores_eer_half (y_true : list bool) (y_score : list Q) :
  List.length y_true = List.length y_score ->
  both_classes y_true ->
  identical_scores y_score ->
  exists f0 t0 f1 t1 s eer,
    roc_curve y_true y_score
    = Ok ([Real f0; Real f1], [Real t0; Real t1], [PosInf; Real s])
    /\ f0 == 0 /\ 1 - t0 == 1 /\ f1 == 1 /\ 1 - t1 == 0
    /\ In s y_score
    /\ compute_eer y_true y_score = Ok (Real eer, PosInf)
    /\ eer == avg_err f0 t0
    /\ eer == 1 # 2.
Proof.
  intros Hlen Hb Hid.
  destruct (identical_curve y_true y_score Hlen Hb Hid) as (s & Hs & Hc).
  destruct (identical_rates y_true Hb) as (E1 & E2 & E3 & E4).
  do 6 eexists. split; [|split; [|split; [|split; [|split; [|split;
    [|split; [|split]]]]]]].
  - rewrite roc_curve_valid by assumption. rewrite Hc. reflexivity.
  - exact E1.
  - cbn [fst snd]. rewrite E2. reflexivity.
  - exact E3.
  - cbn [fst snd]. rewrite E4. reflexivity.
  - exact Hs.
  - now apply identical_compute_eer.
  - reflexivity.
  - unfold avg_err. rewrite E1, E2. reflexivity.
Qed.

Lemma identical_scores_eer_half_witness :
  exists f0 t0 f1 t1 s eer,
    roc_curve [true; false; true] [1 # 2; 1 # 2; 2 # 4]
    = Ok ([Real f0; Real f1], [Real t0; Real t1], [PosInf; Real s])
    /\ f0 == 0 /\ 1 - t0 == 1 /\ f1 == 1 /\ 1 - t1 == 0
    /\ In s [1 # 2; 1 # 2; 2 # 4]
    /\ compute_eer [true; false; true] [1 # 2; 1 # 2; 2 # 4]
       = Ok (Real eer, PosInf)
    /\ eer == avg_err f0 t0
    /\ eer == 1 # 2.
Proof.
  apply identical_scores_eer_half.
  - reflexivity.
  - split; [now left|right; now left].
  - intros a b Ha Hb.
    assert (E : forall x, In x [1 # 2; 1 # 2; 2 # 4] -> x == 1 # 2)
      by (intros x [<-|[<-|[<-|[]]]]; reflexivity).
    now rewrite (E a Ha), (E b Hb).
Defined.

(** C10.  The threshold that [compute_eer] returns need not be a score:
    when all scores are the same and both classes are present, the point
    it selects is the initial one, at which nothing is flagged positive
    (both rates are 0), and the threshold returned is the sentinel [+inf]
    of that point, which is greater than every score and equal to none. *)
Theorem identical_scores_threshold_sentinel (y_true : list bool)
  (y_score : list Q) :
  List.length y_true = List.length y_score ->
  both_classes y_true ->
  identical_scores y_score ->
  exists eer f0 t0 fpr tpr thresholds,
    roc_curve y_true y_score
    = Ok (Real f0 :: fpr, Real t0 :: tpr, PosInf :: thresholds)
    /\ f0 == 0 /\ t0 == 0
    /\ ~ In PosInf thresholds
    /\ compute_eer y_true y_score = Ok (Real eer, PosInf)
    /\ (forall s, In s y_score -> flt (Real s) PosInf = true)
    /\ ~ In PosInf (map Real y_score).
Proof.
  intros Hlen Hb Hid.
  destruct (identical_curve y_true y_score Hlen Hb Hid) as (s & Hs & Hc).
  destruct (identical_rates y_true Hb) as (E1 & E2 & _).
  do 6 eexists. repeat apply conj.
  - rewrite roc_curve_valid by assumption. rewrite Hc. reflexivity.
  - exact E1.
  - exact E2.
  - intros [H|[]]. discriminate.
  - now apply identical_compute_eer.
  - reflexivity.
  - intros H. apply in_map_iff in H. destruct H as (q & E & _). discriminate.
Qed.

Lemma identical_scores_threshold_sentinel_witness :
  exists eer f0 t0 fpr tpr thresholds,
    roc_curve [true; false] [1 # 2; 1 # 2]
    = Ok (Real f0 :: fpr, Real t0 :: tpr, PosInf :: thresholds)
    /\ f0 == 0 /\ t0 == 0
    /\ ~ In PosInf thresholds
    /\ compute_eer [true; false] [1 # 2; 1 # 2] = Ok (Real eer, PosInf)
    /\ (forall s, In s [1 # 2; 1 # 2] -> flt (Real s) PosInf = true)
    /\ ~ In PosInf (map Real [1 # 2; 1 # 2]).
Proof.
  apply identical_scores_threshold_sentinel.
  - reflexivity.
  - split; [now left|right; now left].
  - intros a b [<-|[<-|[]]] [<-|[<-|[]]]; reflexivity.
Defined.

Lemma last_map (A B : Type) (f : A -> B) (l : list A) (d : A) :
  last (map f l) (f d) = f (last l d).
Proof.
  induction l as [|a l IH]; [reflexivity|].
  destruct l as [|b l]; [reflexivity|].
  change (last (map f (a :: b :: l)) (f d)) with (last (map f (b :: l)) (f d)).
  change (last (a :: b :: l) d) with (last (b :: l) d). exact IH.
Qed.

Lemma last_indep (A : Type) (l : list A) (d d' : A) :
  l <> [] -> last l d = last l d'.
Proof.
  induction l as [|a l IH]; [congruence|]. intros _.
  destruct l as [|b l]; [reflexivity|].
  change (last (a :: b :: l) d) with (last (b :: l) d).
  change (last (a :: b :: l) d') with (last (b :: l) d').
  apply IH. discriminate.
Qed.

Lemma StronglySorted_impl (A : Type) (R S : A -> A -> Prop) (l : list A) :
  (forall a b, R a b -> S a b) -> StronglySorted R l -> StronglySorted S l.
Proof.
  intros HRS. induction 1 as [|a l Hs IH Ha]; constructor.
  - exact IH.
  - eapply Forall_impl; [|exact Ha]. intros b. apply HRS.
Qed.

Lemma curve_sorted (y_true : list bool) (y_score : list Q) :
  StronglySorted
    (fun a b : Z * Z * npfloat =>
       (fst (fst a) <= fst (fst b))%Z /\ (snd (fst a) <= snd (fst b))%Z)
    (curve y_true y_score).
Proof.
  unfold curve. constructor.
  - apply StronglySorted_map. exact (roc_points_mono y_true y_score).
  - apply Forall_map, Forall_forall. intros p Hp.
    exact (roc_points_nonneg y_true y_score p Hp).
Qed.

Lemma curve_last (y_true : list bool) (y_score : list Q) :
  List.length y_true = List.length y_score -> y_true <> [] ->
  exists s,
    last (curve y_true y_score) (0%Z, 0%Z, PosInf)
    = (count_label false y_true, count_label true y_true, Real s).
Proof.
  intros Hlen Hne. unfold curve.
  pose proof (roc_points_nonempty y_true y_score Hlen Hne) as Hp.
  pose proof (roc_points_last y_true y_score Hlen Hne (0%Z, 0%Z, 0)) as Hl.
  destruct (roc_points y_true y_score) as [|p ps] eqn:E; [congruence|].
  change (last ((0%Z, 0%Z, PosInf)
                :: map (fun p : Z * Z * Q => (fps_of p, tps_of p, Real (thr_of p)))
                       (p :: ps)) (0%Z, 0%Z, PosInf))
    with (last (map (fun p : Z * Z * Q => (fps_of p, tps_of p, Real (thr_of p)))
                    (p :: ps)) (0%Z, 0%Z, PosInf)).
  exists (fst (last (sorted_desc y_true y_score) (0, true))).
  transitivity
    ((fun p : Z * Z * Q => (fps_of p, tps_of p, Real (thr_of p)))
       (last (p :: ps) (0%Z, 0%Z, 0))); [|now rewrite Hl].
  etransitivity;
    [|exact (last_map _ _
               (fun p : Z * Z * Q => (fps_of p, tps_of p, Real (thr_of p)))
               (p :: ps) (0%Z, 0%Z, 0))].
  apply last_indep. discriminate.
Qed.

(** C2, as the specification words it, fails twice on the labels
    [1, 1, 0, 0] with the scores [0.9, 0.8, 0.3, 0.1]: the curve has the
    thresholds [+inf, 0.9, 0.8, 0.1], so the distinct score 0.3 has no
    point, and no threshold lies below the smallest score. *)
Lemma roc_curve_misses_thresholds :
  ~ (forall y_true y_score fpr tpr thresholds,
        List.length y_true = List.length y_score ->
        both_classes y_true ->
        roc_curve y_true y_score = Ok (fpr, tpr, thresholds) ->
        forall s, In s y_score ->
                  exists t, In (Real t) thresholds /\ t == s)
  /\ ~ (forall y_true y_score fpr tpr thresholds,
          List.length y_true = List.length y_score ->
          both_classes y_true ->
          roc_curve y_true y_score = Ok (fpr, tpr, thresholds) ->
          exists x, In x thresholds
                    /\ forall s, In s y_score -> flt x (Real s) = true).
Proof.
  assert (Hb : both_classes [true; true; false; false])
    by (split; [now left|do 2 right; now left]).
  assert (Hr : roc_curve [true; true; false; false]
                 [9 # 10; 8 # 10; 3 # 10; 1 # 10]
               = Ok ([Real (0 # 2); Real (0 # 2); Real (0 # 2); Real (2 # 2)],
                     [Real (0 # 2); Real (1 # 2); Real (2 # 2); Real (2 # 2)],
                     [PosInf; Real (9 # 10); Real (8 # 10); Real (1 # 10)]))
    by (vm_compute; reflexivity).
  split; intros H.
  - destruct (H [true; true; false; false] [9 # 10; 8 # 10; 3 # 10; 1 # 10]
                _ _ _ eq_refl Hb Hr (3 # 10)) as (t & Ht & E).
    + do 2 right. now left.
    + destruct Ht as [Ht|[Ht|[Ht|[Ht|[]]]]]; try discriminate;
        injection Ht as <-; vm_compute in E; discriminate.
  - destruct (H [true; true; false; false] [9 # 10; 8 # 10; 3 # 10; 1 # 10]
                _ _ _ eq_refl Hb Hr) as (x & Hx & Hlt).
    specialize (Hlt (1 # 10) ltac:(do 3 right; now left)).
    destruct Hx as [<-|[<-|[<-|[<-|[]]]]]; vm_compute in Hlt; discriminate.
Qed.

(** C9.  Applying a strictly increasing function to every score leaves the
    EER that [compute_eer] returns unchanged; the threshold returned is
    the image of the former one ([+inf] stays [+inf]). *)
Theorem compute_eer_monotone_invariant (f : Q -> Q) (y_true : list bool)
  (y_score : list Q) :
  Proper (Qeq ==> Qeq) f ->
  strictly_increasing f ->
  List.length y_true = List.length y_score ->
  both_classes y_true ->
  exists eer thr,
    compute_eer y_true y_score = Ok (Real eer, thr)
    /\ compute_eer y_true (map f y_score) = Ok (Real eer, on_threshold f thr).
Proof.
  intros Hp Hi Hlen Hb.
  assert (Hlen' : List.length y_true = List.length (map f y_score))
    by now rewrite length_map.
  do 2 eexists. split; [now apply compute_eer_valid|].
  rewrite compute_eer_valid by assumption.
  rewrite eer_index_map, curve_map by assumption.
  set (h := fun c : Z * Z * npfloat => (fst c, on_threshold f (snd c))).
  change (0%Z, 0%Z, PosInf) with (h (0%Z, 0%Z, PosInf)) at 1 2 3.
  rewrite !map_nth. reflexivity.
Qed.

Lemma compute_eer_monotone_invariant_witness :
  exists eer thr,
    compute_eer [true; false; true; false] [6 # 10; 6 # 10; 4 # 10; 3 # 10]
    = Ok (Real eer, thr)
    /\ compute_eer [true; false; true; false]
         (map (fun x => 2 * x + 1) [6 # 10; 6 # 10; 4 # 10; 3 # 10])
       = Ok (Real eer, on_threshold (fun x => 2 * x + 1) thr).
Proof.
  apply compute_eer_monotone_invariant.
  - intros x y E. now rewrite E.
  - intros x y H. lra.
  - reflexivity.
  - split; [now left|right; now left].
Defined.

(** C8, as the specification words it, fails: on the labels [1, 1, 0, 0]
    with the scores [0.9, 0.8, 0.3, 0.1] the EER is 0 but the threshold
    returned is 0.8, the smallest genuine score itself, not a value
    strictly below it. *)
Lemma separable_threshold_not_between :
  ~ (forall y_true y_score eer thr,
        List.length y_true = List.length y_score ->
        both_classes y_true ->
        separable (combine y_score y_true) ->
        compute_eer y_true y_score = Ok (Real eer, Real thr) ->
        eer == 0
        /\ (forall g, In (g, true) (combine y_score y_true) -> thr < g)
        /\ (forall b, In (b, false) (combine y_score y_true) -> b < thr)).
Proof.
  intros H.
  destruct (H [true; true; false; false] [9 # 10; 8 # 10; 3 # 10; 1 # 10]
              (0 # 8) (8 # 10)) as (_ & Hg & _).
  - reflexivity.
  - split; [now left|do 2 right; now left].
  - intros g b Hg Hb. cbn [combine] in Hg, Hb.
    destruct Hg as [Hg|[Hg|[Hg|[Hg|[]]]]]; try discriminate;
      destruct Hb as [Hb|[Hb|[Hb|[Hb|[]]]]]; try discriminate;
      injection Hg as <-; injection Hb as <-; reflexivity.
  - vm_compute. reflexivity.
  - specialize (Hg (8 # 10)). cbn [combine] in Hg.
    specialize (Hg ltac:(right; now left)).
    vm_compute in Hg. discriminate.
Qed.

(** C8, amended.  When every genuine score is greater than every forged
    score, [compute_eer] returns an EER of 0 and, as threshold, the
    smallest genuine score, which is greater than every forged score. *)
Theorem compute_eer_separable (y_true : list bool) (y_score : list Q) :
  List.length y_true = List.length y_score ->
  both_classes y_true ->
  separable (combine y_score y_true) ->
  exists eer thr,
    compute_eer y_true y_score = Ok (Real eer, Real thr)
    /\ eer == 0
    /\ In (thr, true) (combine y_score y_true)
    /\ (forall g, In (g, true) (combine y_score y_true) -> thr <= g)
    /\ (forall b, In (b, false) (combine y_score y_true) -> b < thr).
Proof.
  intros Hlen Hb Hsep.
  destruct (separable_curve y_true y_score Hlen Hb Hsep)
    as (A & B & g & Hc & HA & Hg & Hmin).
  set (conv := fun p : Z * Z * Q => (fps_of p, tps_of p, Real (thr_of p))) in *.
  set (pre := (0%Z, 0%Z, PosInf) :: map conv A) in *.
  set (z := (0%Z, count_label true y_true, Real g)) in *.
  destruct Hb as [Hpos Hneg]. pose proof Hpos as Hpos'. pose proof Hneg as Hneg'.
  apply count_label_pos in Hpos, Hneg.
  assert (Ez1 : fpr_of y_true z == 0) by apply rate_zero.
  assert (Ez2 : tpr_of y_true z == 1) by now apply rate_full.
  assert (Hz : gap (fpr_of y_true z) (tpr_of y_true z) == 0).
  { unfold gap. rewrite Ez1, Ez2. reflexivity. }
  assert (Hpre : Forall (fun c => 0 < gap (fpr_of y_true c) (tpr_of y_true c)) pre).
  { assert (Hc0 : forall c : Z * Z * npfloat,
               fst (fst c) = 0%Z -> (snd (fst c) < count_label true y_true)%Z ->
               0 < gap (fpr_of y_true c) (tpr_of y_true c)).
    { intros c Hf Ht. unfold gap, fpr_of. rewrite Hf, rate_zero.
      pose proof (rate_lt_one _ _ Ht Hpos) as Hlt. fold (tpr_of y_true c) in Hlt.
      rewrite Qabs_neg by lra. lra. }
    constructor.
    - apply Hc0; [reflexivity|exact Hpos].
    - apply Forall_map. eapply Forall_impl; [|exact HA].
      cbn beta. intros a [Ha1 Ha2]. apply Hc0; assumption. }
  pose proof (eer_index_first_zero y_true y_score pre z _ Hc Hz Hpre) as Hk.
  exists (avg_err (fpr_of y_true z) (tpr_of y_true z)), g.
  repeat apply conj.
  - rewrite compute_eer_valid by (try assumption; now split).
    rewrite Hk, Hc, nth_middle. reflexivity.
  - unfold avg_err. rewrite Ez1, Ez2. reflexivity.
  - exact Hg.
  - exact Hmin.
  - intros b Hb. now apply Hsep.
Qed.

Lemma compute_eer_separable_witness :
  exists eer thr,
    compute_eer [true; false; true; false] [9 # 10; 3 # 10; 8 # 10; 1 # 10]
    = Ok (Real eer, Real thr)
    /\ eer == 0
    /\ In (thr, true)
          (combine [9 # 10; 3 # 10; 8 # 10; 1 # 10] [true; false; true; false])
    /\ (forall g,
          In (g, true)
             (combine [9 # 10; 3 # 10; 8 # 10; 1 # 10] [true; false; true; false]) ->
          thr <= g)
    /\ (forall b,
          In (b, false)
             (combine [9 # 10; 3 # 10; 8 # 10; 1 # 10] [true; false; true; false]) ->
          b < thr).
Proof.
  apply compute_eer_separable.
  - reflexivity.
  - split; [now left|right; now left].
  - intros g b Hg Hb. cbn [combine] in Hg, Hb.
    destruct Hg as [Hg|[Hg|[Hg|[Hg|[]]]]]; try discriminate;
      destruct Hb as [Hb|[Hb|[Hb|[Hb|[]]]]]; try discriminate;
      injection Hg as <-; injection Hb as <-; reflexivity.
Defined.

Import Notebook Metrics.

(** C4, as the specification words it, fails: with an entry that has no
    [predict_proba] between two that have it, the loop raises
    [AttributeError] at that entry; [results] then holds the row of the
    first model only, no marker for the second and no row for the
    third. *)
Lemma unsupported_classifier_aborts_run :
  ~ (forall (Features : Type) (entries : list (string * classifier Features))
            (X_train : Features) (y_train : list bool)
            (X_test : Features) (y_test : list bool),
        (forall name model, In (name, model) entries ->
           List.length y_test
           = List.length (predict Features model
                            (fit Features model X_train y_train) X_test)) ->
        let out := run_models Features X_train y_train X_test y_test entries in
        snd out = Ok tt
        /\ forall name model,
             In (name, model) (dict_literal entries) ->
             predict_proba Features model <> None ->
             exists row, In row (fst out)
                         /\ dict_get "Model" row = Some (Str name)).
Proof.
  intros H.
  destruct (H (list Q)
              [("A", threshold_classifier); ("B", margin_classifier);
               ("C", threshold_classifier)]
              [] [] [9 # 10; 8 # 10; 3 # 10; 6 # 10] [true; true; true; false])
    as [Hout _].
  - intros name model [E|[E|[E|[]]]]; injection E as _ <-; reflexivity.
  - vm_compute in Hout. discriminate.
Qed.

(** C4, amended.  When the models registered before one that has no
    [predict_proba] evaluate normally, the loop ends at that model with
    an [AttributeError] that nothing catches: [results] holds the rows of
    the earlier models, nothing for the unsupported model and nothing for
    the models after it. *)
Theorem evaluate_all_aborts_at_unsupported (Features : Type)
  (X_train : Features) (y_train : list bool)
  (X_test : Features) (y_test : list bool)
  (before after : list (string * classifier Features))
  (name : string) (model : classifier Features) (rows : list (dict value)) :
  predict_proba Features model = None ->
  Forall2 (fun item row =>
             evaluate_model Features X_train y_train X_test y_test
               (fst item) (snd item) = Ok row) before rows ->
  evaluate_all Features X_train y_train X_test y_test
    (before ++ (name, model) :: after) []
  = (rows, Raise (AttributeError "object has no attribute 'predict_proba'")).
Proof.
  intros Hnone Hrows.
  apply (evaluate_all_raise Features X_train y_train X_test y_test
           before name model after [] rows _ Hrows).
  now apply evaluate_model_unsupported.
Qed.

Lemma evaluate_all_aborts_at_unsupported_witness :
  evaluate_all (list Q) [] [] [9 # 10; 8 # 10; 3 # 10; 6 # 10]
    [true; true; true; false]
    ([("A", threshold_classifier)] ++ ("B", margin_classifier)
       :: [("C", threshold_classifier)]) []
  = ([[("Model", Str "A"); ("Accuracy", Num (Real (2 # 4)));
       ("Precision", Num (Real (2 # 3))); ("Recall", Num (Real (2 # 3)));
       ("F1", Num (Real (4 # 6)))]],
     Raise (AttributeError "object has no attribute 'predict_proba'")).
Proof.
  apply evaluate_all_aborts_at_unsupported.
  - reflexivity.
  - repeat constructor.
Defined.

(** C5, as the specification words it, fails: the row that the loop
    builds has the five entries Model, Accuracy, Precision, Recall and F1;
    the EER of the model and its threshold (here 1/6 and 0.8) are in no
    entry of the row. *)
Lemma report_has_no_eer :
  ~ (forall (Features : Type) (entries : list (string * classifier Features))
            (X_train : Features) (y_train : list bool)
            (X_test : Features) (y_test : list bool) rows,
        run_models Features X_train y_train X_test y_test entries
        = (rows, Ok tt) ->
        forall name model row eer thr,
          In (name, model) (dict_literal entries) ->
          In row rows ->
          dict_get "Model" row = Some (Str name) ->
          model_eer Features X_train y_train X_test y_test model
          = Ok (eer, thr) ->
          exists k1 k2, dict_get k1 row = Some (Num eer)
                        /\ dict_get k2 row = Some (Num thr)).
Proof.
  intros H.
  destruct (H (list Q) [("RandomForest", threshold_classifier)]
              [] [] [9 # 10; 8 # 10; 3 # 10; 6 # 10] [true; true; true; false]
              _ eq_refl "RandomForest" threshold_classifier
              [("Model", Str "RandomForest"); ("Accuracy", Num (Real (2 # 4)));
               ("Precision", Num (Real (2 # 3))); ("Recall", Num (Real (2 # 3)));
               ("F1", Num (Real (4 # 6)))]
              (Real (1 # 6)) (Real (8 # 10)))
    as (k1 & k2 & E1 & _).
  - now left.
  - now left.
  - reflexivity.
  - vm_compute. reflexivity.
  - cbn [dict_get] in E1.
    repeat match type of E1 with
           | (if ?c then _ else _) = _ => destruct c
           end; discriminate.
Qed.

(** C5, amended.  When every model of the registry has [predict_proba]
    and predicts one label per test example, the loop ends normally with
    one row per model, in the order of the registry, whose keys are
    distinct names; the row of a model holds its name and the accuracy,
    precision, recall and F1 of its hard predictions on the test split,
    and nothing else. *)
Theorem evaluate_all_reports (Features : Type)
  (X_train : Features) (y_train : list bool)
  (X_test : Features) (y_test : list bool)
  (entries : list (string * classifier Features)) :
  (forall name model,
      In (name, model) (dict_literal entries) ->
      predict_proba Features model <> None
      /\ List.length y_test
         = List.length (predict Features model
                          (fit Features model X_train y_train) X_test)) ->
  exists rows,
    run_models Features X_train y_train X_test y_test entries = (rows, Ok tt)
    /\ NoDup (keys (dict_literal entries))
    /\ Forall2
         (fun item row =>
            let y_pred :=
              predict Features (snd item)
                (fit Features (snd item) X_train y_train) X_test in
            exists acc pre rec f1,
              accuracy_score y_test y_pred = Ok acc
              /\ precision_score y_test y_pred = Ok pre
              /\ recall_score y_test y_pred = Ok rec
              /\ f1_score y_test y_pred = Ok f1
              /\ row = [("Model", Str (fst item)); ("Accuracy", Num acc);
                        ("Precision", Num pre); ("Recall", Num rec);
                        ("F1", Num f1)])
         (dict_literal entries) rows.
Proof.
  intros Hall. unfold run_models.
  set (items := dict_literal entries) in *.
  assert (Hrows : exists rows,
             Forall2 (fun item row =>
                        evaluate_model Features X_train y_train X_test y_test
                          (fst item) (snd item) = Ok row) items rows
             /\ Forall2
                  (fun item row =>
                     let y_pred :=
                       predict Features (snd item)
                         (fit Features (snd item) X_train y_train) X_test in
                     exists acc pre rec f1,
                       accuracy_score y_test y_pred = Ok acc
                       /\ precision_score y_test y_pred = Ok pre
                       /\ recall_score y_test y_pred = Ok rec
                       /\ f1_score y_test y_pred = Ok f1
                       /\ row = [("Model", Str (fst item)); ("Accuracy", Num acc);
                                 ("Precision", Num pre); ("Recall", Num rec);
                                 ("F1", Num f1)])
                  items rows).
  { clearbody items. induction items as [|[name model] items IH].
    - exists []. split; constructor.
    - destruct IH as (rows & H1 & H2).
      { intros n m Hin. apply (Hall n m). now right. }
      destruct (Hall name model (or_introl eq_refl)) as [Hp Hl].
      destruct (evaluate_model_row Features X_train y_train X_test y_test
                  name model Hp Hl)
        as (acc & pre & rec & f1 & Ea & Ep & Er & Ef & Erow).
      eexists (_ :: rows). split; constructor; try assumption.
      + exact Erow.
      + cbn [fst snd]. exists acc, pre, rec, f1. repeat split; assumption. }
  destruct Hrows as (rows & H1 & H2).
  exists rows. repeat apply conj.
  - exact (evaluate_all_ok Features X_train y_train X_test y_test items [] rows H1).
  - apply dict_literal_NoDup.
  - exact H2.
Qed.

Lemma evaluate_all_reports_witness :
  exists rows,
    run_models (list Q) [] [] [9 # 10; 8 # 10; 3 # 10; 6 # 10]
      [true; true; true; false]
      [("RandomForest", threshold_classifier); ("KNN", threshold_classifier)]
    = (rows, Ok tt)
    /\ NoDup (keys (dict_literal
                      [("RandomForest", threshold_classifier);
                       ("KNN", threshold_classifier)]))
    /\ Forall2
         (fun item row =>
            let y_pred :=
              predict (list Q) (snd item)
                (fit (list Q) (snd item) [] []) [9 # 10; 8 # 10; 3 # 10; 6 # 10] in
            exists acc pre rec f1,
              accuracy_score [true; true; true; false] y_pred = Ok acc
              /\ precision_score [true; true; true; false] y_pred = Ok pre
              /\ recall_score [true; true; true; false] y_pred = Ok rec
              /\ f1_score [true; true; true; false] y_pred = Ok f1
              /\ row = [("Model", Str (fst item)); ("Accuracy", Num acc);
                        ("Precision", Num pre); ("Recall", Num rec);
                        ("F1", Num f1)])
         (dict_literal [("RandomForest", threshold_classifier);
                        ("KNN", threshold_classifier)]) rows.
Proof.
  apply evaluate_all_reports.
  intros name model [E|[E|[]]]; injection E as _ <-;
    (split; [discriminate|reflexivity]).
Defined.

(** * Further properties of the code *)

(** ** The counts of a point are those of the decision [score >= threshold] *)

Section Semantics.

Lemma count_at_least_cons b t s y l :
  count_at_least b t ((s, y) :: l)
  = ((if Bool.eqb b y && Qle_bool t s then 1 else 0) + count_at_least b t l)%Z.
Proof.
  unfold count_at_least. cbn [filter fst snd].
  destruct (Bool.eqb b y && Qle_bool t s); cbn [List.length]; lia.
Qed.

Lemma count_at_least_nonneg b t l : (0 <= count_at_least b t l)%Z.
Proof. unfold count_at_least. lia. Qed.

Lemma count_at_least_perm b t l l' :
  Permutation l l' -> count_at_least b t l = count_at_least b t l'.
Proof.
  induction 1 as [|[s y] l l' _ IH|[s y] [s' y'] l|l l' l'' _ IH1 _ IH2].
  - reflexivity.
  - rewrite !count_at_least_cons. now rewrite IH.
  - rewrite !count_at_least_cons. lia.
  - congruence.
Qed.

Lemma count_at_least_none b t l :
  Forall (fun p : Q * bool => fst p < t) l -> count_at_least b t l = 0%Z.
Proof.
  induction 1 as [|[s y] l Hs _ IH]; [reflexivity|].
  rewrite count_at_least_cons, IH. cbn [fst] in Hs.
  replace (Qle_bool t s) with false; [now rewrite andb_false_r|].
  symmetry. destruct (Qle_bool t s) eqn:E; [|reflexivity].
  apply Qle_bool_iff in E. exfalso. eapply Qlt_not_le; eassumption.
Qed.

Lemma sweep_counts l : forall fp tp p,
  descending l -> In p (sweep fp tp l) ->
  fps_of p = (fp + count_at_least false (thr_of p) l)%Z
  /\ tps_of p = (tp + count_at_least true (thr_of p) l)%Z.
Proof.
  induction l as [|[s y] t IH]; [intros ? ? ? _ []|].
  intros fp tp p Hs Hp. pose proof (descending_head_max _ _ _ Hs) as Hmax.
  apply StronglySorted_inv in Hs. destruct Hs as [Ht Hf].
  assert (Hhead : forall q : Z * Z * Q,
             q = ((fp + (if y then 0 else 1))%Z, (tp + (if y then 1 else 0))%Z, s) ->
             Forall (fun p : Q * bool => fst p < s) t ->
             fps_of q = (fp + count_at_least false (thr_of q) ((s, y) :: t))%Z
             /\ tps_of q = (tp + count_at_least true (thr_of q) ((s, y) :: t))%Z).
  { intros q -> Hlt. unfold fps_of, tps_of, thr_of. cbn [fst snd].
    rewrite !count_at_least_cons, !(count_at_least_none _ s t Hlt).
    replace (Qle_bool s s) with true
      by (symmetry; apply Qle_bool_iff, Qle_refl).
    destruct y; cbn [Bool.eqb andb]; split; lia. }
  assert (Hrec : forall q,
             In q (sweep (fp + (if y then 0 else 1)) (tp + (if y then 1 else 0)) t) ->
             fps_of q = (fp + count_at_least false (thr_of q) ((s, y) :: t))%Z
             /\ tps_of q = (tp + count_at_least true (thr_of q) ((s, y) :: t))%Z).
  { intros q Hq. destruct (IH _ _ _ Ht Hq) as [H1 H2].
    apply sweep_thr_in in Hq.
    inversion Hmax as [|? ? _ Hmax']; subst.
    rewrite Forall_forall in Hmax'. specialize (Hmax' _ Hq).
    apply Qle_bool_iff in Hmax'.
    rewrite !count_at_least_cons, Hmax', H1, H2.
    destruct y; cbn [Bool.eqb andb]; split; lia. }
  destruct t as [|[s' y'] t'].
  - cbn [sweep] in Hp. destruct Hp as [<-|[]]. apply Hhead; [reflexivity|constructor].
  - rewrite sweep_cons2 in Hp. destruct (Qeq_bool s s') eqn:E; [now apply Hrec|].
    destruct Hp as [<-|Hp]; [|now apply Hrec].
    apply Hhead; [reflexivity|].
    assert (Hs' : s' < s).
    { inversion Hf as [|? ? Hle _]; subst. cbn [fst] in Hle.
      apply Qle_lteq in Hle. destruct Hle as [H|H]; [exact H|].
      apply Qeq_sym, Qeq_bool_iff in H. congruence. }
    pose proof (descending_head_max _ _ _ Ht) as Hmax'.
    apply Forall_forall. intros [q yq] Hq. cbn [fst].
    rewrite Forall_forall in Hmax'.
    apply Qle_lt_trans with s'; [|exact Hs'].
    apply Hmax'. change q with (fst (q, yq)). now apply in_map.
Qed.

(** Every score has a point, up to equality of numbers, before
    [drop_intermediate]. *)
Lemma sweep_complete l : forall fp tp s,
  In s (map fst l) -> exists p, In p (sweep fp tp l) /\ thr_of p == s.
Proof.
  induction l as [|[s0 y] t IH]; [intros ? ? ? []|].
  intros fp tp s Hs. destruct t as [|[s' y'] t'].
  - destruct Hs as [<-|[]]. eexists. split; [now left|reflexivity].
  - rewrite sweep_cons2. cbn [map fst] in Hs.
    destruct (Qeq_bool s0 s') eqn:E.
    + destruct Hs as [<-|Hs].
      * destruct (IH (fp + (if y then 0 else 1))%Z (tp + (if y then 1 else 0))%Z
                    s' (or_introl eq_refl)) as (p & Hp & Ep).
        exists p. split; [exact Hp|]. apply Qeq_bool_iff in E.
        now rewrite Ep, E.
      * now apply IH.
    + destruct Hs as [<-|Hs].
      * eexists. split; [now left|reflexivity].
      * destruct (IH (fp + (if y then 0 else 1))%Z (tp + (if y then 1 else 0))%Z
                    s Hs) as (p & Hp & Ep).
        exists p. split; [now right|exact Ep].
Qed.

Variables (y_true : list bool) (y_score : list Q).
Hypothesis Hlen : List.length y_true = List.length y_score.

Lemma roc_points_counts p :
  In p (roc_points y_true y_score) ->
  fps_of p = count_at_least false (thr_of p) (combine y_score y_true)
  /\ tps_of p = count_at_least true (thr_of p) (combine y_score y_true).
Proof.
  intros Hp. apply drop_intermediate_In in Hp.
  destruct (sweep_counts _ _ _ _ (sorted_desc_descending y_true y_score) Hp)
    as [H1 H2].
  rewrite (count_at_least_perm _ _ _ _ (sorted_desc_perm y_true y_score)) in H1.
  rewrite (count_at_least_perm _ _ _ _ (sorted_desc_perm y_true y_score)) in H2.
  rewrite H1, H2. split; lia.
Qed.

Lemma curve_point c :
  In c (curve y_true y_score) ->
  c = (0%Z, 0%Z, PosInf)
  \/ exists t, In t y_score
       /\ c = (count_at_least false t (combine y_score y_true),
               count_at_least true t (combine y_score y_true), Real t).
Proof.
  unfold curve. intros [<-|Hc]; [now left|]. right.
  apply in_map_iff in Hc. destruct Hc as (p & <- & Hp).
  exists (thr_of p). split; [now apply (roc_points_thr_in y_true y_score Hlen)|].
  destruct (roc_points_counts p Hp) as [-> ->]. reflexivity.
Qed.

End Semantics.

(** ** What the rates and the EER mean *)

Section Meaning.

Lemma rate_eq_zero (a n : Z) :
  (0 < n)%Z -> inject_Z a / inject_Z n == 0 -> a = 0%Z.
Proof.
  intros Hn H.
  assert (Hq : ~ inject_Z n == 0).
  { intros E. apply (inject_Z_injective n 0) in E. lia. }
  apply inject_Z_injective. rewrite <- (Qmult_div_r (inject_Z a) _ Hq), H.
  apply Qmult_0_r.
Qed.

Lemma rate_eq_one (a n : Z) :
  (0 < n)%Z -> inject_Z a / inject_Z n == 1 -> a = n.
Proof.
  intros Hn H.
  assert (Hq : ~ inject_Z n == 0).
  { intros E. apply (inject_Z_injective n 0) in E. lia. }
  apply inject_Z_injective. rewrite <- (Qmult_div_r (inject_Z a) _ Hq), H.
  apply Qmult_1_r.
Qed.

Lemma count_at_least_zero b t l :
  count_at_least b t l = 0%Z -> forall s, In (s, b) l -> s < t.
Proof.
  induction l as [|[s0 y] l IH]; [intros _ ? []|].
  rewrite count_at_least_cons. intros H s Hs.
  pose proof (count_at_least_nonneg b t l) as Hnn.
  destruct (Bool.eqb b y && Qle_bool t s0) eqn:E; [lia|].
  destruct Hs as [Hs|Hs]; [|apply IH; [lia|exact Hs]].
  injection Hs as -> ->. rewrite Bool.eqb_reflx in E. cbn [andb] in E.
  apply Qnot_le_lt. intros C. apply Qle_bool_iff in C. congruence.
Qed.

Lemma count_at_least_le_poss t l : (count_at_least true t l <= poss l)%Z.
Proof.
  induction l as [|[s y] l IH]; [unfold count_at_least, poss; simpl; lia|].
  rewrite count_at_least_cons, poss_cons.
  destruct y; cbn [Bool.eqb andb]; destruct (Qle_bool t s); lia.
Qed.

Lemma count_at_least_full t l :
  count_at_least true t l = poss l -> forall s, In (s, true) l -> t <= s.
Proof.
  induction l as [|[s0 y] l IH]; [intros _ ? []|].
  rewrite count_at_least_cons, poss_cons. intros H s Hs.
  pose proof (count_at_least_le_poss t l) as Hle.
  destruct Hs as [Hs|Hs].
  - injection Hs as -> ->. cbn [Bool.eqb andb] in H.
    destruct (Qle_bool t s) eqn:E; [now apply Qle_bool_iff|lia].
  - apply IH; [|exact Hs].
    destruct y; cbn [Bool.eqb andb] in H; [destruct (Qle_bool t s0)|]; lia.
Qed.

Variables (y_true : list bool) (y_score : list Q).
Hypothesis Hlen : List.length y_true = List.length y_score.
Hypothesis Hboth : both_classes y_true.

(** The selected point, read through the decision [score >= t]. *)
Lemma selected_point :
  let c := nth (eer_index y_true y_score) (curve y_true y_score)
               (0%Z, 0%Z, PosInf) in
  compute_eer y_true y_score
  = Ok (Real (avg_err (fpr_of y_true c) (tpr_of y_true c)), snd c)
  /\ (c = (0%Z, 0%Z, PosInf)
      \/ exists t, In t y_score
           /\ c = (count_at_least false t (combine y_score y_true),
                   count_at_least true t (combine y_score y_true), Real t)).
Proof.
  intros c. split; [now apply compute_eer_valid|].
  apply (curve_point y_true y_score Hlen).
  apply nth_In. apply (eer_index_spec y_true y_score).
Qed.

End Meaning.

Lemma both_classes_dec (y_true : list bool) :
  both_classes y_true \/ ~ both_classes y_true.
Proof.
  unfold both_classes.
  destruct (in_dec Bool.bool_dec true y_true);
    destruct (in_dec Bool.bool_dec false y_true); tauto.
Qed.

(** X1.  [compute_eer] returns a result exactly when the two sequences
    have the same length and both classes occur among the labels; every
    other input (different lengths, no example, one class only) ends in a
    [ValueError]. *)
Theorem compute_eer_returns_iff (y_true : list bool) (y_score : list Q) :
  ((exists r, compute_eer y_true y_score = Ok r)
   <-> List.length y_true = List.length y_score /\ both_classes y_true)
  /\ (forall e, compute_eer y_true y_score = Raise e ->
                exists msg, e = ValueError msg).
Proof.
  destruct (Nat.eq_dec (List.length y_true) (List.length y_score)) as [Hlen|Hlen].
  - destruct y_true as [|y0 yt].
    + destruct y_score; [|discriminate]. split.
      * split; [intros [r H]; discriminate|intros [_ [[] _]]].
      * intros e H. cbv in H. injection H as <-. eexists. reflexivity.
    + assert (Hne : y0 :: yt <> []) by discriminate.
      destruct (both_classes_dec (y0 :: yt)) as [Hb|Hb].
      * split.
        -- split; [intros _; now split|intros _].
           eexists. now apply compute_eer_valid.
        -- intros e H. rewrite compute_eer_valid in H by assumption. discriminate.
      * pose proof (compute_eer_one_class _ _ Hlen Hne Hb) as E. split.
        -- split; [intros [r H]; congruence|intros [_ H]; contradiction].
        -- intros e H. rewrite E in H. injection H as <-. eexists. reflexivity.
  - assert (E : compute_eer y_true y_score
                = Raise (ValueError "Found input variables with inconsistent numbers of samples")).
    { unfold compute_eer, roc_curve, binary_clf_curve.
      apply Nat.eqb_neq in Hlen. rewrite Hlen. reflexivity. }
    split.
    + split; [intros [r H]; congruence|intros [H _]; contradiction].
    + intros e H. rewrite E in H. injection H as <-. eexists. reflexivity.
Qed.

(** X2.  Every point of the curve that [compute_eer] sweeps is an
    operating point of the decision [score >= t]: the point at [+inf]
    accepts nothing (both rates are 0), and at a threshold [t], which is a
    score of the input, the false-positive rate is the share of forged
    examples with a score of at least [t] and [1 - tpr] is the share of
    genuine examples with a score below [t]. *)
Theorem roc_curve_operating_points (y_true : list bool) (y_score : list Q) :
  List.length y_true = List.length y_score ->
  both_classes y_true ->
  exists fpr tpr thresholds,
    roc_curve y_true y_score = Ok (map Real fpr, map Real tpr, thresholds)
    /\ List.length fpr = List.length thresholds
    /\ List.length tpr = List.length thresholds
    /\ forall j, (j < List.length thresholds)%nat ->
         (nth j thresholds NaN = PosInf
          /\ nth j fpr 0 == 0 /\ nth j tpr 0 == 0)
         \/ (exists t, In t y_score
               /\ nth j thresholds NaN = Real t
               /\ nth j fpr 0 == false_positive_rate y_true y_score t
               /\ 1 - nth j tpr 0 == false_negative_rate y_true y_score t).
Proof.
  intros Hlen Hb.
  set (cv := curve y_true y_score).
  set (d := (0%Z, 0%Z, PosInf)).
  exists (map (fpr_of y_true) cv), (map (tpr_of y_true) cv), (map snd cv).
  rewrite !length_map. repeat apply conj; try reflexivity.
  - rewrite roc_curve_valid by assumption. fold cv. now rewrite !map_map.
  - intros j Hj.
    rewrite (nth_map_lt _ _ (fpr_of y_true) cv j 0 d Hj),
      (nth_map_lt _ _ (tpr_of y_true) cv j 0 d Hj),
      (nth_map_lt _ _ snd cv j NaN d Hj).
    destruct (curve_point y_true y_score Hlen (nth j cv d) (nth_In _ _ Hj))
      as [->|(t & Ht & ->)].
    + left. repeat split; apply rate_zero.
    + right. exists t. repeat split; try assumption; reflexivity.
Qed.

Lemma roc_curve_operating_points_witness :
  exists fpr tpr thresholds,
    roc_curve [true; false; true; false] [6 # 10; 6 # 10; 4 # 10; 3 # 10]
    = Ok (map Real fpr, map Real tpr, thresholds)
    /\ List.length fpr = List.length thresholds
    /\ List.length tpr = List.length thresholds
    /\ forall j, (j < List.length thresholds)%nat ->
         (nth j thresholds NaN = PosInf
          /\ nth j fpr 0 == 0 /\ nth j tpr 0 == 0)
         \/ (exists t, In t [6 # 10; 6 # 10; 4 # 10; 3 # 10]
               /\ nth j thresholds NaN = Real t
               /\ nth j fpr 0
                  == false_positive_rate [true; false; true; false]
                       [6 # 10; 6 # 10; 4 # 10; 3 # 10] t
               /\ 1 - nth j tpr 0
                  == false_negative_rate [true; false; true; false]
                       [6 # 10; 6 # 10; 4 # 10; 3 # 10] t).
Proof.
  apply roc_curve_operating_points.
  - reflexivity.
  - split; [now left|right; now left].
Defined.

(** X3.  What [compute_eer] returns is read off one operating point:
    either the threshold is a score [t] of the input and the EER is the
    mean of the false-positive and false-negative rates of the decision
    [score >= t], or the threshold is [+inf] and the EER is 1/2. *)
Theorem compute_eer_meaning (y_true : list bool) (y_score : list Q) :
  List.length y_true = List.length y_score ->
  both_classes y_true ->
  exists eer thr,
    compute_eer y_true y_score = Ok (Real eer, thr)
    /\ ((thr = PosInf /\ eer == 1 # 2)
        \/ exists t, In t y_score /\ thr = Real t
             /\ eer == (false_positive_rate y_true y_score t
                        + false_negative_rate y_true y_score t) / 2).
Proof.
  intros Hlen Hb.
  destruct (selected_point y_true y_score Hlen Hb) as [E Hc].
  do 2 eexists. split; [exact E|].
  destruct Hc as [->|(t & Ht & ->)].
  - left. split; [reflexivity|].
    unfold avg_err, fpr_of, tpr_of. cbn [fst snd]. rewrite !rate_zero.
    reflexivity.
  - right. exists t. split; [exact Ht|]. split; reflexivity.
Qed.

Lemma compute_eer_meaning_witness :
  exists eer thr,
    compute_eer [true; true; true; false] [9 # 10; 8 # 10; 3 # 10; 6 # 10]
    = Ok (Real eer, thr)
    /\ ((thr = PosInf /\ eer == 1 # 2)
        \/ exists t, In t [9 # 10; 8 # 10; 3 # 10; 6 # 10] /\ thr = Real t
             /\ eer == (false_positive_rate [true; true; true; false]
                          [9 # 10; 8 # 10; 3 # 10; 6 # 10] t
                        + false_negative_rate [true; true; true; false]
                            [9 # 10; 8 # 10; 3 # 10; 6 # 10] t) / 2).
Proof.
  apply compute_eer_meaning.
  - reflexivity.
  - split; [now left|do 3 right; now left].
Defined.

(** X4.  An EER of 0 is returned only for perfectly separated scores: if
    [compute_eer] returns 0, every genuine score is greater than every
    forged score, and the returned threshold is a score that no forged
    example reaches and every genuine example does. *)
Theorem compute_eer_zero_separates (y_true : list bool) (y_score : list Q)
  (eer : Q) (thr : npfloat) :
  List.length y_true = List.length y_score ->
  both_classes y_true ->
  compute_eer y_true y_score = Ok (Real eer, thr) ->
  eer == 0 ->
  separable (combine y_score y_true)
  /\ exists t, thr = Real t
       /\ (forall b, In (b, false) (combine y_score y_true) -> b < t)
       /\ (forall g, In (g, true) (combine y_score y_true) -> t <= g).
Proof.
  intros Hlen Hb E H0.
  destruct (selected_point y_true y_score Hlen Hb) as [E' Hc].
  cbv zeta in E', Hc.
  pose proof (proj1 (eer_index_spec y_true y_score)) as Hk. cbv zeta in Hk.
  pose proof (curve_rates y_true y_score Hlen Hb _
                (nth_In _ (0%Z, 0%Z, PosInf) Hk)) as [Hf Ht].
  set (c := nth (eer_index y_true y_score) (curve y_true y_score)
                (0%Z, 0%Z, PosInf)) in *.
  assert (Ee : avg_err (fpr_of y_true c) (tpr_of y_true c) = eer) by congruence.
  assert (Et : snd c = thr) by congruence.
  rewrite <- Ee in H0. unfold avg_err in H0.
  assert (Hsum : fpr_of y_true c + (1 - tpr_of y_true c) == 0).
  { rewrite <- (Qmult_div_r (fpr_of y_true c + (1 - tpr_of y_true c)) 2)
      by discriminate.
    rewrite H0. reflexivity. }
  assert (Hf0 : fpr_of y_true c == 0) by lra.
  assert (Ht1 : tpr_of y_true c == 1) by lra.
  destruct Hb as [Hpos Hneg]. apply count_label_pos in Hpos, Hneg.
  apply rate_eq_zero in Hf0; [|exact Hneg].
  apply rate_eq_one in Ht1; [|exact Hpos].
  destruct Hc as [Hc|(t & Hin & Hc)]; rewrite Hc in Hf0, Ht1, Et;
    cbn [fst snd] in Hf0, Ht1, Et.
  - lia.
  - rewrite <- (poss_combine y_score y_true Hlen) in Ht1.
    pose proof (count_at_least_zero _ _ _ Hf0) as Hforged.
    pose proof (count_at_least_full _ _ Ht1) as Hgenuine.
    split.
    + intros g b Hg Hb. apply Qlt_le_trans with t; [now apply Hforged|now apply Hgenuine].
    + exists t. repeat split; [now symmetry|exact Hforged|exact Hgenuine].
Qed.

Lemma compute_eer_zero_separates_witness :
  separable (combine [9 # 10; 3 # 10; 8 # 10; 1 # 10] [true; false; true; false])
  /\ exists t, Real (8 # 10) = Real t
       /\ (forall b,
              In (b, false)
                 (combine [9 # 10; 3 # 10; 8 # 10; 1 # 10]
                    [true; false; true; false]) -> b < t)
       /\ (forall g,
              In (g, true)
                 (combine [9 # 10; 3 # 10; 8 # 10; 1 # 10]
                    [true; false; true; false]) -> t <= g).
Proof.
  apply (compute_eer_zero_separates [true; false; true; false]
           [9 # 10; 3 # 10; 8 # 10; 1 # 10] (0 # 8) (Real (8 # 10))).
  - reflexivity.
  - split; [now left|right; now left].
  - vm_compute. reflexivity.
  - reflexivity.
Defined.

(** ** The order of the examples does not matter *)

Section Reorder.

Lemma count_at_least_Qeq b t t' l :
  t == t' -> count_at_least b t l = count_at_least b t' l.
Proof.
  intros E. induction l as [|[s y] l IH]; [reflexivity|].
  rewrite !count_at_least_cons, IH.
  replace (Qle_bool t' s) with (Qle_bool t s); [reflexivity|].
  destruct (Qle_bool t s) eqn:H; symmetry.
  - apply Qle_bool_iff. rewrite <- E. now apply Qle_bool_iff.
  - destruct (Qle_bool t' s) eqn:H'; [|reflexivity].
    apply Qle_bool_iff in H'. rewrite <- E in H'.
    apply Qle_bool_iff in H'. congruence.
Qed.

Lemma thr_gt_head_max a L x :
  StronglySorted thr_gt (a :: L) -> In x (a :: L) -> thr_of x <= thr_of a.
Proof.
  intros Hs [<-|Hx]; [apply Qle_refl|].
  apply StronglySorted_inv in Hs. destruct Hs as [_ Ha].
  rewrite Forall_forall in Ha. apply Qlt_le_weak. now apply Ha.
Qed.

(** Two strictly decreasing lists with the same thresholds, as numbers,
    have them at the same positions. *)
Lemma same_thresholds_aligned L1 : forall L2,
  StronglySorted thr_gt L1 -> StronglySorted thr_gt L2 ->
  (forall p, In p L1 -> exists q, In q L2 /\ thr_of p == thr_of q) ->
  (forall q, In q L2 -> exists p, In p L1 /\ thr_of q == thr_of p) ->
  Forall2 (fun p q => thr_of p == thr_of q) L1 L2.
Proof.
  induction L1 as [|a L1 IH]; intros L2 H1 H2 H12 H21.
  - destruct L2 as [|b L2]; [constructor|].
    destruct (H21 b (or_introl eq_refl)) as (p & [] & _).
  - destruct L2 as [|b L2].
    { destruct (H12 a (or_introl eq_refl)) as (q & [] & _). }
    assert (Eab : thr_of a == thr_of b).
    { apply Qle_antisym.
      - destruct (H12 a (or_introl eq_refl)) as (q & Hq & E).
        rewrite E. now apply (thr_gt_head_max b L2).
      - destruct (H21 b (or_introl eq_refl)) as (p & Hp & E).
        rewrite E. now apply (thr_gt_head_max a L1). }
    pose proof H1 as H1'. pose proof H2 as H2'.
    apply StronglySorted_inv in H1'. destruct H1' as [H1t H1h].
    apply StronglySorted_inv in H2'. destruct H2' as [H2t H2h].
    rewrite Forall_forall in H1h, H2h.
    constructor; [exact Eab|]. apply IH; try assumption.
    + intros p Hp. destruct (H12 p (or_intror Hp)) as (q & [<-|Hq] & E).
      * exfalso. specialize (H1h _ Hp). unfold thr_gt in H1h.
        rewrite E, <- Eab in H1h. eapply Qlt_irrefl; eassumption.
      * exists q. split; assumption.
    + intros q Hq. destruct (H21 q (or_intror Hq)) as (p & [<-|Hp] & E).
      * exfalso. specialize (H2h _ Hq). unfold thr_gt in H2h.
        rewrite E, Eab in H2h. eapply Qlt_irrefl; eassumption.
      * exists p. split; assumption.
Qed.

Lemma Forall2_In_impl (A B : Type) (R S : A -> B -> Prop) (l : list A)
  (m : list B) :
  (forall a b, In a l -> In b m -> R a b -> S a b) ->
  Forall2 R l m -> Forall2 S l m.
Proof.
  intros H F. induction F as [|a b l m Hab F IH]; constructor.
  - apply H; [now left|now left|exact Hab].
  - apply IH. intros x y Hx Hy. apply H; now right.
Qed.

Lemma sweep_perm l1 l2 :
  descending l1 -> descending l2 -> Permutation l1 l2 ->
  Forall2 same_point (sweep 0 0 l1) (sweep 0 0 l2).
Proof.
  intros H1 H2 P.
  assert (Hcover : forall la lb, Permutation la lb ->
            forall p, In p (sweep 0 0 la) ->
            exists q, In q (sweep 0 0 lb) /\ thr_of p == thr_of q).
  { intros la lb Pab p Hp. apply sweep_thr_in in Hp.
    apply (Permutation_in _ (Permutation_map fst Pab)) in Hp.
    destruct (sweep_complete lb 0%Z 0%Z _ Hp) as (q & Hq & E).
    exists q. split; [exact Hq|now symmetry]. }
  apply (Forall2_In_impl _ _ (fun p q => thr_of p == thr_of q)).
  - intros p q Hp Hq E.
    destruct (sweep_counts _ _ _ _ H1 Hp) as [Hf1 Ht1].
    destruct (sweep_counts _ _ _ _ H2 Hq) as [Hf2 Ht2].
    rewrite (count_at_least_perm _ _ _ _ P),
      (count_at_least_Qeq _ _ _ _ E) in Hf1.
    rewrite (count_at_least_perm _ _ _ _ P),
      (count_at_least_Qeq _ _ _ _ E) in Ht1.
    split; [congruence|]. split; [congruence|exact E].
  - apply same_thresholds_aligned.
    + now apply sweep_thr_desc.
    + now apply sweep_thr_desc.
    + now apply Hcover.
    + apply Hcover. now apply Permutation_sym.
Qed.

Lemma keep_same a b c a' b' c' :
  same_point a a' -> same_point b b' -> same_point c c' ->
  keep a b c = keep a' b' c'.
Proof.
  intros (Ha1 & Ha2 & _) (Hb1 & Hb2 & _) (Hc1 & Hc2 & _).
  unfold keep. now rewrite Ha1, Ha2, Hb1, Hb2, Hc1, Hc2.
Qed.

Lemma drop_mid_same l l' :
  Forall2 same_point l l' ->
  forall a a', same_point a a' ->
  Forall2 same_point (drop_mid a l) (drop_mid a' l').
Proof.
  induction 1 as [|b b' l l' Hb F IH]; intros a a' Ha; [constructor|].
  destruct F as [|c c' l l' Hc F].
  - cbn [drop_mid]. constructor; [exact Hb|constructor].
  - rewrite !drop_mid_cons2, (keep_same a b c a' b' c') by assumption.
    specialize (IH b b' Hb).
    destruct (keep a' b' c'); [constructor; assumption|exact IH].
Qed.

Lemma drop_intermediate_same l l' :
  Forall2 same_point l l' ->
  Forall2 same_point (drop_intermediate l) (drop_intermediate l').
Proof.
  intros F. destruct F as [|a a' m m' Ha F]; [constructor|].
  cbn [drop_intermediate]. constructor; [exact Ha|].
  now apply drop_mid_same.
Qed.

Lemma curve_same (yt yt' : list bool) (ys ys' : list Q) :
  Permutation (combine ys yt) (combine ys' yt') ->
  Forall2 (fun c c' : Z * Z * npfloat =>
             fst c = fst c' /\ same_float (snd c) (snd c'))
          (curve yt ys) (curve yt' ys').
Proof.
  intros P. unfold curve. constructor; [split; [reflexivity|exact I]|].
  assert (F : Forall2 same_point (roc_points yt ys) (roc_points yt' ys')).
  { apply drop_intermediate_same, sweep_perm;
      try apply sorted_desc_descending.
    rewrite (sorted_desc_perm yt ys), P. symmetry. apply sorted_desc_perm. }
  induction F as [|p q l m (H1 & H2 & H3) F IH]; cbn [map]; constructor.
  - cbn [fst snd same_float]. split; [congruence|exact H3].
  - exact IH.
Qed.

End Reorder.

Lemma Forall2_nth (A B : Type) (R : A -> B -> Prop) (l : list A) (m : list B)
  (d : A) (d' : B) :
  Forall2 R l m -> R d d' -> forall k, R (nth k l d) (nth k m d').
Proof.
  intros F Hd. induction F as [|a b l m Hab F IH]; intros [|k]; cbn [nth];
    auto.
Qed.

Lemma count_label_perm (yt yt' : list bool) (ys ys' : list Q) (b : bool) :
  List.length yt = List.length ys -> List.length yt' = List.length ys' ->
  Permutation (combine ys yt) (combine ys' yt') ->
  count_label b yt = count_label b yt'.
Proof.
  intros H H' P. destruct b.
  - rewrite <- (poss_combine ys yt H), <- (poss_combine ys' yt' H').
    now apply poss_perm.
  - rewrite <- (negs_combine ys yt H), <- (negs_combine ys' yt' H').
    now apply negs_perm.
Qed.

(** X5.  [compute_eer] does not depend on the order of the test examples:
    presented in another order, the same labelled scores give the same
    EER and the same threshold (as a number). *)
Theorem compute_eer_order_independent (y_true y_true' : list bool)
  (y_score y_score' : list Q) :
  List.length y_true = List.length y_score ->
  List.length y_true' = List.length y_score' ->
  Permutation (combine y_score y_true) (combine y_score' y_true') ->
  both_classes y_true ->
  exists eer thr thr',
    compute_eer y_true y_score = Ok (Real eer, thr)
    /\ compute_eer y_true' y_score' = Ok (Real eer, thr')
    /\ same_float thr thr'.
Proof.
  intros Hlen Hlen' P Hb.
  pose proof (count_label_perm _ _ _ _ true Hlen Hlen' P) as HP.
  pose proof (count_label_perm _ _ _ _ false Hlen Hlen' P) as HN.
  assert (Hb' : both_classes y_true').
  { destruct Hb as [H1 H2]. apply count_label_pos in H1, H2.
    split; apply count_label_pos; congruence. }
  pose proof (curve_same y_true y_true' y_score y_score' P) as F.
  assert (Hrates : forall c c' : Z * Z * npfloat,
             fst c = fst c' ->
             fpr_of y_true c = fpr_of y_true' c'
             /\ tpr_of y_true c = tpr_of y_true' c').
  { intros c c' E. unfold fpr_of, tpr_of. now rewrite E, HP, HN. }
  assert (Hidx : eer_index y_true y_score = eer_index y_true' y_score').
  { unfold eer_index. do 2 f_equal.
    induction F as [|c c' l m [E _] F IH]; cbn [map]; [reflexivity|].
    destruct (Hrates c c' E) as [-> ->]. now rewrite IH. }
  set (d := (0%Z, 0%Z, PosInf)).
  assert (Hd : fst d = fst d /\ same_float (snd d) (snd d)) by (split; [reflexivity|exact I]).
  destruct (Forall2_nth _ _ _ _ _ d d F Hd (eer_index y_true y_score)) as [E Hthr].
  do 3 eexists. split; [|split].
  - now apply compute_eer_valid.
  - rewrite compute_eer_valid by assumption. rewrite <- Hidx.
    fold d. destruct (Hrates _ _ E) as [<- <-]. reflexivity.
  - exact Hthr.
Qed.

Lemma compute_eer_order_independent_witness :
  exists eer thr thr',
    compute_eer [true; false; true; false] [6 # 10; 3 # 5; 4 # 10; 3 # 10]
    = Ok (Real eer, thr)
    /\ compute_eer (rev [true; false; true; false])
         (rev [6 # 10; 3 # 5; 4 # 10; 3 # 10])
       = Ok (Real eer, thr')
    /\ same_float thr thr'.
Proof.
  apply compute_eer_order_independent.
  - reflexivity.
  - reflexivity.
  - exact (Permutation_rev
             (combine [6 # 10; 3 # 5; 4 # 10; 3 # 10] [true; false; true; false])).
  - split; [now left|right; now left].
Defined.

(** ** The classification metrics *)

Section MetricFacts.

Import Metrics.

Lemma count_where_cons f t p y_true y_pred :
  count_where f (t :: y_true) (p :: y_pred)
  = ((if f t p then 1 else 0) + count_where f y_true y_pred)%Z.
Proof.
  unfold count_where. cbn [combine filter fst snd].
  destruct (f t p); cbn [List.length]; lia.
Qed.

Lemma count_where_bounds f y_true : forall y_pred,
  List.length y_true = List.length y_pred ->
  (0 <= count_where f y_true y_pred <= Z.of_nat (List.length y_true))%Z.
Proof.
  induction y_true as [|t yt IH]; intros [|p yp] H; try discriminate.
  - unfold count_where. simpl. lia.
  - rewrite count_where_cons. cbn [List.length].
    specialize (IH yp ltac:(simpl in H; lia)). destruct (f t p); lia.
Qed.

Lemma count_where_full f y_true : forall y_pred,
  List.length y_true = List.length y_pred ->
  (count_where f y_true y_pred = Z.of_nat (List.length y_true)
   <-> Forall2 (fun t p => f t p = true) y_true y_pred).
Proof.
  induction y_true as [|t yt IH]; intros [|p yp] H; try discriminate.
  - split; [constructor|reflexivity].
  - rewrite count_where_cons. cbn [List.length].
    assert (H' : List.length yt = List.length yp) by (simpl in H; lia).
    pose proof (count_where_bounds f yt yp H') as Hb.
    specialize (IH yp H'). split.
    + intros E. destruct (f t p) eqn:Ef; [|lia].
      constructor; [exact Ef|]. apply IH. lia.
    + intros F. inversion F as [|? ? ? ? Ef F']; subst.
      rewrite Ef. apply IH in F'. lia.
Qed.

Lemma count_where_zero f y_true : forall y_pred,
  List.length y_true = List.length y_pred ->
  (count_where f y_true y_pred = 0%Z
   <-> Forall2 (fun t p => f t p = false) y_true y_pred).
Proof.
  induction y_true as [|t yt IH]; intros [|p yp] H; try discriminate.
  - split; [constructor|reflexivity].
  - rewrite count_where_cons.
    assert (H' : List.length yt = List.length yp) by (simpl in H; lia).
    pose proof (count_where_bounds f yt yp H') as Hb.
    specialize (IH yp H'). split.
    + intros E. destruct (f t p) eqn:Ef; [lia|].
      constructor; [exact Ef|]. apply IH. lia.
    + intros F. inversion F as [|? ? ? ? Ef F']; subst.
      rewrite Ef. apply IH in F'. lia.
Qed.

Lemma Forall2_eqb_eq (y_true y_pred : list bool) :
  Forall2 (fun t p => Bool.eqb t p = true) y_true y_pred <-> y_pred = y_true.
Proof.
  split.
  - induction 1 as [|t p yt yp E _ IH]; [reflexivity|].
    apply Bool.eqb_prop in E. now subst.
  - intros ->. induction y_true as [|t yt IH]; constructor.
    + apply Bool.eqb_reflx.
    + exact IH.
Qed.

Lemma Forall2_eqb_neg (y_true y_pred : list bool) :
  Forall2 (fun t p => Bool.eqb t p = false) y_true y_pred
  <-> y_pred = map negb y_true.
Proof.
  split.
  - induction 1 as [|t p yt yp E _ IH]; [reflexivity|].
    cbn [map]. subst. f_equal. now destruct t, p.
  - intros ->. induction y_true as [|t yt IH]; cbn [map]; constructor.
    + now destruct t.
    + exact IH.
Qed.

(** X6.  The accuracy of predictions on a non-empty test set is a number
    between 0 and 1; it is 1 exactly when every prediction equals its
    label and 0 exactly when every prediction is the opposite label. *)
Theorem accuracy_score_range (y_true y_pred : list bool) :
  List.length y_true = List.length y_pred ->
  y_true <> [] ->
  exists acc,
    accuracy_score y_true y_pred = Ok (Real acc)
    /\ 0 <= acc <= 1
    /\ (acc == 1 <-> y_pred = y_true)
    /\ (acc == 0 <-> y_pred = map negb y_true).
Proof.
  intros Hlen Hne. unfold accuracy_score, check_consistent_length.
  rewrite (proj2 (Nat.eqb_eq _ _) Hlen). cbn [bind].
  destruct y_true as [|t yt]; [congruence|].
  set (y := t :: yt) in *. eexists. split; [reflexivity|].
  assert (Hn : (0 < Z.of_nat (List.length y))%Z) by (unfold y; simpl; lia).
  pose proof (count_where_bounds Bool.eqb y y_pred Hlen) as Hb.
  split; [now apply rate_bounds|]. split.
  - rewrite <- Forall2_eqb_eq, <- (count_where_full Bool.eqb y y_pred Hlen).
    split.
    + now apply rate_eq_one.
    + intros ->. now apply rate_full.
  - rewrite <- Forall2_eqb_neg, <- (count_where_zero Bool.eqb y y_pred Hlen).
    split.
    + now apply rate_eq_zero.
    + intros ->. apply rate_zero.
Qed.

Lemma accuracy_score_range_witness :
  exists acc,
    accuracy_score [true; true; true; false] [true; true; false; true]
    = Ok (Real acc)
    /\ 0 <= acc <= 1
    /\ (acc == 1 <-> [true; true; false; true] = [true; true; true; false])
    /\ (acc == 0
        <-> [true; true; false; true] = map negb [true; true; true; false]).
Proof.
  apply accuracy_score_range.
  - reflexivity.
  - discriminate.
Defined.

End MetricFacts.

Section PrecisionRecall.

Import Metrics.

Lemma predicted_positives (y_true : list bool) : forall y_pred,
  List.length y_true = List.length y_pred ->
  (tp_sum y_true y_pred + fp_sum y_true y_pred)%Z = count_label true y_pred.
Proof.
  unfold tp_sum, fp_sum.
  induction y_true as [|t yt IH]; intros [|p yp] H; try discriminate.
  - reflexivity.
  - rewrite !count_where_cons, count_label_cons.
    rewrite <- (IH yp) by (simpl in H; lia).
    destruct t, p; cbn [andb negb Bool.eqb]; lia.
Qed.

Lemma actual_positives (y_true : list bool) : forall y_pred,
  List.length y_true = List.length y_pred ->
  (tp_sum y_true y_pred + fn_sum y_true y_pred)%Z = count_label true y_true.
Proof.
  unfold tp_sum, fn_sum.
  induction y_true as [|t yt IH]; intros [|p yp] H; try discriminate.
  - reflexivity.
  - rewrite !count_where_cons, count_label_cons.
    rewrite <- (IH yp) by (simpl in H; lia).
    destruct t, p; cbn [andb negb Bool.eqb]; lia.
Qed.

Lemma sums_nonneg (y_true y_pred : list bool) :
  (0 <= tp_sum y_true y_pred)%Z /\ (0 <= fp_sum y_true y_pred)%Z
  /\ (0 <= fn_sum y_true y_pred)%Z.
Proof.
  unfold tp_sum, fp_sum, fn_sum, count_where. lia.
Qed.

Lemma prf_divide_spec (a b : Z) :
  (0 <= a <= b)%Z ->
  exists x, prf_divide a b = Real x /\ 0 <= x <= 1
    /\ (b = 0%Z -> x == 0)
    /\ ((0 < b)%Z -> x = inject_Z a / inject_Z b).
Proof.
  intros H. unfold prf_divide. destruct (Z.eqb_spec b 0) as [->|Hb].
  - exists 0. split; [reflexivity|]. split; [split; discriminate|].
    split; [reflexivity|lia].
  - eexists. split; [reflexivity|]. split; [apply rate_bounds; lia|].
    split; [intros; lia|reflexivity].
Qed.

(** X7.  Precision and recall of predictions of the right length are
    numbers between 0 and 1.  Precision is 0 when nothing is predicted
    positive and is 1 exactly when something is and every predicted
    positive is labelled positive; recall is 0 when no label is positive
    and is 1 exactly when some label is and every positive label is
    predicted positive. *)
Theorem precision_recall_range (y_true y_pred : list bool) :
  List.length y_true = List.length y_pred ->
  exists pre rec,
    precision_score y_true y_pred = Ok (Real pre)
    /\ recall_score y_true y_pred = Ok (Real rec)
    /\ 0 <= pre <= 1 /\ 0 <= rec <= 1
    /\ (~ In true y_pred -> pre == 0)
    /\ (~ In true y_true -> rec == 0)
    /\ (pre == 1
        <-> In true y_pred
            /\ Forall2 (fun t p => p = true -> t = true) y_true y_pred)
    /\ (rec == 1
        <-> In true y_true
            /\ Forall2 (fun t p => t = true -> p = true) y_true y_pred).
Proof.
  intros Hlen. unfold precision_score, recall_score, check_consistent_length.
  rewrite (proj2 (Nat.eqb_eq _ _) Hlen). cbn [bind].
  destruct (sums_nonneg y_true y_pred) as (Htp & Hfp & Hfn).
  pose proof (predicted_positives y_true y_pred Hlen) as Epp.
  pose proof (actual_positives y_true y_pred Hlen) as Eap.
  destruct (prf_divide_spec (tp_sum y_true y_pred)
              (tp_sum y_true y_pred + fp_sum y_true y_pred) ltac:(lia))
    as (pre & -> & Hpre & Hpre0 & Hpre1).
  destruct (prf_divide_spec (tp_sum y_true y_pred)
              (tp_sum y_true y_pred + fn_sum y_true y_pred) ltac:(lia))
    as (rec & -> & Hrec & Hrec0 & Hrec1).
  exists pre, rec.
  split; [reflexivity|]. split; [reflexivity|].
  split; [exact Hpre|]. split; [exact Hrec|].
  split; [|split; [|split]].
  - intros H. apply Hpre0. rewrite Epp.
    pose proof (count_label_nonneg true y_pred).
    destruct (Z.eq_dec (count_label true y_pred) 0); [assumption|].
    exfalso. apply H, count_label_pos. lia.
  - intros H. apply Hrec0. rewrite Eap.
    pose proof (count_label_nonneg true y_true).
    destruct (Z.eq_dec (count_label true y_true) 0); [assumption|].
    exfalso. apply H, count_label_pos. lia.
  - rewrite count_label_pos, <- Epp.
    assert (Hz : fp_sum y_true y_pred = 0%Z
                 <-> Forall2 (fun t p => p = true -> t = true) y_true y_pred).
    { unfold fp_sum. rewrite (count_where_zero _ y_true y_pred Hlen).
      split; intros F; eapply Forall2_impl; try exact F; cbn beta;
        intros t p; destruct t, p; cbn; intuition congruence. }
    rewrite <- Hz. split.
    + intros E.
      destruct (Z.eq_dec (tp_sum y_true y_pred + fp_sum y_true y_pred) 0) as [Z0|Z0].
      * rewrite (Hpre0 Z0) in E. discriminate.
      * rewrite Hpre1 in E by lia. apply rate_eq_one in E; lia.
    + intros [Hpos Hfp0]. rewrite Hpre1 by exact Hpos.
      rewrite Hfp0, Z.add_0_r in *. now apply rate_full.
  - rewrite count_label_pos, <- Eap.
    assert (Hz : fn_sum y_true y_pred = 0%Z
                 <-> Forall2 (fun t p => t = true -> p = true) y_true y_pred).
    { unfold fn_sum. rewrite (count_where_zero _ y_true y_pred Hlen).
      split; intros F; eapply Forall2_impl; try exact F; cbn beta;
        intros t p; destruct t, p; cbn; intuition congruence. }
    rewrite <- Hz. split.
    + intros E.
      destruct (Z.eq_dec (tp_sum y_true y_pred + fn_sum y_true y_pred) 0) as [Z0|Z0].
      * rewrite (Hrec0 Z0) in E. discriminate.
      * rewrite Hrec1 in E by lia. apply rate_eq_one in E; lia.
    + intros [Hpos Hfn0]. rewrite Hrec1 by exact Hpos.
      rewrite Hfn0, Z.add_0_r in *. now apply rate_full.
Qed.

End PrecisionRecall.

Lemma precision_recall_range_witness :
  exists pre rec,
    precision_score [true; true; true; false] [true; true; false; true]
    = Ok (Real pre)
    /\ recall_score [true; true; true; false] [true; true; false; true]
       = Ok (Real rec)
    /\ 0 <= pre <= 1 /\ 0 <= rec <= 1
    /\ (~ In true [true; true; false; true] -> pre == 0)
    /\ (~ In true [true; true; true; false] -> rec == 0)
    /\ (pre == 1
        <-> In true [true; true; false; true]
            /\ Forall2 (fun t p => p = true -> t = true)
                 [true; true; true; false] [true; true; false; true])
    /\ (rec == 1
        <-> In true [true; true; true; false]
            /\ Forall2 (fun t p => t = true -> p = true)
                 [true; true; true; false] [true; true; false; true]).
Proof.
  apply precision_recall_range. reflexivity.
Defined.

Section FScore.

Import Metrics.

Lemma harmonic_mean (a b c : Q) :
  0 < a -> 0 <= b -> 0 <= c ->
  2 * a / (2 * a + b + c)
  == 2 * (a / (a + b)) * (a / (a + c)) / (a / (a + b) + a / (a + c)).
Proof.
  intros Ha Hb Hc. field. repeat split; try lra.
  nra.
Qed.

(** X8.  The F1 score is a number between 0 and 1 and is the harmonic mean
    of precision and recall: [2 * pre * rec / (pre + rec)] when one of
    them is positive, and 0 when both are 0. *)
Theorem f1_score_harmonic_mean (y_true y_pred : list bool) :
  List.length y_true = List.length y_pred ->
  exists pre rec f1,
    precision_score y_true y_pred = Ok (Real pre)
    /\ recall_score y_true y_pred = Ok (Real rec)
    /\ f1_score y_true y_pred = Ok (Real f1)
    /\ 0 <= f1 <= 1
    /\ (0 < pre + rec -> f1 == 2 * pre * rec / (pre + rec))
    /\ (pre + rec == 0 -> f1 == 0).
Proof.
  intros Hlen.
  unfold precision_score, recall_score, f1_score, check_consistent_length.
  rewrite (proj2 (Nat.eqb_eq _ _) Hlen). cbn [bind].
  destruct (sums_nonneg y_true y_pred) as (Htp & Hfp & Hfn).
  set (tp := tp_sum y_true y_pred) in *.
  set (fp := fp_sum y_true y_pred) in *.
  set (fn := fn_sum y_true y_pred) in *.
  destruct (prf_divide_spec tp (tp + fp) ltac:(lia))
    as (pre & -> & Hpre & Hpre0 & Hpre1).
  destruct (prf_divide_spec tp (tp + fn) ltac:(lia))
    as (rec & -> & Hrec & Hrec0 & Hrec1).
  destruct (prf_divide_spec (2 * tp) (2 * tp + fp + fn) ltac:(lia))
    as (f1 & -> & Hf & Hf0 & Hf1).
  exists pre, rec, f1.
  split; [reflexivity|]. split; [reflexivity|]. split; [reflexivity|].
  split; [exact Hf|].
  destruct (Z.eq_dec tp 0) as [E0|E0].
  - assert (Ep : pre == 0).
    { destruct (Z.eq_dec (tp + fp) 0) as [Z0|Z0]; [now apply Hpre0|].
      rewrite Hpre1 by lia. rewrite E0. apply rate_zero. }
    assert (Er : rec == 0).
    { destruct (Z.eq_dec (tp + fn) 0) as [Z0|Z0]; [now apply Hrec0|].
      rewrite Hrec1 by lia. rewrite E0. apply rate_zero. }
    assert (Ef : f1 == 0).
    { destruct (Z.eq_dec (2 * tp + fp + fn) 0) as [Z0|Z0]; [now apply Hf0|].
      rewrite Hf1 by lia. rewrite E0. apply rate_zero. }
    split; [intros H; rewrite Ep, Er in H; discriminate|intros _; exact Ef].
  - assert (Ha : 0 < inject_Z tp)
      by (change 0 with (inject_Z 0); rewrite <- Zlt_Qlt; lia).
    assert (Hb : 0 <= inject_Z fp)
      by (change 0 with (inject_Z 0); now rewrite <- Zle_Qle).
    assert (Hc : 0 <= inject_Z fn)
      by (change 0 with (inject_Z 0); now rewrite <- Zle_Qle).
    rewrite Hpre1, Hrec1, Hf1 by lia.
    rewrite !inject_Z_plus, inject_Z_mult.
    change (inject_Z 2) with 2.
    pose proof (harmonic_mean _ _ _ Ha Hb Hc) as Hm.
    assert (Hpos : 0 < inject_Z tp / (inject_Z tp + inject_Z fp)
                       + inject_Z tp / (inject_Z tp + inject_Z fn)).
    { assert (0 < inject_Z tp / (inject_Z tp + inject_Z fp))
        by (apply Qlt_shift_div_l; lra).
      assert (0 < inject_Z tp / (inject_Z tp + inject_Z fn))
        by (apply Qlt_shift_div_l; lra).
      lra. }
    split; [intros _; exact Hm|].
    intros H. rewrite H in Hpos. discriminate.
Qed.

Lemma f1_score_harmonic_mean_witness :
  exists pre rec f1,
    precision_score [true; true; true; false] [true; true; false; true]
    = Ok (Real pre)
    /\ recall_score [true; true; true; false] [true; true; false; true]
       = Ok (Real rec)
    /\ f1_score [true; true; true; false] [true; true; false; true]
       = Ok (Real f1)
    /\ 0 <= f1 <= 1
    /\ (0 < pre + rec -> f1 == 2 * pre * rec / (pre + rec))
    /\ (pre + rec == 0 -> f1 == 0).
Proof.
  apply f1_score_harmonic_mean. reflexivity.
Defined.

End FScore.

(** ** The evaluation loop on any registry *)

Section LoopInvariants.

Import Notebook Metrics.

Variable Features : Type.
Variables (X_train_scaled : Features) (y_train : list bool).
Variables (X_test_scaled : Features) (y_test : list bool).

Let eval := evaluate_model Features X_train_scaled y_train X_test_scaled y_test.
Let loop := evaluate_all Features X_train_scaled y_train X_test_scaled y_test.

Lemma evaluate_model_well_formed name model row :
  y_test <> [] -> eval name model = Ok row -> well_formed_row [name] row.
Proof.
  intros Hne. unfold eval, evaluate_model.
  destruct (predict_proba Features model) as [proba|]; [|discriminate].
  set (y_pred := predict Features model _ X_test_scaled).
  unfold accuracy_score, precision_score, recall_score, f1_score,
    check_consistent_length.
  destruct (Nat.eqb_spec (List.length y_test) (List.length y_pred)) as [Hlen|];
    [|discriminate].
  cbn [bind]. destruct y_test as [|y0 yt] eqn:Ey; [congruence|].
  rewrite <- Ey in *. clear Hne.
  destruct (sums_nonneg y_test y_pred) as (Htp & Hfp & Hfn).
  destruct (prf_divide_spec (tp_sum y_test y_pred)
              (tp_sum y_test y_pred + fp_sum y_test y_pred) ltac:(lia))
    as (pre & Epre & Hpre & _).
  destruct (prf_divide_spec (tp_sum y_test y_pred)
              (tp_sum y_test y_pred + fn_sum y_test y_pred) ltac:(lia))
    as (rec & Erec & Hrec & _).
  destruct (prf_divide_spec (2 * tp_sum y_test y_pred)
              (2 * tp_sum y_test y_pred + fp_sum y_test y_pred
               + fn_sum y_test y_pred) ltac:(lia))
    as (f1 & Ef1 & Hf1 & _).
  rewrite Epre, Erec, Ef1. intros E. injection E as <-.
  split.
  - exists name. split; [reflexivity|now left].
  - assert (Hacc : 0 <= inject_Z (count_where Bool.eqb y_test y_pred)
                        / inject_Z (Z.of_nat (List.length y_test)) <= 1).
    { apply rate_bounds; [now apply count_where_bounds|].
      rewrite Ey. simpl. lia. }
    intros k [<-|[<-|[<-|[<-|[]]]]]; eexists; (split; [reflexivity|assumption]).
Qed.

Lemma well_formed_row_incl names names' row :
  incl names names' -> well_formed_row names row -> well_formed_row names' row.
Proof.
  intros Hi [(name & E & Hin) H]. split; [|exact H].
  exists name. split; [exact E|now apply Hi].
Qed.

(** X9.  Whatever the registry, the loop only appends: when it ends,
    [results] is the former list followed by one row per model of a
    prefix of the registry, in order; the loop ends normally exactly when
    that prefix is the whole registry, and otherwise it ends with the
    exception of the first model that fails. *)
Theorem evaluate_all_appends (items : list (string * classifier Features)) :
  forall results : list (dict value),
  exists rows,
    fst (loop items results) = results ++ rows
    /\ Forall2 (fun item row => eval (fst item) (snd item) = Ok row)
               (firstn (List.length rows) items) rows
    /\ (snd (loop items results) = Ok tt
        <-> List.length rows = List.length items)
    /\ (forall e, snd (loop items results) = Raise e ->
          exists name model,
            nth_error items (List.length rows) = Some (name, model)
            /\ eval name model = Raise e).
Proof.
  induction items as [|[name model] items IH]; intros results.
  - exists []. cbn. rewrite app_nil_r. repeat split; try constructor.
    intros e H. discriminate.
  - unfold loop in *. cbn [evaluate_all].
    destruct (evaluate_model Features X_train_scaled y_train X_test_scaled
                y_test name model) as [row|e0] eqn:E.
    + destruct (IH (results ++ [row])) as (rows & H1 & H2 & H3 & H4).
      exists (row :: rows). rewrite H1, <- app_assoc. cbn [app List.length firstn].
      split; [reflexivity|]. split; [constructor; [exact E|exact H2]|].
      split.
      * rewrite H3. split; intros H; lia.
      * intros e He. cbn [nth_error]. now apply H4.
    + exists []. cbn [fst snd List.length firstn nth_error].
      rewrite app_nil_r. split; [reflexivity|]. split; [constructor|].
      split.
      * split; intros H; discriminate.
      * intros e He. injection He as <-. exists name, model.
        split; [reflexivity|exact E].
Qed.

(** X10.  On a non-empty test set every row that the loop appends,
    whether or not the run ends normally, carries the name of a model of
    the registry and an accuracy, a precision, a recall and an F1 score
    between 0 and 1. *)
Theorem evaluate_all_rows_well_formed
  (items : list (string * classifier Features)) (row : dict value) :
  y_test <> [] ->
  In row (fst (loop items [])) ->
  well_formed_row (map fst items) row.
Proof.
  intros Hne.
  assert (H : forall results names,
             Forall (well_formed_row names) results ->
             Forall (well_formed_row (names ++ map fst items))
                    (fst (loop items results))).
  { induction items as [|[name model] items IH]; intros results names F.
    - cbn. rewrite app_nil_r. exact F.
    - unfold loop in *. cbn [evaluate_all map fst].
      destruct (evaluate_model Features X_train_scaled y_train X_test_scaled
                  y_test name model) as [r|e0] eqn:E.
      + replace (names ++ name :: map fst items)
          with ((names ++ [name]) ++ map fst items)
          by (rewrite <- app_assoc; reflexivity).
        apply IH. apply Forall_app. split.
        * eapply Forall_impl; [|exact F]. intros x.
          apply well_formed_row_incl. apply incl_appl, incl_refl.
        * constructor; [|constructor].
          apply (well_formed_row_incl [name]);
            [apply incl_appr, incl_refl|].
          now apply (evaluate_model_well_formed name model).
      + cbn [fst]. eapply Forall_impl; [|exact F]. intros x.
        apply well_formed_row_incl. apply incl_appl, incl_refl. }
  intros Hin. specialize (H [] [] (Forall_nil _)).
  rewrite Forall_forall in H. now apply H.
Qed.

End LoopInvariants.

Lemma evaluate_all_rows_well_formed_witness :
  well_formed_row
    (map fst [("A", threshold_classifier); ("B", margin_classifier)])
    [("Model", Str "A"); ("Accuracy", Num (Real (2 # 4)));
     ("Precision", Num (Real (2 # 3))); ("Recall", Num (Real (2 # 3)));
     ("F1", Num (Real (4 # 6)))].
Proof.
  apply (evaluate_all_rows_well_formed (list Q) [] []
           [9 # 10; 8 # 10; 3 # 10; 6 # 10] [true; true; true; false]
           [("A", threshold_classifier); ("B", margin_classifier)]).
  - discriminate.
  - now left.
Defined.

(** ** [roc_curve] itself never raises on labelled scores *)

Section RocTotal.

Lemma sweep_length l : forall fp tp,
  (List.length (sweep fp tp l) <= List.length l)%nat.
Proof.
  induction l as [|[s y] t IH]; intros fp tp; [apply Nat.le_refl|].
  destruct t as [|[s' y'] t'].
  - apply Nat.le_refl.
  - rewrite sweep_cons2.
    specialize (IH (fp + (if y then 0 else 1))%Z (tp + (if y then 1 else 0))%Z).
    destruct (Qeq_bool s s'); cbn [List.length] in *; lia.
Qed.

Lemma drop_mid_length l : forall a,
  (List.length (drop_mid a l) <= List.length l)%nat.
Proof.
  induction l as [|b l IH]; intros a; [apply Nat.le_refl|].
  destruct l as [|c l]; [apply Nat.le_refl|].
  rewrite drop_mid_cons2. specialize (IH b).
  destruct (keep a b c); cbn [List.length] in *; lia.
Qed.

Lemma roc_points_length y_true y_score :
  List.length y_true = List.length y_score ->
  (List.length (roc_points y_true y_score) <= List.length y_score)%nat.
Proof.
  intros Hlen. unfold roc_points.
  pose proof (sweep_length (sorted_desc y_true y_score) 0%Z 0%Z) as H.
  rewrite sorted_desc_length in H by exact Hlen.
  destruct (sweep 0 0 (sorted_desc y_true y_score)) as [|a l];
    cbn [drop_intermediate List.length] in *; [lia|].
  pose proof (drop_mid_length l a). lia.
Qed.

(** X11.  On non-empty labelled scores [roc_curve] returns three arrays of
    one length, between 2 and the number of examples plus 1, and does not
    raise even when a class is missing: the false-positive rates are
    numbers when some label is negative and all NaN otherwise, the
    true-positive rates are numbers when some label is positive and all
    NaN otherwise. *)
Theorem roc_curve_total (y_true : list bool) (y_score : list Q) :
  List.length y_true = List.length y_score ->
  y_true <> [] ->
  exists fpr tpr thresholds,
    roc_curve y_true y_score = Ok (fpr, tpr, thresholds)
    /\ List.length fpr = List.length thresholds
    /\ List.length tpr = List.length thresholds
    /\ (2 <= List.length thresholds <= S (List.length y_score))%nat
    /\ (In false y_true -> Forall (fun x => exists q, x = Real q) fpr)
    /\ (~ In false y_true -> Forall (fun x => x = NaN) fpr)
    /\ (In true y_true -> Forall (fun x => exists q, x = Real q) tpr)
    /\ (~ In true y_true -> Forall (fun x => x = NaN) tpr).
Proof.
  intros Hlen Hne.
  pose proof (roc_points_nonempty y_true y_score Hlen Hne) as Hp.
  pose proof (roc_points_length y_true y_score Hlen) as Hl.
  destruct (curve_last_counts y_true y_score Hlen Hne) as [Hf Ht].
  do 3 eexists. split; [now apply roc_curve_points|].
  rewrite !rates_length. cbn [List.length]. rewrite !length_map.
  assert (Hreal : forall counts total,
             last counts 0%Z = total -> (0 < total)%Z ->
             Forall (fun x => exists q, x = Real q) (rates counts)).
  { intros counts total E H. rewrite (rates_real _ _ E H).
    apply Forall_map, Forall_forall. intros c _. eexists. reflexivity. }
  assert (Hnan : forall counts,
             (last counts 0 <= 0)%Z -> Forall (fun x => x = NaN) (rates counts)).
  { intros counts H. rewrite (rates_nan _ H).
    apply Forall_forall. intros x Hx. now apply repeat_spec in Hx. }
  split; [reflexivity|]. split; [reflexivity|]. split.
  { destruct (roc_points y_true y_score); [congruence|].
    cbn [List.length] in *. lia. }
  split; [|split; [|split]].
  - intros H. apply count_label_pos in H. now apply (Hreal _ _ Hf).
  - intros H. apply Hnan. rewrite Hf.
    pose proof (count_label_nonneg false y_true).
    destruct (Z_le_gt_dec (count_label false y_true) 0); [assumption|].
    exfalso. apply H, count_label_pos. lia.
  - intros H. apply count_label_pos in H. now apply (Hreal _ _ Ht).
  - intros H. apply Hnan. rewrite Ht.
    pose proof (count_label_nonneg true y_true).
    destruct (Z_le_gt_dec (count_label true y_true) 0); [assumption|].
    exfalso. apply H, count_label_pos. lia.
Qed.

Lemma roc_curve_total_witness :
  exists fpr tpr thresholds,
    roc_curve [false; false] [5 # 10; 6 # 10] = Ok (fpr, tpr, thresholds)
    /\ List.length fpr = List.length thresholds
    /\ List.length tpr = List.length thresholds
    /\ (2 <= List.length thresholds <= S (List.length [5 # 10; 6 # 10]))%nat
    /\ (In false [false; false] -> Forall (fun x => exists q, x = Real q) fpr)
    /\ (~ In false [false; false] -> Forall (fun x => x = NaN) fpr)
    /\ (In true [false; false] -> Forall (fun x => exists q, x = Real q) tpr)
    /\ (~ In true [false; false] -> Forall (fun x => x = NaN) tpr).
Proof.
  apply roc_curve_total.
  - reflexivity.
  - discriminate.
Defined.

End RocTotal.

(** ** The scores of the soft-voting ensemble *)

Section Vote.

Import Ensemble.

Lemma nth_map2_Qplus (a b : list Q) (j : nat) :
  (j < List.length a)%nat -> (j < List.length b)%nat ->
  nth j (map2 Qplus a b) 0 = nth j a 0 + nth j b 0.
Proof.
  revert b j. induction a as [|x a IH]; intros [|y b] [|j] Ha Hb;
    cbn [List.length] in *; try lia; cbn [map2 nth]; [reflexivity|].
  apply IH; lia.
Qed.

Lemma length_map2_Qplus (a b : list Q) (n : nat) :
  List.length a = n -> List.length b = n -> List.length (map2 Qplus a b) = n.
Proof.
  revert b n. induction a as [|x a IH]; intros [|y b] n Ha Hb;
    cbn [List.length map2] in *; try lia.
  destruct n; [lia|]. f_equal. apply IH; lia.
Qed.

Lemma sum_axis0_nth (ps : list (list Q)) : forall (p : list Q) (n j : nat),
  List.length p = n -> Forall (fun a => List.length a = n) ps ->
  (j < n)%nat ->
  List.length (sum_axis0 p ps) = n
  /\ nth j (sum_axis0 p ps) 0
     = fold_left (fun acc a => acc + nth j a 0) ps (nth j p 0).
Proof.
  unfold sum_axis0.
  induction ps as [|a ps IH]; intros p n j Hp Hps Hj; [now split|].
  inversion Hps as [|? ? Ha Hps']; subst. cbn [fold_left].
  destruct (IH (map2 Qplus p a) (List.length p) j) as [H1 H2];
    try assumption.
  - now apply length_map2_Qplus.
  - split; [exact H1|]. rewrite H2, nth_map2_Qplus by lia. reflexivity.
Qed.

End Vote.

Section VoteRange.

Import Ensemble.

Variables (lo hi : Q) (j : nat).



End VoteRange.

Section VoteRangeTheorem.

Import Ensemble.

Lemma sum_axis0_length (ps : list (list Q)) : forall (p : list Q) (n : nat),
  List.length p = n -> Forall (fun a => List.length a = n) ps ->
  List.length (sum_axis0 p ps) = n.
Proof.
  unfold sum_axis0. induction ps as [|a ps IH]; intros p n Hp Hps; [exact Hp|].
  apply Forall_cons_iff in Hps. destruct Hps as [Ha Hps]. cbn [fold_left].
  apply IH; [|exact Hps]. now apply length_map2_Qplus.
Qed.

Lemma scaled_lengths (n : nat) (ws : list Q) : forall probas : list (list Q),
  Forall (fun p => List.length p = n) probas ->
  Forall (fun a => List.length a = n)
         (map2 (fun w a => map (fun x => x * w) a) ws probas).
Proof.
  induction ws as [|w ws IH]; intros [|p probas] H; cbn [map2];
    try apply Forall_nil.
  apply Forall_cons_iff in H. destruct H as [H0 H].
  apply Forall_cons; [now rewrite length_map|now apply IH].
Qed.




Lemma sum_weights_ge (ws : list Q) : forall acc,
  Forall (fun w => 0 <= w) ws -> acc <= fold_left Qplus ws acc.
Proof.
  induction ws as [|w ws IH]; intros acc Hws; [apply Qle_refl|].
  apply Forall_cons_iff in Hws. destruct Hws as [Hw Hws]. cbn [fold_left].
  specialize (IH (acc + w) Hws). lra.
Qed.

Lemma sum_weights_some_pos (ws : list Q) : forall acc,
  0 <= acc -> Forall (fun w => 0 <= w) ws -> Exists (fun w => 0 < w) ws ->
  0 < fold_left Qplus ws acc.
Proof.
  induction ws as [|w ws IH]; intros acc Hacc Hws Hex.
  - apply Exists_nil in Hex. contradiction.
  - apply Forall_cons_iff in Hws. destruct Hws as [Hw Hws]. cbn [fold_left].
    apply Exists_cons in Hex. destruct Hex as [Hpos|Hex].
    + pose proof (sum_weights_ge ws (acc + w) Hws). lra.
    + apply IH; [lra|exact Hws|exact Hex].
Qed.



End VoteRangeTheorem.

(** ** Soft voting follows a ranking on which the estimators agree *)

Section VoteOrder.

Import Ensemble.

Lemma fold_sum_le (ps : list (list Q)) (i j : nat) : forall x y,
  x <= y -> Forall (fun a => nth i a 0 <= nth j a 0) ps ->
  fold_left (fun acc a => acc + nth i a 0) ps x
  <= fold_left (fun acc a => acc + nth j a 0) ps y.
Proof.
  induction ps as [|a ps IH]; intros x y Hxy Hps; [exact Hxy|].
  apply Forall_cons_iff in Hps. destruct Hps as [Ha Hps]. cbn [fold_left].
  apply IH; [lra|exact Hps].
Qed.

Lemma scaled_order (n i j : nat) (ws : list Q) : forall probas : list (list Q),
  (i < n)%nat -> (j < n)%nat ->
  Forall (fun w => 0 <= w) ws ->
  Forall (fun p => List.length p = n) probas ->
  Forall (fun p => nth i p 0 <= nth j p 0) probas ->
  Forall (fun a => nth i a 0 <= nth j a 0)
         (map2 (fun w a => map (fun x => x * w) a) ws probas).
Proof.
  induction ws as [|w ws IH]; intros [|p probas] Hi Hj Hw Hl Ho; cbn [map2];
    try apply Forall_nil.
  apply Forall_cons_iff in Hw, Hl, Ho.
  destruct Hw as [Hw0 Hw], Hl as [Hl0 Hl], Ho as [Ho0 Ho].
  apply Forall_cons; [|now apply IH].
  rewrite (nth_map_lt _ _ (fun x => x * w) p i 0 0) by lia.
  rewrite (nth_map_lt _ _ (fun x => x * w) p j 0 0) by lia.
  now apply Qmult_le_compat_r.
Qed.

Lemma div_le (x y d : Q) : 0 < d -> x <= y -> x / d <= y / d.
Proof.
  intros Hd H. apply Qmult_le_compat_r; [exact H|].
  apply Qlt_le_weak. now apply Qinv_lt_0_compat.
Qed.

(** X12.  Soft voting never ranks two test examples against the base
    classifiers: with at least one base classifier and, when weights are
    given, one non-negative weight per classifier of which one is
    positive, if every base classifier scores example [i] no higher than
    example [j], so does the ensemble. *)
Theorem soft_vote_keeps_order (weights : option (list Q))
  (probas : list (list Q)) (n i j : nat) :
  probas <> [] ->
  (forall ws, weights = Some ws ->
     List.length ws = List.length probas
     /\ Forall (fun w => 0 <= w) ws /\ Exists (fun w => 0 < w) ws) ->
  Forall (fun p => List.length p = n) probas ->
  (i < n)%nat -> (j < n)%nat ->
  Forall (fun p => nth i p 0 <= nth j p 0) probas ->
  exists y_prob_vote,
    soft_vote weights probas = Some y_prob_vote
    /\ List.length y_prob_vote = n
    /\ nth i y_prob_vote 0 <= nth j y_prob_vote 0.
Proof.
  intros Hne Hw Hlen Hi Hj Hord. unfold soft_vote. destruct weights as [ws|].
  - destruct (Hw ws eq_refl) as (Hl & Hnn & Hex).
    rewrite Hl, Nat.eqb_refl. cbn [negb].
    pose proof (sum_weights_some_pos ws 0 (Qle_refl 0) Hnn Hex) as Hpos.
    destruct (Qeq_bool (fold_left Qplus ws 0) 0) eqn:E;
      [apply Qeq_bool_iff in E; lra|].
    pose proof (scaled_lengths n ws probas Hlen) as Hsl.
    pose proof (scaled_order n i j ws probas Hi Hj Hnn Hlen Hord) as Hso.
    destruct (map2 (fun w a => map (fun x => x * w) a) ws probas)
      as [|q qs] eqn:Eq.
    { destruct ws; destruct probas; try discriminate; congruence. }
    apply Forall_cons_iff in Hsl, Hso.
    destruct Hsl as [Hq Hqs], Hso as [Hoq Hoqs].
    pose proof (sum_axis0_length qs q n Hq Hqs) as HL.
    eexists. split; [reflexivity|]. split; [now rewrite length_map|].
    rewrite (nth_map_lt _ _ (fun s => s / fold_left Qplus ws 0) _ i 0 0) by lia.
    rewrite (nth_map_lt _ _ (fun s => s / fold_left Qplus ws 0) _ j 0 0) by lia.
    apply div_le; [exact Hpos|].
    rewrite (proj2 (sum_axis0_nth _ _ n i Hq Hqs Hi)),
      (proj2 (sum_axis0_nth _ _ n j Hq Hqs Hj)).
    now apply fold_sum_le.
  - destruct probas as [|p ps]; [congruence|].
    apply Forall_cons_iff in Hlen, Hord.
    destruct Hlen as [Hp Hps], Hord as [Hop Hops].
    pose proof (sum_axis0_length ps p n Hp Hps) as HL.
    eexists. split; [reflexivity|]. split; [now rewrite length_map|].
    rewrite (nth_map_lt _ _
               (fun s => s / inject_Z (Z.of_nat (List.length (p :: ps)))) _ i 0 0)
      by lia.
    rewrite (nth_map_lt _ _
               (fun s => s / inject_Z (Z.of_nat (List.length (p :: ps)))) _ j 0 0)
      by lia.
    apply div_le.
    + change 0 with (inject_Z 0). rewrite <- Zlt_Qlt. simpl. lia.
    + rewrite (proj2 (sum_axis0_nth _ _ n i Hp Hps Hi)),
        (proj2 (sum_axis0_nth _ _ n j Hp Hps Hj)).
      now apply fold_sum_le.
Qed.

Lemma soft_vote_keeps_order_witness :
  exists y_prob_vote,
    soft_vote (Some [1; 2])
      [[9 # 10; 3 # 10; 8 # 10; 4 # 10]; [4 # 10; 1 # 10; 7 # 10; 3 # 10]]
    = Some y_prob_vote
    /\ List.length y_prob_vote = 4%nat
    /\ nth 1 y_prob_vote 0 <= nth 3 y_prob_vote 0.
Proof.
  apply (soft_vote_keeps_order (Some [1; 2])
           [[9 # 10; 3 # 10; 8 # 10; 4 # 10];
            [4 # 10; 1 # 10; 7 # 10; 3 # 10]] 4 1 3).
  - discriminate.
  - intros ws E. injection E as <-. split; [reflexivity|].
    split; [repeat constructor; discriminate|].
    apply Exists_cons_hd. reflexivity.
  - repeat constructor.
  - lia.
  - lia.
  - repeat constructor; discriminate.
Defined.

End VoteOrder.

(** * The points that [roc_curve] keeps *)

(** ** Counting the examples that have one score *)

Section CountEqual.

Lemma count_equal_cons b t s y l :
  count_equal b t ((s, y) :: l)
  = ((if Bool.eqb b y && Qeq_bool t s then 1 else 0) + count_equal b t l)%Z.
Proof.
  unfold count_equal. cbn [filter fst snd].
  destruct (Bool.eqb b y && Qeq_bool t s); cbn [List.length]; lia.
Qed.

Lemma count_equal_perm b t l l' :
  Permutation l l' -> count_equal b t l = count_equal b t l'.
Proof.
  induction 1 as [|[s y] l l' _ IH|[s y] [s' y'] l|l l' l'' _ IH1 _ IH2].
  - reflexivity.
  - rewrite !count_equal_cons. now rewrite IH.
  - rewrite !count_equal_cons. lia.
  - congruence.
Qed.

Lemma Qeq_bool_Qeq_l t t' s : t == t' -> Qeq_bool t s = Qeq_bool t' s.
Proof.
  intros E. destruct (Qeq_bool t' s) eqn:E'.
  - apply Qeq_bool_iff. apply Qeq_bool_iff in E'. now rewrite E.
  - destruct (Qeq_bool t s) eqn:E''; [|reflexivity].
    apply Qeq_bool_iff in E''. rewrite E in E''.
    apply Qeq_bool_iff in E''. congruence.
Qed.

Lemma count_equal_Qeq b t t' l :
  t == t' -> count_equal b t l = count_equal b t' l.
Proof.
  intros E. induction l as [|[s y] l IH]; [reflexivity|].
  rewrite !count_equal_cons, IH, (Qeq_bool_Qeq_l t t' s E). reflexivity.
Qed.

(** Between two neighbouring scores [s < t] the count of the decision
    [score >= .] grows by the examples that have the score [s]. *)
Lemma count_at_least_step b s t l :
  s < t ->
  Forall (fun p : Q * bool => fst p <= s \/ t <= fst p) l ->
  count_at_least b s l = (count_at_least b t l + count_equal b s l)%Z.
Proof.
  intros Hst. induction 1 as [|[x y] l Hx _ IH]; [reflexivity|].
  rewrite !count_at_least_cons, count_equal_cons, IH. cbn [fst] in Hx.
  destruct (Bool.eqb b y); cbn [andb]; [|lia].
  destruct (Qle_bool s x) eqn:E1, (Qle_bool t x) eqn:E2, (Qeq_bool s x) eqn:E3;
    try lia; exfalso;
    try (apply Qle_bool_iff in E1); try (apply Qle_bool_iff in E2);
    try (apply Qeq_bool_iff in E3);
    try (apply Qeq_bool_neq in E3);
    try (assert (~ s <= x) by (intros C; apply Qle_bool_iff in C; congruence));
    try (assert (~ t <= x) by (intros C; apply Qle_bool_iff in C; congruence));
    destruct Hx; lra.
Qed.

End CountEqual.

(** ** Which points [drop_intermediate] keeps *)

Section DropMembership.

Lemma drop_mid_iff l : forall a p d,
  In p (drop_mid a l)
  <-> (exists pre prev next post,
          a :: l = pre ++ prev :: p :: next :: post
          /\ keep prev p next = true)
      \/ (l <> [] /\ p = last l d).
Proof.
  induction l as [|cur l IH]; intros a p d.
  - cbn [drop_mid In]. split; [intros []|].
    intros [(pre & prev & next & post & E & _)|[H _]]; [|congruence].
    apply (f_equal (@List.length _)) in E. rewrite length_app in E.
    cbn [List.length] in E. lia.
  - destruct l as [|next l].
    + cbn [drop_mid]. split.
      * intros [<-|[]]. right. split; [discriminate|reflexivity].
      * intros [(pre & prev & nx & post & E & _)|[_ ->]]; [|now left].
        apply (f_equal (@List.length _)) in E. rewrite length_app in E.
        cbn [List.length] in E. lia.
    + rewrite drop_mid_cons2. specialize (IH cur p d).
      change (last (cur :: next :: l) d) with (last (next :: l) d).
      split.
      * intros H.
        assert (H' : (p = cur /\ keep a cur next = true)
                     \/ In p (drop_mid cur (next :: l))).
        { destruct (keep a cur next); [|now right].
          destruct H as [<-|H]; [left; now split|now right]. }
        destruct H' as [[-> K]|H'].
        -- left. exists [], a, next, l. split; [reflexivity|exact K].
        -- apply IH in H'.
           destruct H' as [(pre & prev & nx & post & E & K)|[_ ->]].
           ++ left. exists (a :: pre), prev, nx, post.
              split; [|exact K]. cbn [app]. now rewrite E.
           ++ right. split; [discriminate|reflexivity].
      * intros [(pre & prev & nx & post & E & K)|[_ ->]].
        -- destruct pre as [|x pre]; cbn [app] in E.
           ++ assert (E1 : a = prev) by congruence.
              assert (E2 : cur = p) by congruence.
              assert (E3 : next = nx) by congruence.
              rewrite E1, E2, E3, K. now left.
           ++ assert (E' : cur :: next :: l = pre ++ prev :: p :: nx :: post)
                by congruence.
              assert (Hin : In p (drop_mid cur (next :: l))).
              { apply IH. left. exists pre, prev, nx, post. now split. }
              destruct (keep a cur next); [now right|exact Hin].
        -- assert (Hin : In (last (next :: l) d) (drop_mid cur (next :: l))).
           { apply IH. right. split; [discriminate|reflexivity]. }
           destruct (keep a cur next); [now right|exact Hin].
Qed.

(** A point is kept when it is the first, the last, or one between two
    others at which [keep] holds. *)
Lemma drop_intermediate_iff l p d :
  In p (drop_intermediate l)
  <-> (exists t, l = p :: t)
      \/ (l <> [] /\ p = last l d)
      \/ exists pre prev next post,
           l = pre ++ prev :: p :: next :: post /\ keep prev p next = true.
Proof.
  destruct l as [|a l].
  - cbn [drop_intermediate In]. split; [intros []|].
    intros [[t E]|[[H _]|(pre & prev & next & post & E & _)]];
      try discriminate; try congruence.
    destruct pre; discriminate.
  - cbn [drop_intermediate In]. rewrite (drop_mid_iff l a p d). split.
    + intros [<-|[H|[Hne ->]]].
      * left. now exists l.
      * right. right. exact H.
      * right. left. split; [discriminate|].
        destruct l as [|b l]; [congruence|reflexivity].
    + intros [[t E]|[[_ ->]|H]].
      * left. congruence.
      * destruct l as [|b l]; [now left|].
        right. right. split; [discriminate|reflexivity].
      * right. left. exact H.
Qed.

Lemma StronglySorted_middle (A : Type) (R : A -> A -> Prop) (pre : list A) :
  forall x post,
  StronglySorted R (pre ++ x :: post) ->
  Forall (fun y => R y x) pre /\ Forall (R x) post.
Proof.
  induction pre as [|a pre IH]; intros x post Hs; cbn [app] in Hs;
    apply StronglySorted_inv in Hs; destruct Hs as [Hs Ha].
  - split; [constructor|exact Ha].
  - destruct (IH x post Hs) as [H1 H2]. split; [|exact H2].
    constructor; [|exact H1].
    rewrite Forall_forall in Ha. apply Ha, in_or_app. right. now left.
Qed.

End DropMembership.

(** ** Neighbouring points of the sweep *)

Section Neighbours.

Variables (l : list sample) (fp tp : Z).
Hypothesis Hdesc : descending l.

Variables (pre : list point) (a b : point) (post : list point).
Hypothesis Hsplit : sweep fp tp l = pre ++ a :: b :: post.

Lemma neighbours_lt : thr_of b < thr_of a.
Proof.
  pose proof (sweep_thr_desc l fp tp Hdesc) as Hs. rewrite Hsplit in Hs.
  destruct (StronglySorted_middle _ _ _ _ _ Hs) as [_ H].
  apply Forall_inv in H. exact H.
Qed.

(** No score lies strictly between the thresholds of two neighbours. *)
Lemma neighbours_gap x :
  In x (map fst l) -> x <= thr_of b \/ thr_of a <= x.
Proof.
  intros Hx. destruct (sweep_complete l fp tp x Hx) as (q & Hq & Eq).
  pose proof (sweep_thr_desc l fp tp Hdesc) as Hs. rewrite Hsplit in Hs, Hq.
  destruct (StronglySorted_middle _ _ _ _ _ Hs) as [Hpre _].
  replace (pre ++ a :: b :: post) with ((pre ++ [a]) ++ b :: post) in Hs
    by (rewrite <- app_assoc; reflexivity).
  destruct (StronglySorted_middle _ _ _ _ _ Hs) as [_ Hpost].
  rewrite Forall_forall in Hpre, Hpost.
  apply in_app_or in Hq. destruct Hq as [Hq|[<-|[<-|Hq]]].
  - right. specialize (Hpre q Hq). unfold thr_gt in Hpre. lra.
  - right. lra.
  - left. lra.
  - left. specialize (Hpost q Hq). unfold thr_gt in Hpost. lra.
Qed.

(** From a point to the next the counts grow by the examples that have
    the next threshold as their score. *)
Lemma neighbours_step :
  (fps_of b - fps_of a)%Z = count_equal false (thr_of b) l
  /\ (tps_of b - tps_of a)%Z = count_equal true (thr_of b) l.
Proof.
  assert (Ha : In a (sweep fp tp l))
    by (rewrite Hsplit; apply in_or_app; right; now left).
  assert (Hb : In b (sweep fp tp l))
    by (rewrite Hsplit; apply in_or_app; right; right; now left).
  destruct (sweep_counts l fp tp a Hdesc Ha) as [Fa Ta].
  destruct (sweep_counts l fp tp b Hdesc Hb) as [Fb Tb].
  assert (Hall : Forall (fun p : Q * bool => fst p <= thr_of b \/ thr_of a <= fst p) l).
  { apply Forall_forall. intros p Hp. apply neighbours_gap. now apply in_map. }
  pose proof (count_at_least_step false _ _ l neighbours_lt Hall) as Sf.
  pose proof (count_at_least_step true _ _ l neighbours_lt Hall) as St.
  split; lia.
Qed.

End Neighbours.

(** ** The thresholds of the curve are the scores that keep their point *)

Section Kept.

Variables (y_true : list bool) (y_score : list Q).
Hypothesis Hlen : List.length y_true = List.length y_score.
Hypothesis Hne : y_true <> [].

Let l := sorted_desc y_true y_score.
Let L := sweep 0 0 l.

Lemma sweep_thr_score p : In p L -> In (thr_of p) y_score.
Proof.
  intros Hp. apply sweep_thr_in in Hp.
  now apply (sorted_scores y_true y_score Hlen).
Qed.

Lemma count_equal_sorted b t :
  count_equal b t l = count_equal b t (combine y_score y_true).
Proof. apply count_equal_perm, sorted_desc_perm. Qed.

Lemma neighbours_next_below pre a b post :
  L = pre ++ a :: b :: post -> next_below y_score (thr_of a) (thr_of b).
Proof.
  intros E. pose proof (sorted_desc_descending y_true y_score) as Hd.
  split; [|split].
  - apply sweep_thr_score. rewrite E. apply in_or_app. right. right. now left.
  - exact (neighbours_lt l 0%Z 0%Z Hd pre a b post E).
  - intros x Hx Hlt. apply (sorted_scores y_true y_score Hlen) in Hx.
    destruct (neighbours_gap l 0%Z 0%Z Hd pre a b post E x Hx) as [H|H];
      [exact H|].
    exfalso. eapply Qlt_not_le; eassumption.
Qed.

Lemma next_below_unique t t' s s' :
  t == t' -> next_below y_score t s -> next_below y_score t' s' -> s == s'.
Proof.
  intros E (Hs & Hst & Hmax) (Hs' & Hst' & Hmax').
  apply Qle_antisym.
  - apply Hmax'; [exact Hs|]. now rewrite <- E.
  - apply Hmax; [exact Hs'|]. now rewrite E.
Qed.

Lemma nonzero_sub x y : nonzero (x - y) = true <-> x <> y.
Proof.
  unfold nonzero. rewrite negb_true_iff, Z.eqb_neq. lia.
Qed.

Lemma keep_iff pre prev p next post :
  L = pre ++ prev :: p :: next :: post ->
  keep prev p next = true
  <-> (count_equal false (thr_of next) (combine y_score y_true)
       <> count_equal false (thr_of p) (combine y_score y_true)
       \/ count_equal true (thr_of next) (combine y_score y_true)
          <> count_equal true (thr_of p) (combine y_score y_true)).
Proof.
  intros E. pose proof (sorted_desc_descending y_true y_score) as Hd.
  destruct (neighbours_step l 0%Z 0%Z Hd pre prev p (next :: post) E)
    as [F1 T1].
  assert (E' : L = (pre ++ [prev]) ++ p :: next :: post)
    by (rewrite <- app_assoc; exact E).
  destruct (neighbours_step l 0%Z 0%Z Hd (pre ++ [prev]) p next post E')
    as [F2 T2].
  rewrite <- !count_equal_sorted, <- F1, <- F2, <- T1, <- T2.
  unfold keep. rewrite orb_true_iff, !nonzero_sub. reflexivity.
Qed.

Lemma first_largest p t : L = p :: t -> largest y_score (thr_of p).
Proof.
  intros E x Hx. apply (sorted_scores y_true y_score Hlen) in Hx.
  pose proof (sweep_head_max l 0%Z 0%Z p t
                (sorted_desc_descending y_true y_score) E) as H.
  rewrite Forall_forall in H. now apply H.
Qed.

Lemma last_smallest d : smallest y_score (thr_of (last L d)).
Proof.
  intros x Hx. apply (sorted_scores y_true y_score Hlen) in Hx.
  pose proof (sorted_nonempty y_true y_score Hlen Hne) as Hl.
  unfold L. rewrite (sweep_last l 0%Z 0%Z d (0, true) Hl).
  unfold thr_of. cbn [snd].
  pose proof (descending_last_min l (0, true)
                (sorted_desc_descending y_true y_score) Hl) as H.
  rewrite Forall_forall in H. now apply H.
Qed.

(** Every threshold of the curve is a score that keeps its point ... *)
Lemma roc_points_kept p :
  In p (roc_points y_true y_score) -> kept y_true y_score (thr_of p).
Proof.
  intros Hp. split.
  - now apply (roc_points_thr_in y_true y_score Hlen).
  - unfold roc_points in Hp. fold l L in Hp.
    apply (drop_intermediate_iff L p (0%Z, 0%Z, 0)) in Hp.
    destruct Hp as [[t E]|[[_ ->]|(pre & prev & next & post & E & K)]].
    + left. exact (first_largest p t E).
    + right. left. apply last_smallest.
    + right. right. exists (thr_of next). split.
      * apply (neighbours_next_below (pre ++ [prev]) p next post).
        rewrite <- app_assoc. exact E.
      * now apply (keep_iff pre prev p next post E).
Qed.

(** ... and every such score is a threshold of the curve. *)
Lemma kept_roc_points t :
  kept y_true y_score t ->
  exists p, In p (roc_points y_true y_score) /\ thr_of p == t.
Proof.
  intros [Hin Hk]. pose proof (sorted_desc_descending y_true y_score) as Hd.
  apply (sorted_scores y_true y_score Hlen) in Hin.
  destruct (sweep_complete l 0%Z 0%Z t Hin) as (p & Hp & Ep).
  exists p. split; [|exact Ep].
  unfold roc_points. fold l L.
  apply (drop_intermediate_iff L p (0%Z, 0%Z, 0)).
  fold L in Hp. apply in_split in Hp. destruct Hp as (l1 & l2 & E).
  destruct l1 as [|x1 l1']; [left; now exists l2|].
  destruct l2 as [|next post].
  { right. left. split; [rewrite E; discriminate|].
    rewrite E. symmetry. apply last_last. }
  right. right.
  destruct (@exists_last _ (x1 :: l1') ltac:(discriminate)) as [pre [prev E1]].
  rewrite E1, <- app_assoc in E. cbn [app] in E.
  exists pre, prev, next, post. split; [exact E|].
  assert (E' : L = (pre ++ [prev]) ++ p :: next :: post)
    by (rewrite <- app_assoc; exact E).
  pose proof (neighbours_lt l 0%Z 0%Z Hd pre prev p (next :: post) E) as Hprev.
  pose proof (neighbours_lt l 0%Z 0%Z Hd (pre ++ [prev]) p next post E')
    as Hnext.
  destruct Hk as [Hmax|[Hmin|(s & Hs & Hc)]].
  - exfalso. assert (Hle : thr_of prev <= t).
    { apply Hmax, sweep_thr_score. rewrite E. apply in_or_app. right. now left. }
    lra.
  - exfalso. assert (Hle : t <= thr_of next).
    { apply Hmin, sweep_thr_score. rewrite E. apply in_or_app.
      right. right. right. now left. }
    lra.
  - apply (keep_iff pre prev p next post E).
    pose proof (neighbours_next_below (pre ++ [prev]) p next post E') as Hnb.
    pose proof (next_below_unique _ _ _ _ Ep Hnb Hs) as Es.
    rewrite !(count_equal_Qeq _ _ _ _ Es), !(count_equal_Qeq _ _ _ _ Ep).
    exact Hc.
Qed.

End Kept.

(** ** The thresholds among which [compute_eer] chooses *)

Section Nearest.



Variables (y_true : list bool) (y_score : list Q).
Hypothesis Hlen : List.length y_true = List.length y_score.
Hypothesis Hboth : both_classes y_true.

Let cv := curve y_true y_score.
Let d : Z * Z * npfloat := (0%Z, 0%Z, PosInf).







End Nearest.




(** C2, amended.  For equal-length inputs with both classes present the
    curve that [compute_eer] builds has the threshold [+inf] first and
    then, in strictly decreasing order, exactly the scores that keep
    their point: the largest score, the smallest score, which is the last
    threshold, and every score between them that is followed by a score
    with another number of forged or of genuine examples.  No threshold
    lies below the smallest score.  The rates at the threshold [+inf] are
    [(0, 0)]; at a threshold [t] they are those of the decision
    [score >= t]; the last rates are [(1, 1)] and neither rate decreases
    along the curve. *)
Theorem roc_curve_shape (y_true : list bool) (y_score : list Q) :
  List.length y_true = List.length y_score ->
  both_classes y_true ->
  exists fpr tpr ts,
    roc_curve y_true y_score
    = Ok (map Real fpr, map Real tpr, PosInf :: map Real ts)
    /\ List.length fpr = S (List.length ts)
    /\ List.length tpr = S (List.length ts)
    /\ ts <> []
    /\ StronglySorted (fun a b => b < a) ts
    /\ (forall t, In t ts -> In t y_score)
    /\ (forall s, In s y_score -> s <= hd 0 ts /\ last ts 0 <= s)
    /\ (forall t, In t ts -> kept y_true y_score t)
    /\ (forall t, kept y_true y_score t -> exists t', In t' ts /\ t' == t)
    /\ (forall j, (j < List.length ts)%nat ->
          nth (S j) fpr 0 == false_positive_rate y_true y_score (nth j ts 0)
          /\ 1 - nth (S j) tpr 0
             == false_negative_rate y_true y_score (nth j ts 0))
    /\ hd 0 fpr == 0 /\ hd 0 tpr == 0
    /\ last fpr 0 == 1 /\ last tpr 0 == 1
    /\ StronglySorted Qle fpr /\ StronglySorted Qle tpr.
Proof.
  intros Hlen Hb. pose proof (both_classes_nonempty _ Hb) as Hne.
  set (cv := curve y_true y_score).
  set (pts := roc_points y_true y_score).
  pose proof (roc_points_nonempty y_true y_score Hlen Hne) as Hpts.
  fold pts in Hpts.
  assert (Hcl : List.length cv = S (List.length pts)) by apply curve_length.
  destruct Hb as [Hpos Hneg]. pose proof Hpos as Hpos'. pose proof Hneg as Hneg'.
  apply count_label_pos in Hpos, Hneg.
  exists (map (fpr_of y_true) cv), (map (tpr_of y_true) cv), (map thr_of pts).
  rewrite !length_map.
  split; [|split; [|split; [|split; [|split; [|split; [|split; [|split;
    [|split; [|split; [|split; [|split; [|split; [|split; [|split]]]]]]]]]]]]]].
  - rewrite roc_curve_valid by (try assumption; now split). fold cv.
    rewrite !map_map. unfold cv, curve. cbn [map snd]. rewrite !map_map.
    reflexivity.
  - exact Hcl.
  - exact Hcl.
  - destruct pts; [congruence|discriminate].
  - apply StronglySorted_map. apply roc_points_thr_desc.
  - intros t Ht. apply in_map_iff in Ht. destruct Ht as (p & <- & Hp).
    now apply (roc_points_thr_in y_true y_score Hlen).
  - intros s Hs. split.
    + destruct pts as [|p ps] eqn:E; [congruence|]. cbn [map hd].
      pose proof (roc_points_head_max y_true y_score Hlen p ps E) as Hmax.
      rewrite Forall_forall in Hmax. now apply Hmax.
    + change 0 with (thr_of (0%Z, 0%Z, 0)). rewrite last_map.
      pose proof (roc_points_last_min y_true y_score Hlen Hne (0%Z, 0%Z, 0))
        as Hmin.
      rewrite Forall_forall in Hmin. now apply Hmin.
  - intros t Ht. apply in_map_iff in Ht. destruct Ht as (p & <- & Hp).
    now apply roc_points_kept.
  - intros t Hk.
    destruct (kept_roc_points y_true y_score Hlen t Hk) as (p & Hp & Ep).
    exists (thr_of p). split; [now apply in_map|exact Ep].
  - intros j Hj.
    rewrite (nth_map_lt _ _ (fpr_of y_true) cv (S j) 0 (0%Z, 0%Z, PosInf))
      by lia.
    rewrite (nth_map_lt _ _ (tpr_of y_true) cv (S j) 0 (0%Z, 0%Z, PosInf))
      by lia.
    rewrite (nth_map_lt _ _ thr_of pts j 0 (0%Z, 0%Z, 0) Hj).
    unfold cv, curve. cbn [nth]. fold pts.
    rewrite (nth_map_lt _ _ _ pts j (0%Z, 0%Z, PosInf) (0%Z, 0%Z, 0) Hj).
    destruct (roc_points_counts y_true y_score Hlen (nth j pts (0%Z, 0%Z, 0))
                (nth_In _ _ Hj)) as [H1 H2].
    unfold fpr_of, tpr_of, false_positive_rate, false_negative_rate.
    cbn [fst snd]. rewrite H1, H2. split; reflexivity.
  - unfold cv, curve. cbn [map hd]. apply rate_zero.
  - unfold cv, curve. cbn [map hd]. apply rate_zero.
  - destruct (curve_last y_true y_score Hlen Hne) as (s & Hl).
    rewrite (last_indep _ _ 0 (fpr_of y_true (0%Z, 0%Z, PosInf)))
      by (unfold cv, curve; discriminate).
    rewrite last_map. fold cv in Hl. rewrite Hl.
    unfold fpr_of. cbn [fst]. now apply rate_full.
  - destruct (curve_last y_true y_score Hlen Hne) as (s & Hl).
    rewrite (last_indep _ _ 0 (tpr_of y_true (0%Z, 0%Z, PosInf)))
      by (unfold cv, curve; discriminate).
    rewrite last_map. fold cv in Hl. rewrite Hl.
    unfold tpr_of. cbn [fst snd]. now apply rate_full.
  - apply StronglySorted_map.
    eapply StronglySorted_impl; [|apply curve_sorted].
    intros a b [H _]. now apply rate_mono.
  - apply StronglySorted_map.
    eapply StronglySorted_impl; [|apply curve_sorted].
    intros a b [_ H]. now apply rate_mono.
Qed.

Lemma roc_curve_shape_witness :
  let y_true := [true; true; false; false] in
  let y_score := [9 # 10; 8 # 10; 3 # 10; 1 # 10] in
  exists fpr tpr ts,
    roc_curve y_true y_score
    = Ok (map Real fpr, map Real tpr, PosInf :: map Real ts)
    /\ List.length fpr = S (List.length ts)
    /\ List.length tpr = S (List.length ts)
    /\ ts <> []
    /\ StronglySorted (fun a b => b < a) ts
    /\ (forall t, In t ts -> In t y_score)
    /\ (forall s, In s y_score -> s <= hd 0 ts /\ last ts 0 <= s)
    /\ (forall t, In t ts -> kept y_true y_score t)
    /\ (forall t, kept y_true y_score t -> exists t', In t' ts /\ t' == t)
    /\ (forall j, (j < List.length ts)%nat ->
          nth (S j) fpr 0 == false_positive_rate y_true y_score (nth j ts 0)
          /\ 1 - nth (S j) tpr 0
             == false_negative_rate y_true y_score (nth j ts 0))
    /\ hd 0 fpr == 0 /\ hd 0 tpr == 0
    /\ last fpr 0 == 1 /\ last tpr 0 == 1
    /\ StronglySorted Qle fpr /\ StronglySorted Qle tpr.
Proof.
  intros y_true y_score. apply (roc_curve_shape y_true y_score).
  - reflexivity.
  - split; [now left|do 2 right; now left].
Defined.
